(** * A shallow embedding of the wasm-interpreter sources

    The development follows the layout of the C++ sources:
    - [types.h]        value types, tagged values, limits;
    - [stack.cpp]      the operand stack and the call stack;
    - [memory.cpp]     linear memory;
    - [decoder.cpp]    the LEB128 readers of the decoder;
    - [interpreter.cpp] conversions, labels and branches, calls, globals.

    C++ exceptions are modelled by a state-and-exception monad in which a
    throw keeps the state reached so far, as a C++ throw does with the
    members of the object that threw. *)

From Stdlib Require Import ZArith Lia String DecimalString SpecFloat.
From stdpp Require Import base list.

Local Open Scope Z_scope.

(** ** Exceptions and the monad of the embedding *)

(** The exception classes of the sources ([StackError] in stack.h,
    [MemoryError] in memory.h, [DecoderError] in decoder.h,
    [InterpreterError] and [Trap] in interpreter.h).  [formatError] of the
    decoder prefixes a message with the cursor; the model keeps the cursor
    apart from the message ([None] when the source does not format).
    [Undefined] is not a C++ exception: it marks a point where the C++
    standard gives the program no meaning (reading [back()] of an empty
    vector, converting an out-of-range float to an integer, shifting by
    the width of the operand or more, negating the least integer of a
    signed type). *)
Inductive exception : Type :=
| StackError (msg : string)
| MemoryError (msg : string)
| DecoderError (at_byte : option nat) (msg : string)
| InterpreterError (msg : string)
| Trap (msg : string)
| Undefined (what : string).

(** The budgets of the model: the turns of a loop, and the depth of the
    native recursion of [Interpreter::execute]. *)
Inductive budget : Type := Turns | Nesting.

(** The outcome of a computation; [Exhausted] belongs to the model only
    (a budget was used up before the code returned or threw). *)
Inductive outcome (A : Type) : Type :=
| Ok (a : A)
| Throw (e : exception)
| Exhausted (b : budget).
Arguments Ok {A} a.
Arguments Throw {A} e.
Arguments Exhausted {A} b.

Definition M (S A : Type) : Type := S -> outcome A * S.

Definition ret {S A} (a : A) : M S A := fun s => (Ok a, s).

Definition bind {S A B} (c : M S A) (k : A -> M S B) : M S B :=
  fun s =>
    match c s with
    | (Ok a, s') => k a s'
    | (Throw e, s') => (Throw e, s')
    | (Exhausted b, s') => (Exhausted b, s')
    end.

Definition throw {S A} (e : exception) : M S A := fun s => (Throw e, s).
Definition get {S} : M S S := fun s => (Ok s, s).
Definition put {S} (s : S) : M S unit := fun _ => (Ok tt, s).
Definition modify {S} (f : S -> S) : M S unit := fun s => (Ok tt, f s).

(** Converts the outcome of a pure case body into a computation. *)
Definition lift_outcome {S A} (o : outcome A) : M S A := fun s => (o, s).

Declare Scope exec_scope.
Delimit Scope exec_scope with exec.
Notation "x <- c ;; k" := (bind c (fun x => k))
  (at level 100, c at next level, right associativity) : exec_scope.
Notation "c ;;; k" := (bind c (fun _ => k))
  (at level 100, right associativity) : exec_scope.
Local Open Scope exec_scope.

Definition is_trap {A} (o : outcome A) : bool :=
  match o with Throw (Trap _) => true | _ => false end.

(** ** Machine integers *)

Definition wrap (w : Z) (x : Z) : Z := x mod 2 ^ w.

(** Two's complement reading of the low [w] bits of [x]. *)
Definition signed (w : Z) (x : Z) : Z :=
  let u := x mod 2 ^ w in
  if u <? 2 ^ (w - 1) then u else u - 2 ^ w.

(** The tail of the signed LEB128 readers, on the locals at the exit of
    their loop: [if (shift < w && (byte & 0x40)) result |= -(1 << shift);]
    with [1] of the width [w].  For [shift = w - 1] the negation
    overflows, which has no meaning in C++. *)
Definition sign_extend (w result shift byte : Z) : outcome Z :=
  if (shift <? w) && negb (Z.land byte 0x40 =? 0)
  then
    if shift =? w - 1 then Throw (Undefined "signed integer overflow")
    else Ok (signed w (Z.lor result (wrap w (- Z.shiftl 1 shift))))
  else Ok (signed w result).

Definition INT32_MIN : Z := - 2 ^ 31.
Definition INT32_MAX : Z := 2 ^ 31 - 1.
Definition UINT32_MAX : Z := 2 ^ 32 - 1.
Definition INT64_MIN : Z := - 2 ^ 63.
Definition INT64_MAX : Z := 2 ^ 63 - 1.
Definition UINT64_MAX : Z := 2 ^ 64 - 1.

(** ** types.h *)

(** [enum class ValueType : uint8_t]: the wire byte, with the named
    enumerators as constants (the decoder casts any byte to it). *)
Definition ValueType : Type := Z.
Definition I32 : ValueType := 0x7F.
Definition I64 : ValueType := 0x7E.
Definition F32 : ValueType := 0x7D.
Definition F64 : ValueType := 0x7C.
Definition VOID : ValueType := 0x40.

Definition valueTypeToString (t : ValueType) : string :=
  if t =? I32 then "i32"
  else if t =? I64 then "i64"
  else if t =? F32 then "f32"
  else if t =? F64 then "f64"
  else if t =? VOID then "void"
  else "unknown".

(** [union Value]: eight bytes of storage, read through the member that
    matches the tag.  The model keeps the 64-bit pattern; a float member is
    its IEEE-754 bit pattern.  Bytes that a constructor does not write are
    taken to be zero. *)
Definition Value : Type := Z.

Definition Value_i32 (v : Value) : Z := signed 32 v.
Definition Value_i64 (v : Value) : Z := signed 64 v.
Definition Value_f32 (v : Value) : Z := wrap 32 v.
Definition Value_f64 (v : Value) : Z := wrap 64 v.

Record TypedValue : Type := mkTypedValue { type : ValueType; value : Value }.

Definition makeI32 (v : Z) : TypedValue := mkTypedValue I32 (wrap 32 v).
Definition makeI64 (v : Z) : TypedValue := mkTypedValue I64 (wrap 64 v).
Definition makeF32 (bits : Z) : TypedValue := mkTypedValue F32 (wrap 32 bits).
Definition makeF64 (bits : Z) : TypedValue := mkTypedValue F64 (wrap 64 bits).

(** [TypedValue()]: tag I32, payload [i64 = 0]. *)
Definition TypedValue_default : TypedValue := mkTypedValue I32 0.

Record Limits : Type := mkLimits { min : Z; max : Z; has_max : bool }.

Definition Limits_min_only (minimum : Z) : Limits := mkLimits minimum 0 false.
Definition Limits_min_max (minimum maximum : Z) : Limits := mkLimits minimum maximum true.

(** ** stack.cpp: the operand stack *)

Module Stack.

(** [std::vector<TypedValue> stack_]: index 0 is the bottom, [back()] the
    top. *)
Definition t : Type := list TypedValue.

Definition size (s : t) : nat := length s.
Definition empty (s : t) : bool := bool_decide (s = []).

Definition push (v : TypedValue) : M t unit := modify (fun s => s ++ [v]).
Definition pushI32 (v : Z) : M t unit := push (makeI32 v).
Definition pushI64 (v : Z) : M t unit := push (makeI64 v).
Definition pushF32 (bits : Z) : M t unit := push (makeF32 bits).
Definition pushF64 (bits : Z) : M t unit := push (makeF64 bits).

Definition checkNotEmpty : M t unit :=
  s <- get ;;
  if empty s then throw (StackError "Stack underflow") else ret tt.

(** [stack_.back()] *)
Definition back : M t TypedValue :=
  s <- get ;;
  match last s with
  | Some v => ret v
  | None => throw (Undefined "back() of an empty vector")
  end.

Definition checkType (expected : ValueType) : M t unit :=
  top <- back ;;
  if negb (type top =? expected)
  then throw (StackError ("Type mismatch: expected " ++ valueTypeToString expected ++
                          ", got " ++ valueTypeToString (type top))%string)
  else ret tt.

Definition pop_back : M t unit := modify (@removelast TypedValue).

Definition popI32 : M t Z :=
  checkNotEmpty ;;;
  checkType I32 ;;;
  val <- back ;;
  pop_back ;;;
  ret (Value_i32 (value val)).

Definition popI64 : M t Z :=
  checkNotEmpty ;;;
  checkType I64 ;;;
  val <- back ;;
  pop_back ;;;
  ret (Value_i64 (value val)).

Definition popF32 : M t Z :=
  checkNotEmpty ;;;
  checkType F32 ;;;
  val <- back ;;
  pop_back ;;;
  ret (Value_f32 (value val)).

Definition popF64 : M t Z :=
  checkNotEmpty ;;;
  checkType F64 ;;;
  val <- back ;;
  pop_back ;;;
  ret (Value_f64 (value val)).

Definition pop : M t TypedValue :=
  checkNotEmpty ;;;
  val <- back ;;
  pop_back ;;;
  ret val.

Definition peek : M t TypedValue :=
  checkNotEmpty ;;;
  back.

Definition peekI32 : M t Z :=
  checkNotEmpty ;;;
  checkType I32 ;;;
  top <- back ;;
  ret (Value_i32 (value top)).

Definition peekI64 : M t Z :=
  checkNotEmpty ;;;
  checkType I64 ;;;
  top <- back ;;
  ret (Value_i64 (value top)).

Definition peekF32 : M t Z :=
  checkNotEmpty ;;;
  checkType F32 ;;;
  top <- back ;;
  ret (Value_f32 (value top)).

Definition peekF64 : M t Z :=
  checkNotEmpty ;;;
  checkType F64 ;;;
  top <- back ;;
  ret (Value_f64 (value top)).

Definition checkDepth (depth : nat) : M t unit :=
  s <- get ;;
  if (size s <=? depth)%nat then throw (StackError "Invalid stack depth") else ret tt.

(** [peek(size_t depth)]: [stack_[stack_.size() - 1 - depth]]. *)
Definition peek_at (depth : nat) : M t TypedValue :=
  checkDepth depth ;;;
  s <- get ;;
  match s !! (size s - 1 - depth)%nat with
  | Some v => ret v
  | None => throw (Undefined "stack_[i] out of range")
  end.

End Stack.

(** ** stack.cpp: the call stack *)

Module CallStack.

Record CallFrame : Type := mkCallFrame {
  function_index : Z;
  return_pc : nat;
  locals_base : nat;
  stack_base : nat
}.

Definition t : Type := list CallFrame.

(** Stack depth limit to prevent infinite recursion (stack.h). *)
Definition MAX_DEPTH : nat := 1024.

Definition size (s : t) : nat := length s.

Definition checkNotEmpty : M t unit :=
  s <- get ;;
  if bool_decide (s = []) then throw (StackError "Call stack underflow") else ret tt.

Definition checkDepthLimit : M t unit :=
  s <- get ;;
  if (MAX_DEPTH <=? length s)%nat
  then throw (StackError "Call stack overflow: maximum depth exceeded")
  else ret tt.

Definition push (frame : CallFrame) : M t unit :=
  checkDepthLimit ;;;
  modify (fun s => s ++ [frame]).

Definition pop : M t CallFrame :=
  checkNotEmpty ;;;
  s <- get ;;
  match last s with
  | Some frame => put (removelast s) ;;; ret frame
  | None => throw (Undefined "back() of an empty vector")
  end.

Definition top : M t CallFrame :=
  checkNotEmpty ;;;
  s <- get ;;
  match last s with
  | Some frame => ret frame
  | None => throw (Undefined "back() of an empty vector")
  end.

End CallStack.

(** ** memory.cpp: linear memory *)

Module Memory.

Definition PAGE_SIZE : Z := 65536.
Definition MAX_PAGES : Z := 65536.

(** [data_] is a vector of bytes, [current_pages_] a [uint32_t]. *)
Record t : Type := mkMemory {
  data_ : list Z;
  limits_ : Limits;
  current_pages_ : Z
}.

(** [current_pages_ * PAGE_SIZE]: a product of two [uint32_t], hence
    itself a [uint32_t]; it is widened to [size_t] only afterwards. *)
Definition pages_to_bytes (pages : Z) : nat := Z.to_nat (wrap 32 (pages * PAGE_SIZE)).

(** [Memory::Memory(const Limits&)].  The object exists only when the
    constructor returns. *)
Definition Memory (limits : Limits) : outcome t :=
  let current_pages := min limits in
  if current_pages >? MAX_PAGES
  then Throw (MemoryError "Initial memory size exceeds maximum")
  else if has_max limits && (max limits >? MAX_PAGES)
  then Throw (MemoryError "Maximum memory size exceeds limit")
  else if has_max limits && (min limits >? max limits)
  then Throw (MemoryError "Initial size exceeds maximum size")
  else Ok (mkMemory (resize (pages_to_bytes current_pages) 0 []) limits current_pages).

Definition size (m : t) : Z := current_pages_ m.
Definition sizeInBytes (m : t) : Z := wrap 32 (current_pages_ m * PAGE_SIZE).

(** [int32_t Memory::grow(uint32_t delta)] *)
Definition grow (delta : Z) : M t Z :=
  m <- get ;;
  if delta =? 0 then ret (signed 32 (current_pages_ m))
  else
    let new_pages := wrap 32 (current_pages_ m + delta) in
    if new_pages <? current_pages_ m then ret (-1)
    else if new_pages >? MAX_PAGES then ret (-1)
    else if has_max (limits_ m) && (new_pages >? max (limits_ m)) then ret (-1)
    else
      let old_pages := signed 32 (current_pages_ m) in
      put (mkMemory (resize (pages_to_bytes new_pages) 0 (data_ m)) (limits_ m) new_pages) ;;;
      ret old_pages.

(** [std::memcpy(data_.data() + offset, src, n)] with [n = length src]. *)
Definition memcpy_to (offset : nat) (src : list Z) (data : list Z) : list Z :=
  take offset data ++ src ++ drop (offset + length src) data.

(** [void Memory::initialize(uint32_t offset, const std::vector<uint8_t>&)];
    the sum is computed in [size_t]. *)
Definition initialize (offset : Z) (data : list Z) : M t unit :=
  m <- get ;;
  if (length (data_ m) <? Z.to_nat offset + length data)%nat
  then throw (MemoryError "Data segment out of bounds")
  else put (mkMemory (memcpy_to (Z.to_nat offset) data (data_ m)) (limits_ m) (current_pages_ m)).

Definition clear : M t unit :=
  modify (fun m => mkMemory (replicate (length (data_ m)) 0) (limits_ m) (current_pages_ m)).

(** [checkAddress]: [address] is widened to [size_t] before the sum, so
    the second disjunct of the source never holds. *)
Definition checkAddress (address : Z) (size : nat) : M t unit :=
  m <- get ;;
  if (length (data_ m) <? Z.to_nat address + size)%nat
     || (Z.of_nat (Z.to_nat address + size) mod 2 ^ 64 <? address)
  then throw (MemoryError "Memory access out of bounds")
  else ret tt.

(** The [size] bytes of the object representation of [v] on the
    little-endian hosts the sources are built for. *)
Fixpoint le_bytes (size : nat) (v : Z) : list Z :=
  match size with
  | O => []
  | S n => (v mod 256) :: le_bytes n (v / 256)
  end.

Fixpoint le_value (bytes : list Z) : Z :=
  match bytes with
  | [] => 0
  | b :: rest => b + 256 * le_value rest
  end.

(** [template<typename T> T Memory::load(uint32_t address) const], with
    [size = sizeof(T)]; the result is the unsigned value of the bytes. *)
Definition load (size : nat) (address : Z) : M t Z :=
  checkAddress address size ;;;
  m <- get ;;
  ret (le_value (take size (drop (Z.to_nat address) (data_ m)))).

(** [template<typename T> void Memory::store(uint32_t address, T value)] *)
Definition store (size : nat) (address : Z) (v : Z) : M t unit :=
  checkAddress address size ;;;
  m <- get ;;
  put (mkMemory (memcpy_to (Z.to_nat address) (le_bytes size v) (data_ m))
                (limits_ m) (current_pages_ m)).

Definition storeI32 := store 4.
Definition storeI64 := store 8.
Definition storeF32 := store 4.
Definition storeF64 := store 8.
Definition storeU8 := store 1.
Definition storeU16 := store 2.
Definition storeU32 := store 4.
Definition storeU64 := store 8.

Definition loadU8 := load 1.
Definition loadU16 := load 2.
Definition loadU32 := load 4.
Definition loadU64 := load 8.
Definition loadI8 (address : Z) : M t Z := v <- load 1 address ;; ret (signed 8 v).
Definition loadI16 (address : Z) : M t Z := v <- load 2 address ;; ret (signed 16 v).
Definition loadI32 (address : Z) : M t Z := v <- load 4 address ;; ret (signed 32 v).
Definition loadI64 (address : Z) : M t Z := v <- load 8 address ;; ret (signed 64 v).
Definition loadF32 := load 4.
Definition loadF64 := load 8.

(** The invariant of the specification. *)
Definition size_invariant (m : t) : Prop :=
  Z.of_nat (length (data_ m)) = current_pages_ m * 65536.

(** What the constructor establishes about the page count. *)
Definition limits_ok (m : t) : Prop :=
  0 <= current_pages_ m <= MAX_PAGES /\
  (has_max (limits_ m) = true -> current_pages_ m <= max (limits_ m)).

End Memory.

(** ** decoder.cpp: the byte cursor and the LEB128 readers *)

Module Decoder.

Record t : Type := mkDecoder { buffer_ : list Z; position_ : nat }.

Definition formatError (msg : string) : M t exception :=
  d <- get ;; ret (DecoderError (Some (position_ d)) msg).

Definition ensureBytes (count : nat) : M t unit :=
  d <- get ;;
  if (length (buffer_ d) <? position_ d + count)%nat
  then throw (DecoderError None "Unexpected end of file")
  else ret tt.

Definition readByte : M t Z :=
  ensureBytes 1 ;;;
  d <- get ;;
  match buffer_ d !! position_ d with
  | Some b => put (mkDecoder (buffer_ d) (S (position_ d))) ;;; ret b
  | None => throw (Undefined "read past the end of the buffer")
  end.

(** Every turn of a reader's loop consumes one byte, so the bytes left
    (plus one) bound the number of turns. *)
Definition turns (d : t) : nat := S (length (buffer_ d) - position_ d).

(** The body of [while (true)] in [readVarUint32]; [result] and [shift]
    are the locals. *)
Fixpoint readVarUint32_loop (fuel : nat) (result shift : Z) : M t Z :=
  match fuel with
  | O => fun d => (Exhausted Turns, d)
  | S fuel' =>
      byte <- readByte ;;
      let result := Z.lor result (wrap 32 (Z.shiftl (Z.land byte 0x7F) shift)) in
      if Z.land byte 0x80 =? 0 then ret result
      else
        let shift := shift + 7 in
        if shift >=? 35
        then e <- formatError "Invalid LEB128 unsigned encoding (too many bytes)" ;; throw e
        else readVarUint32_loop fuel' result shift
  end.

Definition readVarUint32 : M t Z :=
  d <- get ;; readVarUint32_loop (turns d) 0 0.

Fixpoint readVarUint64_loop (fuel : nat) (result shift : Z) : M t Z :=
  match fuel with
  | O => fun d => (Exhausted Turns, d)
  | S fuel' =>
      byte <- readByte ;;
      let result := Z.lor result (wrap 64 (Z.shiftl (Z.land byte 0x7F) shift)) in
      if Z.land byte 0x80 =? 0 then ret result
      else
        let shift := shift + 7 in
        if shift >=? 70
        then e <- formatError "Invalid LEB128 unsigned encoding (too many bytes)" ;; throw e
        else readVarUint64_loop fuel' result shift
  end.

Definition readVarUint64 : M t Z :=
  d <- get ;; readVarUint64_loop (turns d) 0 0.

(** The [do ... while] of [readVarInt32]; it yields the locals [result]
    (as a 32-bit pattern), [shift] and [byte] at the exit of the loop.
    The shifted operand is an [int]: a shift by 32 or more has no meaning
    in C++ and is marked [Undefined] (the sixth byte of an encoding gets
    there, nothing checks the length); below 32 the bits that leave the
    pattern are lost. *)
Fixpoint readVarInt32_loop (fuel : nat) (result shift : Z) : M t (Z * Z * Z) :=
  match fuel with
  | O => fun d => (Exhausted Turns, d)
  | S fuel' =>
      byte <- readByte ;;
      if shift >=? 32 then throw (Undefined "shift count not below the width")
      else
        let result := Z.lor result (wrap 32 (Z.shiftl (Z.land byte 0x7F) shift)) in
        let shift := shift + 7 in
        if negb (Z.land byte 0x80 =? 0)
        then readVarInt32_loop fuel' result shift
        else ret (result, shift, byte)
  end.

Definition readVarInt32 : M t Z :=
  d <- get ;;
  r <- readVarInt32_loop (turns d) 0 0 ;;
  let '(result, shift, byte) := r in
  lift_outcome (sign_extend 32 result shift byte).

(** The same loop on an [int64_t] operand: a shift by 64 or more is
    [Undefined] (the eleventh byte gets there). *)
Fixpoint readVarInt64_loop (fuel : nat) (result shift : Z) : M t (Z * Z * Z) :=
  match fuel with
  | O => fun d => (Exhausted Turns, d)
  | S fuel' =>
      byte <- readByte ;;
      if shift >=? 64 then throw (Undefined "shift count not below the width")
      else
        let result := Z.lor result (wrap 64 (Z.shiftl (Z.land byte 0x7F) shift)) in
        let shift := shift + 7 in
        if negb (Z.land byte 0x80 =? 0)
        then readVarInt64_loop fuel' result shift
        else ret (result, shift, byte)
  end.

Definition readVarInt64 : M t Z :=
  d <- get ;;
  r <- readVarInt64_loop (turns d) 0 0 ;;
  let '(result, shift, byte) := r in
  lift_outcome (sign_extend 64 result shift byte).

End Decoder.

(** ** IEEE-754 values

    A [float] or [double] of the sources is a [spec_float] of the Standard
    Library: a signed zero, a signed infinity, NaN, or [(-1)^s * m * 2^e].
    The comparisons below are exact on the values, as IEEE-754 comparisons
    are, so they do not depend on a float being in canonical form. *)

Module Float.

(** Decoding of a binary32 pattern. *)
Definition f32_of_bits (b : Z) : spec_float :=
  let s := Z.testbit b 31 in
  let e := (b / 2 ^ 23) mod 2 ^ 8 in
  let f := b mod 2 ^ 23 in
  if e =? 255 then (if f =? 0 then S754_infinity s else S754_nan)
  else if e =? 0 then
    match f with
    | Zpos m => S754_finite s m (-149)
    | _ => S754_zero s
    end
  else
    match 2 ^ 23 + f with
    | Zpos m => S754_finite s m (e - 150)
    | _ => S754_zero s
    end.

(** Decoding of a binary64 pattern. *)
Definition f64_of_bits (b : Z) : spec_float :=
  let s := Z.testbit b 63 in
  let e := (b / 2 ^ 52) mod 2 ^ 11 in
  let f := b mod 2 ^ 52 in
  if e =? 2047 then (if f =? 0 then S754_infinity s else S754_nan)
  else if e =? 0 then
    match f with
    | Zpos m => S754_finite s m (-1074)
    | _ => S754_zero s
    end
  else
    match 2 ^ 52 + f with
    | Zpos m => S754_finite s m (e - 1075)
    | _ => S754_zero s
    end.

Definition isnan (a : spec_float) : bool :=
  match a with S754_nan => true | _ => false end.

Definition isinf (a : spec_float) : bool :=
  match a with S754_infinity _ => true | _ => false end.

(** The signed mantissa and the exponent of a zero or finite float. *)
Definition mantissa (a : spec_float) : Z :=
  match a with
  | S754_finite s m _ => if s then Zneg m else Zpos m
  | _ => 0
  end.

Definition exponent (a : spec_float) : Z :=
  match a with
  | S754_finite _ _ e => e
  | _ => 0
  end.

(** IEEE-754 comparison: [None] when unordered (a NaN is involved). *)
Definition compare (a b : spec_float) : option comparison :=
  match a, b with
  | S754_nan, _ | _, S754_nan => None
  | S754_infinity s1, S754_infinity s2 =>
      Some (match s1, s2 with
            | true, false => Lt
            | false, true => Gt
            | _, _ => Eq
            end)
  | S754_infinity s, _ => Some (if s then Lt else Gt)
  | _, S754_infinity s => Some (if s then Gt else Lt)
  | _, _ =>
      let e := Z.min (exponent a) (exponent b) in
      Some (mantissa a * 2 ^ (exponent a - e) ?= mantissa b * 2 ^ (exponent b - e))
  end.

Definition lt (a b : spec_float) : bool :=
  match compare a b with Some Lt => true | _ => false end.
Definition le (a b : spec_float) : bool :=
  match compare a b with Some Lt | Some Eq => true | _ => false end.
Definition ge (a b : spec_float) : bool :=
  match compare a b with Some Gt | Some Eq => true | _ => false end.

(** [std::trunc]: rounds toward zero to an integral value; zeros,
    infinities and NaN are returned as they are. *)
Definition trunc (a : spec_float) : spec_float :=
  match a with
  | S754_finite s m e =>
      if e <? 0 then
        match Z.shiftl (Zpos m) e with
        | Zpos m' => S754_finite s m' 0
        | _ => S754_zero s
        end
      else a
  | _ => a
  end.

(** The integer obtained from a zero or finite float by discarding the
    fractional part. *)
Definition to_Z (a : spec_float) : Z :=
  match a with
  | S754_finite s m e => if s then - Z.shiftl (Zpos m) e else Z.shiftl (Zpos m) e
  | _ => 0
  end.

(** [static_cast<I>(x)] from a floating type to an integer type [I] with
    values [lo .. hi]: the fractional part is discarded, and the
    behaviour is undefined when the result is not a value of [I]. *)
Definition static_cast_int (lo hi : Z) (x : spec_float) : outcome Z :=
  match x with
  | S754_nan | S754_infinity _ =>
      Throw (Undefined "float-to-integer conversion of a non-finite value")
  | _ =>
      let v := to_Z x in
      if (lo <=? v) && (v <=? hi) then Ok v
      else Throw (Undefined "float-to-integer conversion out of range")
  end.

(** A literal with an integer value. *)
Definition lit (v : Z) : spec_float :=
  match v with
  | Z0 => S754_zero false
  | Zpos m => S754_finite false m 0
  | Zneg m => S754_finite true m 0
  end.

End Float.

(** ** interpreter.cpp: float-to-integer conversions ([executeConversion])

    Each function is the body of one [case], from the popped float to the
    integer that is pushed ([int32_t] or [int64_t], signed). *)

Module Conv.
Import Float.

Definition cast (w : Z) (o : outcome Z) : outcome Z :=
  match o with
  | Ok v => Ok (signed w v)
  | Throw e => Throw e
  | Exhausted b => Exhausted b
  end.

Definition to_int32 (x : spec_float) : outcome Z := static_cast_int INT32_MIN INT32_MAX x.
Definition to_uint32 (x : spec_float) : outcome Z := static_cast_int 0 UINT32_MAX x.
Definition to_int64 (x : spec_float) : outcome Z := static_cast_int INT64_MIN INT64_MAX x.
Definition to_uint64 (x : spec_float) : outcome Z := static_cast_int 0 UINT64_MAX x.

(** *** Trapping conversions *)

Definition i32_trunc_f32_s (a : spec_float) : outcome Z :=
  if isnan a || isinf a then Throw (Trap "Invalid conversion: f32 to i32")
  else to_int32 (trunc a).

Definition i32_trunc_f32_u (a : spec_float) : outcome Z :=
  if isnan a || isinf a || lt a (lit 0) then Throw (Trap "Invalid conversion: f32 to u32")
  else cast 32 (to_uint32 (trunc a)).

Definition i32_trunc_f64_s (a : spec_float) : outcome Z :=
  if isnan a || isinf a then Throw (Trap "Invalid conversion: f64 to i32")
  else to_int32 (trunc a).

Definition i32_trunc_f64_u (a : spec_float) : outcome Z :=
  if isnan a || isinf a || lt a (lit 0) then Throw (Trap "Invalid conversion: f64 to u32")
  else cast 32 (to_uint32 (trunc a)).

Definition i64_trunc_f32_s (a : spec_float) : outcome Z :=
  if isnan a || isinf a then Throw (Trap "Invalid conversion: f32 to i64")
  else to_int64 (trunc a).

Definition i64_trunc_f32_u (a : spec_float) : outcome Z :=
  if isnan a || isinf a || lt a (lit 0) then Throw (Trap "Invalid conversion: f32 to u64")
  else cast 64 (to_uint64 (trunc a)).

Definition i64_trunc_f64_s (a : spec_float) : outcome Z :=
  if isnan a || isinf a then Throw (Trap "Invalid conversion: f64 to i64")
  else to_int64 (trunc a).

Definition i64_trunc_f64_u (a : spec_float) : outcome Z :=
  if isnan a || isinf a || lt a (lit 0) then Throw (Trap "Invalid conversion: f64 to u64")
  else cast 64 (to_uint64 (trunc a)).

(** *** Saturating conversions (prefix 0xFC)

    The float literals of the sources.  [-2147483649.0f],
    [-9223372036854775809.0f] and [-9223372036854775809.0] are not
    values of their type and denote the nearest one. *)
Definition lit_2147483648_0f : spec_float := lit 2147483648.
Definition lit_m2147483649_0f : spec_float := lit (-2147483648).
Definition lit_4294967296_0f : spec_float := lit 4294967296.
Definition lit_m1_0f : spec_float := lit (-1).
Definition lit_2147483648_0 : spec_float := lit 2147483648.
Definition lit_m2147483649_0 : spec_float := lit (-2147483649).
Definition lit_4294967296_0 : spec_float := lit 4294967296.
Definition lit_m1_0 : spec_float := lit (-1).
Definition lit_9223372036854775808_0f : spec_float := lit 9223372036854775808.
Definition lit_m9223372036854775809_0f : spec_float := lit (-9223372036854775808).
Definition lit_18446744073709551616_0f : spec_float := lit 18446744073709551616.
Definition lit_9223372036854775808_0 : spec_float := lit 9223372036854775808.
Definition lit_m9223372036854775809_0 : spec_float := lit (-9223372036854775808).
Definition lit_18446744073709551616_0 : spec_float := lit 18446744073709551616.

Definition i32_trunc_sat_f32_s (a : spec_float) : outcome Z :=
  if isnan a then Ok 0
  else if ge a lit_2147483648_0f then Ok INT32_MAX
  else if le a lit_m2147483649_0f then Ok INT32_MIN
  else to_int32 (trunc a).

Definition i32_trunc_sat_f32_u (a : spec_float) : outcome Z :=
  if isnan a then Ok 0
  else if ge a lit_4294967296_0f then Ok (-1)
  else if le a lit_m1_0f then Ok 0
  else cast 32 (to_uint32 (trunc a)).

Definition i32_trunc_sat_f64_s (a : spec_float) : outcome Z :=
  if isnan a then Ok 0
  else if ge a lit_2147483648_0 then Ok INT32_MAX
  else if le a lit_m2147483649_0 then Ok INT32_MIN
  else to_int32 (trunc a).

Definition i32_trunc_sat_f64_u (a : spec_float) : outcome Z :=
  if isnan a then Ok 0
  else if ge a lit_4294967296_0 then Ok (-1)
  else if le a lit_m1_0 then Ok 0
  else cast 32 (to_uint32 (trunc a)).

Definition i64_trunc_sat_f32_s (a : spec_float) : outcome Z :=
  if isnan a then Ok 0
  else if ge a lit_9223372036854775808_0f then Ok INT64_MAX
  else if le a lit_m9223372036854775809_0f then Ok INT64_MIN
  else to_int64 (trunc a).

Definition i64_trunc_sat_f32_u (a : spec_float) : outcome Z :=
  if isnan a then Ok 0
  else if ge a lit_18446744073709551616_0f then Ok (-1)
  else if le a lit_m1_0f then Ok 0
  else cast 64 (to_uint64 (trunc a)).

Definition i64_trunc_sat_f64_s (a : spec_float) : outcome Z :=
  if isnan a then Ok 0
  else if ge a lit_9223372036854775808_0 then Ok INT64_MAX
  else if le a lit_m9223372036854775809_0 then Ok INT64_MIN
  else to_int64 (trunc a).

Definition i64_trunc_sat_f64_u (a : spec_float) : outcome Z :=
  if isnan a then Ok 0
  else if ge a lit_18446744073709551616_0 then Ok (-1)
  else if le a lit_m1_0 then Ok 0
  else cast 64 (to_uint64 (trunc a)).

(** The saturation of the specification: NaN to 0, otherwise the
    truncation toward zero clamped to [lo .. hi]. *)
Definition saturate (lo hi : Z) (a : spec_float) : Z :=
  match a with
  | S754_nan => 0
  | S754_infinity s => if s then lo else hi
  | _ => Z.max lo (Z.min hi (to_Z a))
  end.

End Conv.

(** ** instructions.h: opcodes *)

(** Modelled from the spec: the header instructions.h ([enum class Opcode]
    and [struct MemArg]) is not among the sources.  The enumerators carry
    the WebAssembly MVP opcode bytes, which are also the literal bytes that
    [findMatchingEnd] and [skipInstructionOperands] scan for, and the range
    [0xA7 - 0xBF] that [executeInstruction] documents for conversions. *)
Module Opcode.
Definition UNREACHABLE : Z := 0x00.
Definition NOP : Z := 0x01.
Definition BLOCK : Z := 0x02.
Definition LOOP : Z := 0x03.
Definition IF : Z := 0x04.
Definition ELSE : Z := 0x05.
Definition END : Z := 0x0B.
Definition BR : Z := 0x0C.
Definition BR_IF : Z := 0x0D.
Definition BR_TABLE : Z := 0x0E.
Definition RETURN : Z := 0x0F.
Definition CALL : Z := 0x10.
Definition CALL_INDIRECT : Z := 0x11.
Definition DROP : Z := 0x1A.
Definition SELECT : Z := 0x1B.
Definition LOCAL_GET : Z := 0x20.
Definition LOCAL_SET : Z := 0x21.
Definition LOCAL_TEE : Z := 0x22.
Definition GLOBAL_GET : Z := 0x23.
Definition GLOBAL_SET : Z := 0x24.
Definition I32_LOAD : Z := 0x28.
Definition I64_STORE32 : Z := 0x3E.
Definition MEMORY_SIZE : Z := 0x3F.
Definition MEMORY_GROW : Z := 0x40.
Definition I32_CONST : Z := 0x41.
Definition I64_CONST : Z := 0x42.
Definition F32_CONST : Z := 0x43.
Definition F64_CONST : Z := 0x44.
Definition I32_EQZ : Z := 0x45.
Definition I32_WRAP_I64 : Z := 0xA7.
Definition I32_TRUNC_F32_S : Z := 0xA8.
Definition I32_TRUNC_F32_U : Z := 0xA9.
Definition I32_TRUNC_F64_S : Z := 0xAA.
Definition I32_TRUNC_F64_U : Z := 0xAB.
Definition I64_TRUNC_F32_S : Z := 0xAE.
Definition I64_TRUNC_F32_U : Z := 0xAF.
Definition I64_TRUNC_F64_S : Z := 0xB0.
Definition I64_TRUNC_F64_U : Z := 0xB1.
Definition F64_REINTERPRET_I64 : Z := 0xBF.
Definition PREFIX_FC : Z := 0xFC.

(** The enumerators named by [executeMemory] and by the name table of
    instructions.cpp. *)
Definition I64_LOAD : Z := 0x29.
Definition F32_LOAD : Z := 0x2A.
Definition F64_LOAD : Z := 0x2B.
Definition I32_LOAD8_S : Z := 0x2C.
Definition I32_LOAD8_U : Z := 0x2D.
Definition I32_LOAD16_S : Z := 0x2E.
Definition I32_LOAD16_U : Z := 0x2F.
Definition I64_LOAD8_S : Z := 0x30.
Definition I64_LOAD8_U : Z := 0x31.
Definition I64_LOAD16_S : Z := 0x32.
Definition I64_LOAD16_U : Z := 0x33.
Definition I64_LOAD32_S : Z := 0x34.
Definition I64_LOAD32_U : Z := 0x35.
Definition I32_STORE : Z := 0x36.
Definition I64_STORE : Z := 0x37.
Definition F32_STORE : Z := 0x38.
Definition F64_STORE : Z := 0x39.
Definition I32_STORE8 : Z := 0x3A.
Definition I32_STORE16 : Z := 0x3B.
Definition I64_STORE8 : Z := 0x3C.
Definition I64_STORE16 : Z := 0x3D.
Definition I32_EQ : Z := 0x46.
Definition I32_NE : Z := 0x47.
Definition I32_LT_S : Z := 0x48.
Definition I32_LT_U : Z := 0x49.
Definition I32_GT_S : Z := 0x4A.
Definition I32_GT_U : Z := 0x4B.
Definition I64_EQ : Z := 0x51.
Definition I32_ADD : Z := 0x6A.
Definition I32_SUB : Z := 0x6B.
Definition I32_MUL : Z := 0x6C.
Definition I32_DIV_S : Z := 0x6D.
Definition I32_DIV_U : Z := 0x6E.
Definition I64_ADD : Z := 0x7C.
Definition I64_SUB : Z := 0x7D.
Definition I64_MUL : Z := 0x7E.
Definition F32_ADD : Z := 0x92.
Definition F32_SUB : Z := 0x93.
Definition F32_MUL : Z := 0x94.
Definition F32_DIV : Z := 0x95.
Definition F64_ADD : Z := 0xA0.
Definition F64_SUB : Z := 0xA1.
Definition F64_MUL : Z := 0xA2.
Definition F64_DIV : Z := 0xA3.

(** instructions.cpp *)
Definition isControlFlowInstruction (opcode : Z) : bool :=
  (UNREACHABLE <=? opcode) && (opcode <=? CALL_INDIRECT).

Definition isMemoryInstruction (opcode : Z) : bool :=
  ((I32_LOAD <=? opcode) && (opcode <=? I64_STORE32))
  || (opcode =? MEMORY_SIZE) || (opcode =? MEMORY_GROW).

Definition isNumericInstruction (opcode : Z) : bool :=
  ((I32_CONST <=? opcode) && (opcode <=? F64_CONST))
  || ((I32_EQZ <=? opcode) && (opcode <=? F64_REINTERPRET_I64)).
End Opcode.

(** ** module.h: the decoded module

    Only the members that the modelled part of the interpreter reads are
    kept (tables, memories, exports, data segments and the start index are
    read by [instantiate] and [call] alone). *)

Record FuncType : Type := mkFuncType {
  params : list ValueType;
  results : list ValueType
}.

Record Function : Type := mkFunction {
  type_index : Z;
  locals : list ValueType;
  body : list Z
}.

Record Global : Type := mkGlobal {
  global_type : ValueType;
  is_mutable : bool;
  init_expr : list Z
}.

(** [enum class ExternalKind : uint8_t] *)
Definition ExternalKind : Type := Z.
Definition FUNCTION : ExternalKind := 0x00.

Record Import : Type := mkImport {
  module_name : string;
  field_name : string;
  kind : ExternalKind;
  import_type_index : Z
}.

Record ElementSegment : Type := mkElementSegment {
  table_index : Z;
  offset_expr : list Z;
  func_indices : list Z
}.

Record Module : Type := mkModule {
  types : list FuncType;
  functions : list Function;
  function_types : list Z;
  globals : list Global;
  imports : list Import;
  element_segments : list ElementSegment
}.

Definition getImportedFunctionCount (m : Module) : Z :=
  wrap 32 (Z.of_nat (length (filter (fun i => kind i = FUNCTION) (imports m)))).

(** [nullptr] is [None]. *)
Definition getFunctionType (m : Module) (func_index : Z) : option FuncType :=
  let import_count := getImportedFunctionCount m in
  if func_index <? import_count then None
  else
    let local_index := wrap 32 (func_index - import_count) in
    if Z.of_nat (length (function_types m)) <=? local_index then None
    else
      match function_types m !! Z.to_nat local_index with
      | None => None
      | Some type_index =>
          if Z.of_nat (length (types m)) <=? type_index then None
          else types m !! Z.to_nat type_index
      end.

(** ** interpreter.h: the state of an interpreter *)

Record Label : Type := mkLabel {
  target_pc : nat;
  stack_height : nat;
  is_loop : bool;
  arity : nat
}.

(** [code_] points into a body owned by the module; the model keeps the
    bytes it points to.  [wasi_imports_] is written by [instantiate] and
    never read, and is left out. *)
Record Interpreter : Type := mkInterpreter {
  module_ : Module;
  stack_ : Stack.t;
  call_stack_ : CallStack.t;
  memory_ : option Memory.t;
  globals_ : list TypedValue;
  locals_ : list TypedValue;
  code_ : list Z;
  code_size_ : nat;
  pc_ : nat;
  labels_ : list Label
}.

Definition set_stack_ (v : Stack.t) (st : Interpreter) : Interpreter :=
  mkInterpreter (module_ st) v (call_stack_ st) (memory_ st) (globals_ st)
                (locals_ st) (code_ st) (code_size_ st) (pc_ st) (labels_ st).
Definition set_globals_ (v : list TypedValue) (st : Interpreter) : Interpreter :=
  mkInterpreter (module_ st) (stack_ st) (call_stack_ st) (memory_ st) v
                (locals_ st) (code_ st) (code_size_ st) (pc_ st) (labels_ st).
Definition set_locals_ (v : list TypedValue) (st : Interpreter) : Interpreter :=
  mkInterpreter (module_ st) (stack_ st) (call_stack_ st) (memory_ st) (globals_ st)
                v (code_ st) (code_size_ st) (pc_ st) (labels_ st).
Definition set_code_ (v : list Z) (st : Interpreter) : Interpreter :=
  mkInterpreter (module_ st) (stack_ st) (call_stack_ st) (memory_ st) (globals_ st)
                (locals_ st) v (code_size_ st) (pc_ st) (labels_ st).
Definition set_code_size_ (v : nat) (st : Interpreter) : Interpreter :=
  mkInterpreter (module_ st) (stack_ st) (call_stack_ st) (memory_ st) (globals_ st)
                (locals_ st) (code_ st) v (pc_ st) (labels_ st).
Definition set_pc_ (v : nat) (st : Interpreter) : Interpreter :=
  mkInterpreter (module_ st) (stack_ st) (call_stack_ st) (memory_ st) (globals_ st)
                (locals_ st) (code_ st) (code_size_ st) v (labels_ st).
Definition set_labels_ (v : list Label) (st : Interpreter) : Interpreter :=
  mkInterpreter (module_ st) (stack_ st) (call_stack_ st) (memory_ st) (globals_ st)
                (locals_ st) (code_ st) (code_size_ st) (pc_ st) v.

(** Runs a computation of the operand stack on the member [stack_]. *)
Definition on_stack {A} (c : M Stack.t A) : M Interpreter A :=
  fun st => let '(r, s) := c (stack_ st) in (r, set_stack_ s st).

(** ** interpreter.cpp: immediates, variables, labels *)

Definition to_string (z : Z) : string :=
  DecimalString.NilZero.string_of_int (Z.to_int z).

(** [code_[pc]] *)
Definition code_byte (code : list Z) (pc : nat) : Z := default 0 (code !! pc).

Definition readByte : M Interpreter Z :=
  st <- get ;;
  if (code_size_ st <=? pc_ st)%nat
  then throw (InterpreterError "Unexpected end of bytecode")
  else
    match code_ st !! pc_ st with
    | Some b => put (set_pc_ (S (pc_ st)) st) ;;; ret b
    | None => throw (Undefined "read outside the bytecode")
    end.

(** Every turn of a reader's loop consumes one byte of the bytecode. *)
Definition code_turns (st : Interpreter) : nat := S (code_size_ st - pc_ st).

(** [Interpreter::readVarUint32]: the loop has no bound on [shift].  The
    shifted operand is an [int]: a shift by 32 or more has no meaning in
    C++ and is marked [Undefined] (the sixth byte of an immediate gets
    there); below 32 the bits that leave the pattern are lost. *)
Fixpoint readVarUint32_loop (fuel : nat) (result shift : Z) : M Interpreter Z :=
  match fuel with
  | O => fun st => (Exhausted Turns, st)
  | S fuel' =>
      byte <- readByte ;;
      if shift >=? 32 then throw (Undefined "shift count not below the width")
      else
        let result := Z.lor result (wrap 32 (Z.shiftl (Z.land byte 0x7F) shift)) in
        if Z.land byte 0x80 =? 0 then ret result
        else readVarUint32_loop fuel' result (shift + 7)
  end.

Definition readVarUint32 : M Interpreter Z :=
  st <- get ;; readVarUint32_loop (code_turns st) 0 0.

(** The [do ... while] shared in shape by [readVarInt32] ([w = 32], the
    shifted operand an [int]) and [readVarInt64] ([w = 64], an
    [int64_t]); a shift by [w] or more is [Undefined]. *)
Fixpoint readVarInt_loop (w : Z) (fuel : nat) (result shift : Z) : M Interpreter (Z * Z * Z) :=
  match fuel with
  | O => fun st => (Exhausted Turns, st)
  | S fuel' =>
      byte <- readByte ;;
      if shift >=? w then throw (Undefined "shift count not below the width")
      else
        let result := Z.lor result (wrap w (Z.shiftl (Z.land byte 0x7F) shift)) in
        let shift := shift + 7 in
        if negb (Z.land byte 0x80 =? 0)
        then readVarInt_loop w fuel' result shift
        else ret (result, shift, byte)
  end.

Definition readVarInt (w : Z) : M Interpreter Z :=
  st <- get ;;
  r <- readVarInt_loop w (code_turns st) 0 0 ;;
  let '(result, shift, byte) := r in
  lift_outcome (sign_extend w result shift byte).

Definition readVarInt32 : M Interpreter Z := readVarInt 32.
Definition readVarInt64 : M Interpreter Z := readVarInt 64.

(** [readF32] ([n = 4]) and [readF64] ([n = 8]): the bit pattern of the
    next [n] bytes. *)
Definition readFloat (n : nat) : M Interpreter Z :=
  st <- get ;;
  if (code_size_ st <? pc_ st + n)%nat
  then throw (InterpreterError "Unexpected end of bytecode")
  else
    put (set_pc_ (pc_ st + n) st) ;;;
    ret (Memory.le_value (take n (drop (pc_ st) (code_ st)))).

Definition readF32 : M Interpreter Z := readFloat 4.
Definition readF64 : M Interpreter Z := readFloat 8.

Definition setLocal (index : Z) (v : TypedValue) : M Interpreter unit :=
  st <- get ;;
  if Z.of_nat (length (locals_ st)) <=? index
  then throw (InterpreterError "Local index out of bounds")
  else put (set_locals_ (<[Z.to_nat index := v]> (locals_ st)) st).

Definition getLocal (index : Z) : M Interpreter TypedValue :=
  st <- get ;;
  if Z.of_nat (length (locals_ st)) <=? index
  then throw (InterpreterError "Local index out of bounds")
  else
    match locals_ st !! Z.to_nat index with
    | Some v => ret v
    | None => throw (Undefined "locals_[index] out of range")
    end.

Definition setGlobal (index : Z) (v : TypedValue) : M Interpreter unit :=
  st <- get ;;
  if Z.of_nat (length (globals_ st)) <=? index
  then throw (InterpreterError "Global index out of bounds")
  else
    match globals (module_ st) !! Z.to_nat index with
    | None => throw (Undefined "module_->globals[index] out of range")
    | Some g =>
        if negb (is_mutable g)
        then throw (InterpreterError "Attempting to modify immutable global")
        else put (set_globals_ (<[Z.to_nat index := v]> (globals_ st)) st)
    end.

Definition getGlobal (index : Z) : M Interpreter TypedValue :=
  st <- get ;;
  if Z.of_nat (length (globals_ st)) <=? index
  then throw (InterpreterError "Global index out of bounds")
  else
    match globals_ st !! Z.to_nat index with
    | Some v => ret v
    | None => throw (Undefined "globals_[index] out of range")
    end.

Definition pushLabel (target_pc stack_height : nat) (is_loop : bool) (arity : nat)
  : M Interpreter unit :=
  modify (fun st => set_labels_ (labels_ st ++ [mkLabel target_pc stack_height is_loop arity]) st).

Definition popLabel : M Interpreter unit :=
  modify (fun st =>
    if bool_decide (labels_ st = []) then st
    else set_labels_ (removelast (labels_ st)) st).

(** [while (stack_.size() > target_height) stack_.pop();] *)
Fixpoint unwind (fuel : nat) (target_height : nat) : M Stack.t unit :=
  match fuel with
  | O => fun s => (Exhausted Turns, s)
  | S fuel' =>
      s <- get ;;
      if (target_height <? Stack.size s)%nat
      then Stack.pop ;;; unwind fuel' target_height
      else ret tt
  end.

Definition branch (depth : Z) : M Interpreter unit :=
  st <- get ;;
  if Z.of_nat (length (labels_ st)) <=? depth
  then throw (InterpreterError "Branch depth out of range")
  else
    let label_index := (length (labels_ st) - 1 - Z.to_nat depth)%nat in
    match labels_ st !! label_index with
    | None => throw (Undefined "labels_[label_index] out of range")
    | Some target_label =>
        modify (set_pc_ (target_pc target_label)) ;;;
        let target_height := (stack_height target_label + arity target_label)%nat in
        on_stack (unwind (S (length (stack_ st))) target_height) ;;;
        if negb (is_loop target_label)
        then modify (fun st => set_labels_ (take label_index (labels_ st)) st)
        else modify (fun st => set_labels_ (take (label_index + 1) (labels_ st)) st)
    end.

(** ** interpreter.cpp: the forward scans for [end] and [else] *)

(** [while (pc < code_size_ && (code_[pc] & 0x80)) pc++;]  At most
    [code_size - pc] turns are possible, which is the fuel given below. *)
Fixpoint skip_continuation (fuel : nat) (code : list Z) (code_size pc : nat) : nat :=
  match fuel with
  | O => pc
  | S fuel' =>
      if (pc <? code_size)%nat && negb (Z.land (code_byte code pc) 0x80 =? 0)
      then skip_continuation fuel' code code_size (S pc)
      else pc
  end.

(** The loop above followed by [if (pc < code_size_) pc++;] *)
Definition skip_leb (code : list Z) (code_size pc : nat) : nat :=
  let pc := skip_continuation (code_size - pc) code code_size pc in
  if (pc <? code_size)%nat then S pc else pc.

(** A pure case body followed by another. *)
Definition and_then {A B} (o : outcome A) (k : A -> outcome B) : outcome B :=
  match o with
  | Ok a => k a
  | Throw e => Throw e
  | Exhausted b => Exhausted b
  end.

Definition undefined_shift {A} : outcome A :=
  Throw (Undefined "shift count not below the width").

(** The label count of [br_table]: the locals [pc], [count], [shift]
    after the [while].  The shifted operand is an [int]; a shift by 32 or
    more is [Undefined]. *)
Fixpoint br_table_count (fuel : nat) (code : list Z) (code_size pc : nat) (count shift : Z)
  : outcome (nat * Z * Z) :=
  match fuel with
  | O => Ok (pc, count, shift)
  | S fuel' =>
      if (pc <? code_size)%nat && negb (Z.land (code_byte code pc) 0x80 =? 0)
      then
        if shift >=? 32 then undefined_shift
        else br_table_count fuel' code code_size (S pc)
               (Z.lor count (wrap 32 (Z.shiftl (Z.land (code_byte code pc) 0x7F) shift)))
               (shift + 7)
      else Ok (pc, count, shift)
  end.

(** [for (uint32_t i = 0; i <= count && pc < code_size_; i++)] with one
    LEB128 skipped per turn; every turn advances [pc]. *)
Fixpoint skip_labels (fuel : nat) (code : list Z) (code_size : nat) (i count : Z) (pc : nat)
  : nat :=
  match fuel with
  | O => pc
  | S fuel' =>
      if (i <=? count) && (pc <? code_size)%nat
      then skip_labels fuel' code code_size (wrap 32 (i + 1)) count (skip_leb code code_size pc)
      else pc
  end.

(** [skipInstructionOperands(opcode, pc)]; the result is the new [pc],
    unless the label count of a [br_table] is shifted out of meaning. *)
Definition skipInstructionOperands (code : list Z) (code_size : nat) (opcode : Z) (pc : nat)
  : outcome nat :=
  if (opcode =? 0x0C) || (opcode =? 0x0D) || (opcode =? 0x10) ||
     (opcode =? 0x20) || (opcode =? 0x21) || (opcode =? 0x22) ||
     (opcode =? 0x23) || (opcode =? 0x24)
  then Ok (skip_leb code code_size pc)
  else if opcode =? 0x0E then
    and_then (br_table_count (code_size - pc) code code_size pc 0 0)
      (fun '(pc, count, shift) =>
         and_then
           (if (pc <? code_size)%nat
            then
              if shift >=? 32 then undefined_shift
              else Ok (S pc,
                       Z.lor count (wrap 32 (Z.shiftl (Z.land (code_byte code pc) 0x7F) shift)))
            else Ok (pc, count))
           (fun '(pc, count) => Ok (skip_labels (code_size - pc) code code_size 0 count pc)))
  else if (opcode =? 0x41) || (opcode =? 0x42) then Ok (skip_leb code code_size pc)
  else if opcode =? 0x43 then Ok (pc + 4)%nat
  else if opcode =? 0x44 then Ok (pc + 8)%nat
  else if ((0x28 <=? opcode) && (opcode <=? 0x3E)) || (opcode =? 0x3F) || (opcode =? 0x40)
  then
    let pc := if (pc <? code_size)%nat then skip_leb code code_size pc else pc in
    Ok (if (pc <? code_size)%nat then skip_leb code code_size pc else pc)
  else Ok pc.

Definition no_matching_end {A} : outcome A :=
  Throw (InterpreterError "No matching END found for block/loop").

(** [findMatchingEnd]: the [throw] behind the loop is reached when the
    loop runs off the bytecode.  Every turn advances [pc], so
    [code_size - pc] turns are all there can be. *)
Fixpoint findMatchingEnd_loop (fuel : nat) (code : list Z) (code_size pc : nat) (depth : Z)
  : outcome nat :=
  match fuel with
  | O => no_matching_end
  | S fuel' =>
      if (pc <? code_size)%nat then
        let opcode := code_byte code pc in
        let pc := S pc in
        if (opcode =? 0x02) || (opcode =? 0x03) || (opcode =? 0x04) then
          findMatchingEnd_loop fuel' code code_size
            (if (pc <? code_size)%nat then S pc else pc) (depth + 1)
        else if opcode =? 0x0B then
          let depth := depth - 1 in
          if depth =? 0 then Ok pc
          else findMatchingEnd_loop fuel' code code_size pc depth
        else
          and_then (skipInstructionOperands code code_size opcode pc)
            (fun pc => findMatchingEnd_loop fuel' code code_size pc depth)
      else no_matching_end
  end.

Definition findMatchingEnd (start_pc : nat) : M Interpreter nat :=
  st <- get ;;
  lift_outcome
    (findMatchingEnd_loop (code_size_ st - start_pc) (code_ st) (code_size_ st) start_pc 1).

Definition no_matching_end_for_if {A} : outcome A :=
  Throw (InterpreterError "No matching END found for if").

(** [findMatchingElseAndEnd]: the result and the out-parameter [else_pc]. *)
Fixpoint findMatchingElseAndEnd_loop (fuel : nat) (code : list Z) (code_size pc : nat)
    (depth : Z) (else_pc : nat) : outcome (nat * nat) :=
  match fuel with
  | O => no_matching_end_for_if
  | S fuel' =>
      if (pc <? code_size)%nat then
        let opcode := code_byte code pc in
        let pc := S pc in
        if (opcode =? 0x02) || (opcode =? 0x03) || (opcode =? 0x04) then
          findMatchingElseAndEnd_loop fuel' code code_size
            (if (pc <? code_size)%nat then S pc else pc) (depth + 1) else_pc
        else if (opcode =? 0x05) && (depth =? 1) then
          findMatchingElseAndEnd_loop fuel' code code_size pc depth pc
        else if opcode =? 0x0B then
          let depth := depth - 1 in
          if depth =? 0 then Ok (pc, else_pc)
          else findMatchingElseAndEnd_loop fuel' code code_size pc depth else_pc
        else
          and_then (skipInstructionOperands code code_size opcode pc)
            (fun pc => findMatchingElseAndEnd_loop fuel' code code_size pc depth else_pc)
      else no_matching_end_for_if
  end.

Definition findMatchingElseAndEnd (start_pc : nat) : M Interpreter (nat * nat) :=
  st <- get ;;
  lift_outcome
    (findMatchingElseAndEnd_loop (code_size_ st - start_pc) (code_ st) (code_size_ st)
       start_pc 1 0%nat).

(** ** interpreter.cpp: parametric, variable and constant instructions *)

Definition executeParametric (opcode : Z) : M Interpreter unit :=
  if opcode =? Opcode.DROP then
    _ <- on_stack Stack.pop ;; ret tt
  else if opcode =? Opcode.SELECT then
    c <- on_stack Stack.popI32 ;;
    val2 <- on_stack Stack.pop ;;
    val1 <- on_stack Stack.pop ;;
    on_stack (Stack.push (if negb (c =? 0) then val1 else val2))
  else throw (InterpreterError "Parametric instruction not implemented").

Definition executeVariable (opcode : Z) : M Interpreter unit :=
  index <- readVarUint32 ;;
  if opcode =? Opcode.LOCAL_GET then
    v <- getLocal index ;; on_stack (Stack.push v)
  else if opcode =? Opcode.LOCAL_SET then
    v <- on_stack Stack.pop ;; setLocal index v
  else if opcode =? Opcode.LOCAL_TEE then
    val <- on_stack Stack.peek ;; setLocal index val
  else if opcode =? Opcode.GLOBAL_GET then
    v <- getGlobal index ;; on_stack (Stack.push v)
  else if opcode =? Opcode.GLOBAL_SET then
    v <- on_stack Stack.pop ;; setGlobal index v
  else throw (InterpreterError "Variable instruction not implemented").

Definition executeNumericConst (opcode : Z) : M Interpreter unit :=
  if opcode =? Opcode.I32_CONST then
    v <- readVarInt32 ;; on_stack (Stack.pushI32 v)
  else if opcode =? Opcode.I64_CONST then
    v <- readVarInt64 ;; on_stack (Stack.pushI64 v)
  else if opcode =? Opcode.F32_CONST then
    v <- readF32 ;; on_stack (Stack.pushF32 v)
  else if opcode =? Opcode.F64_CONST then
    v <- readF64 ;; on_stack (Stack.pushF64 v)
  else throw (InterpreterError "Numeric const instruction not implemented").

(** ** interpreter.cpp: conversions, control flow, calls

    The instruction categories that no property below depends on (memory
    access, numeric operators, the conversions that produce floats or
    reinterpret bits) and the WASI host call are parameters of the model. *)

Section Executor.

Variable executeMemory : Z -> M Interpreter unit.
Variable executeNumeric : Z -> M Interpreter unit.
Variable executeConversionOther : Z -> M Interpreter unit.
Variable executeWASIFdWrite : M Interpreter unit.

(** One [case] of a float-to-integer conversion: typed pop, the body of
    the case, typed push. *)
Definition convert (pop : M Stack.t Z) (decode : Z -> spec_float)
    (f : spec_float -> outcome Z) (push : Z -> M Stack.t unit) : M Interpreter unit :=
  a <- on_stack pop ;;
  v <- lift_outcome (f (decode a)) ;;
  on_stack (push v).

Definition f32_to_i32 f := convert Stack.popF32 Float.f32_of_bits f Stack.pushI32.
Definition f64_to_i32 f := convert Stack.popF64 Float.f64_of_bits f Stack.pushI32.
Definition f32_to_i64 f := convert Stack.popF32 Float.f32_of_bits f Stack.pushI64.
Definition f64_to_i64 f := convert Stack.popF64 Float.f64_of_bits f Stack.pushI64.

Definition executeConversion (opcode : Z) : M Interpreter unit :=
  if opcode =? Opcode.I32_TRUNC_F32_S then f32_to_i32 Conv.i32_trunc_f32_s
  else if opcode =? Opcode.I32_TRUNC_F32_U then f32_to_i32 Conv.i32_trunc_f32_u
  else if opcode =? Opcode.I32_TRUNC_F64_S then f64_to_i32 Conv.i32_trunc_f64_s
  else if opcode =? Opcode.I32_TRUNC_F64_U then f64_to_i32 Conv.i32_trunc_f64_u
  else if opcode =? Opcode.I64_TRUNC_F32_S then f32_to_i64 Conv.i64_trunc_f32_s
  else if opcode =? Opcode.I64_TRUNC_F32_U then f32_to_i64 Conv.i64_trunc_f32_u
  else if opcode =? Opcode.I64_TRUNC_F64_S then f64_to_i64 Conv.i64_trunc_f64_s
  else if opcode =? Opcode.I64_TRUNC_F64_U then f64_to_i64 Conv.i64_trunc_f64_u
  else if opcode =? Opcode.PREFIX_FC then
    sub_opcode <- readByte ;;
    if sub_opcode =? 0x00 then f32_to_i32 Conv.i32_trunc_sat_f32_s
    else if sub_opcode =? 0x01 then f32_to_i32 Conv.i32_trunc_sat_f32_u
    else if sub_opcode =? 0x02 then f64_to_i32 Conv.i32_trunc_sat_f64_s
    else if sub_opcode =? 0x03 then f64_to_i32 Conv.i32_trunc_sat_f64_u
    else if sub_opcode =? 0x04 then f32_to_i64 Conv.i64_trunc_sat_f32_s
    else if sub_opcode =? 0x05 then f32_to_i64 Conv.i64_trunc_sat_f32_u
    else if sub_opcode =? 0x06 then f64_to_i64 Conv.i64_trunc_sat_f64_s
    else if sub_opcode =? 0x07 then f64_to_i64 Conv.i64_trunc_sat_f64_u
    else throw (InterpreterError ("Unknown 0xFC sub-opcode: " ++ to_string sub_opcode)%string)
  else executeConversionOther opcode.

(** The labels of [br_table]: [label_count] immediates. *)
Fixpoint read_labels (label_count : nat) : M Interpreter (list Z) :=
  match label_count with
  | O => ret []
  | S n => l <- readVarUint32 ;; rest <- read_labels n ;; ret (l :: rest)
  end.

(** The offset of an element segment as [call_indirect] evaluates it:
    the [while] over the bytes of an [i32.const].  The shifted operand is
    an [int]; a shift by 32 or more is [Undefined]. *)
Fixpoint elem_offset_loop (fuel : nat) (expr : list Z) (pos : nat) (value shift : Z)
  : outcome Z :=
  match fuel with
  | O => Ok value
  | S fuel' =>
      if (pos <? length expr - 1)%nat then
        let byte := code_byte expr pos in
        if shift >=? 32 then undefined_shift
        else
          let value := Z.lor value (wrap 32 (Z.shiftl (Z.land byte 0x7F) shift)) in
          if Z.land byte 0x80 =? 0 then Ok value
          else elem_offset_loop fuel' expr (S pos) value (shift + 7)
      else Ok value
  end.

Definition elem_offset (elem : ElementSegment) : outcome Z :=
  match offset_expr elem with
  | b :: _ =>
      if b =? 0x41 then elem_offset_loop (length (offset_expr elem)) (offset_expr elem) 1 0 0
      else Ok 0
  | [] => Ok 0
  end.

(** The search through the element segments; first match wins. *)
Fixpoint find_element (segments : list ElementSegment) (elem_index : Z)
  : outcome (option Z) :=
  match segments with
  | [] => Ok None
  | elem :: rest =>
      if table_index elem =? 0 then
        and_then (elem_offset elem)
          (fun offset =>
             let actual_index := wrap 32 (elem_index - offset) in
             if actual_index <? Z.of_nat (length (func_indices elem))
             then Ok (func_indices elem !! Z.to_nat actual_index)
             else find_element rest elem_index)
      else find_element rest elem_index
  end.

(** The element-wise comparison loops over two type vectors of equal
    length throw at the first difference. *)
Definition same_types (a b : list ValueType) : bool := bool_decide (a = b).

(** Save, call, restore: the common tail of [CALL] and [CALL_INDIRECT]. *)
Definition call_and_restore (execute : Z -> M Interpreter unit) (func_index : Z)
  : M Interpreter unit :=
  st <- get ;;
  let return_pc := pc_ st in
  let return_code := code_ st in
  let return_code_size := code_size_ st in
  let return_locals := locals_ st in
  let return_labels := labels_ st in
  execute func_index ;;;
  modify (set_pc_ return_pc) ;;;
  modify (set_code_ return_code) ;;;
  modify (set_code_size_ return_code_size) ;;;
  modify (set_locals_ return_locals) ;;;
  modify (set_labels_ return_labels).

(** [executeControlFlow]; [execute] is the function it calls back for
    [CALL] and [CALL_INDIRECT].  [opcodeToString] has no name for the
    control-flow opcodes that fall to the [default] case. *)
Definition executeControlFlow (execute : Z -> M Interpreter unit) (opcode : Z)
  : M Interpreter unit :=
  if opcode =? Opcode.NOP then ret tt
  else if opcode =? Opcode.UNREACHABLE then throw (Trap "Unreachable instruction executed")
  else if opcode =? Opcode.BLOCK then
    block_type <- readByte ;;
    let arity := if block_type =? 0x40 then 0%nat else 1%nat in
    st <- get ;;
    let stack_height := Stack.size (stack_ st) in
    end_pc <- findMatchingEnd (pc_ st) ;;
    pushLabel end_pc stack_height false arity
  else if opcode =? Opcode.LOOP then
    loop_type <- readByte ;;
    st <- get ;;
    pushLabel (pc_ st) (Stack.size (stack_ st)) true 0
  else if opcode =? Opcode.IF then
    result_type <- readByte ;;
    let arity := if result_type =? 0x40 then 0%nat else 1%nat in
    condition <- on_stack Stack.popI32 ;;
    st <- get ;;
    let stack_height := Stack.size (stack_ st) in
    r <- findMatchingElseAndEnd (pc_ st) ;;
    let '(end_pc, else_pc) := r in
    pushLabel end_pc stack_height false arity ;;;
    if condition =? 0 then
      if (0 <? else_pc)%nat then modify (set_pc_ else_pc)
      else modify (set_pc_ end_pc) ;;; popLabel
    else ret tt
  else if opcode =? Opcode.ELSE then
    st <- get ;;
    match last (labels_ st) with
    | None => throw (InterpreterError "ELSE without matching IF")
    | Some label => modify (set_pc_ (target_pc label)) ;;; popLabel
    end
  else if opcode =? Opcode.END then
    st <- get ;;
    if negb (bool_decide (labels_ st = [])) then popLabel else ret tt
  else if opcode =? Opcode.BR then
    depth <- readVarUint32 ;;
    branch depth
  else if opcode =? Opcode.BR_IF then
    depth <- readVarUint32 ;;
    condition <- on_stack Stack.popI32 ;;
    if negb (condition =? 0) then branch depth else ret tt
  else if opcode =? Opcode.BR_TABLE then
    label_count <- readVarUint32 ;;
    labels <- read_labels (Z.to_nat label_count) ;;
    default_label <- readVarUint32 ;;
    index <- on_stack Stack.popI32 ;;
    let selected_depth :=
      if (index <? 0) || (label_count <=? wrap 32 index) then default_label
      else default 0 (labels !! Z.to_nat index) in
    branch selected_depth
  else if opcode =? Opcode.RETURN then
    st <- get ;;
    modify (set_pc_ (code_size_ st)) ;;;
    modify (set_labels_ [])
  else if opcode =? Opcode.CALL then
    func_index <- readVarUint32 ;;
    call_and_restore execute func_index
  else if opcode =? Opcode.CALL_INDIRECT then
    type_index <- readVarUint32 ;;
    reserved <- readByte ;;
    if negb (reserved =? 0x00)
    then throw (InterpreterError "Invalid table index in call_indirect")
    else
      elem_index <- on_stack Stack.popI32 ;;
      if elem_index <? 0 then throw (Trap "Undefined element in call_indirect")
      else
        st <- get ;;
        found <- lift_outcome (find_element (element_segments (module_ st)) elem_index) ;;
        match found with
        | None => throw (Trap "Undefined element in call_indirect")
        | Some func_index =>
            match getFunctionType (module_ st) func_index,
                  types (module_ st) !! Z.to_nat type_index with
            | Some func_type, Some expected_type =>
                if negb ((length (params func_type) =? length (params expected_type))%nat
                         && (length (results func_type) =? length (results expected_type))%nat)
                then throw (Trap "Indirect call signature mismatch")
                else if negb (same_types (params func_type) (params expected_type))
                then throw (Trap "Indirect call parameter type mismatch")
                else if negb (same_types (results func_type) (results expected_type))
                then throw (Trap "Indirect call result type mismatch")
                else call_and_restore execute func_index
            | _, _ => throw (Trap "Type mismatch in call_indirect")
            end
        end
  else throw (InterpreterError "Control flow instruction not implemented: unknown").

Definition executeInstruction (execute : Z -> M Interpreter unit) : M Interpreter unit :=
  st <- get ;;
  if (code_size_ st <=? pc_ st)%nat
  then throw (InterpreterError "Program counter out of bounds")
  else
    let opcode := code_byte (code_ st) (pc_ st) in
    put (set_pc_ (S (pc_ st)) st) ;;;
    if Opcode.isControlFlowInstruction opcode then executeControlFlow execute opcode
    else if (opcode =? Opcode.DROP) || (opcode =? Opcode.SELECT) then executeParametric opcode
    else if (Opcode.LOCAL_GET <=? opcode) && (opcode <=? Opcode.GLOBAL_SET)
    then executeVariable opcode
    else if Opcode.isMemoryInstruction opcode then executeMemory opcode
    else if (Opcode.I32_CONST <=? opcode) && (opcode <=? Opcode.F64_CONST)
    then executeNumericConst opcode
    else if (Opcode.I32_WRAP_I64 <=? opcode) && (opcode <=? Opcode.F64_REINTERPRET_I64)
    then executeConversion opcode
    else if opcode =? 0xFC then executeConversion opcode
    else if Opcode.isNumericInstruction opcode then executeNumeric opcode
    else throw (InterpreterError ("Unknown or unimplemented opcode: " ++ to_string opcode)%string).

(** [for (size_t i = param_count; i > 0; i--) locals_[i - 1] = stack_.pop();] *)
Fixpoint pop_params (i : nat) : M Interpreter unit :=
  match i with
  | O => ret tt
  | S j =>
      v <- on_stack Stack.pop ;;
      modify (fun st => set_locals_ (<[j := v]> (locals_ st)) st) ;;;
      pop_params j
  end.

(** The zero-initialisation of the declared locals, from index [i] on. *)
Fixpoint init_locals (param_count i : nat) (tys : list ValueType) : M Interpreter unit :=
  match tys with
  | [] => ret tt
  | ty :: rest =>
      modify (fun st => set_locals_ (<[(param_count + i)%nat := mkTypedValue ty 0]> (locals_ st)) st) ;;;
      init_locals param_count (S i) rest
  end.

(** [while (pc_ < code_size_) executeInstruction();] with a budget of
    [steps] turns. *)
Fixpoint run (steps : nat) (body : M Interpreter unit) : M Interpreter unit :=
  fun st =>
    if (pc_ st <? code_size_ st)%nat then
      match steps with
      | O => (Exhausted Turns, st)
      | S n => (body ;;; run n body) st
      end
    else (Ok tt, st).

(** The body of [Interpreter::execute]; [callee] stands for the function
    itself where the [CALL] and [CALL_INDIRECT] cases call it. *)
Definition execute_activation (callee : Z -> M Interpreter unit) (steps : nat)
    (func_index : Z) : M Interpreter unit :=
  st <- get ;;
  let import_count := getImportedFunctionCount (module_ st) in
  if func_index <? import_count then
    match (if func_index <? Z.of_nat (length (imports (module_ st)))
           then imports (module_ st) !! Z.to_nat func_index else None) with
    | Some import =>
        if (kind import =? FUNCTION)
           && String.eqb (module_name import) "wasi_snapshot_preview1"
           && String.eqb (field_name import) "fd_write"
        then executeWASIFdWrite
        else throw (InterpreterError "Cannot execute imported function")
    | None => throw (InterpreterError "Cannot execute imported function")
    end
  else
    let local_index := wrap 32 (func_index - import_count) in
    if Z.of_nat (length (functions (module_ st))) <=? local_index
    then throw (InterpreterError "Invalid function index")
    else
      match functions (module_ st) !! Z.to_nat local_index with
      | None => throw (Undefined "functions[local_index] out of range")
      | Some func =>
          match getFunctionType (module_ st) func_index with
          | None => throw (InterpreterError "Invalid function type")
          | Some func_type =>
              let param_count := length (params func_type) in
              let local_count := length (locals func) in
              modify (set_locals_ (replicate (param_count + local_count) TypedValue_default)) ;;;
              pop_params param_count ;;;
              init_locals param_count 0 (locals func) ;;;
              modify (set_code_ (body func)) ;;;
              modify (set_code_size_ (length (body func))) ;;;
              modify (set_pc_ 0%nat) ;;;
              modify (set_labels_ []) ;;;
              run steps (executeInstruction callee)
          end
      end.

(** [Interpreter::execute].  The native recursion of the function is
    bounded in the model by [depth], the number of nested activations it
    may open; [steps] is the budget of each activation's instruction
    loop. *)
Fixpoint execute (depth steps : nat) (func_index : Z) {struct depth} : M Interpreter unit :=
  match depth with
  | O => fun st => (Exhausted Nesting, st)
  | S depth' => execute_activation (execute depth' steps) steps func_index
  end.

End Executor.

(** ** Predicates and instances used in the statements *)

(** What a typed pop does, by the shape of the stack: [tag] is the tag it
    asserts and [view] the member of the payload it returns. *)
Definition typed_pop_spec (pop : M Stack.t Z) (tag : ValueType) (view : Value -> Z) : Prop :=
  pop [] = (Throw (StackError "Stack underflow"), []) /\
  forall (s : Stack.t) (v : TypedValue),
    pop (s ++ [v]) =
      if type v =? tag then (Ok (view (value v)), s)
      else (Throw (StackError ("Type mismatch: expected " ++ valueTypeToString tag ++
                               ", got " ++ valueTypeToString (type v))%string), s ++ [v]).

(** What holds of the length of [data_] at every page count: it is the
    32-bit product of the source. *)
Definition wrapped_size_invariant (m : Memory.t) : Prop :=
  length (Memory.data_ m) = Memory.pages_to_bytes (Memory.current_pages_ m).



(** A one-byte signed encoding is sign-extended from bit 6. *)
Definition one_byte_sign_extended (b : Z) : bool :=
  match Decoder.readVarInt32 (Decoder.mkDecoder [b] 0),
        Decoder.readVarInt64 (Decoder.mkDecoder [b] 0) with
  | (Ok v32, d32), (Ok v64, d64) =>
      let expected := if Z.testbit b 6 then b - 128 else b in
      (v32 =? expected) && (v64 =? expected)
      && (Decoder.position_ d32 =? 1)%nat && (Decoder.position_ d64 =? 1)%nat
  | _, _ => false
  end.

(** The common shape of the eight saturating cases. *)
Definition sat_shape (chi clo vhi vlo lo hi : Z) (post : outcome Z -> outcome Z)
    (a : spec_float) : outcome Z :=
  if Float.isnan a then Ok 0
  else if Float.ge a (Float.lit chi) then Ok vhi
  else if Float.le a (Float.lit clo) then Ok vlo
  else post (Float.static_cast_int lo hi (Float.trunc a)).

Definition out_of_range : outcome Z :=
  Throw (Undefined "float-to-integer conversion out of range").

(** [only_pc st st']: the two states differ at most in [pc_]. *)
Definition only_pc (st st' : Interpreter) : Prop := st' = set_pc_ (pc_ st') st.

(** A module with one immutable global, about to execute [global.set 0]
    with 9 on the stack (the opcode byte has been fetched). *)
Definition immutable_global_module : Module :=
  mkModule [] [] [] [mkGlobal I32 false [0x41; 0x05; 0x0B]] [] [].

Definition immutable_global_state (pc : nat) (stack : Stack.t) : Interpreter :=
  mkInterpreter immutable_global_module stack [] None [makeI32 5] []
                [0x24; 0x00; 0x0B] 3 pc [].

(** Closed runs: the parameters of the executor are instantiated by
    functions that refuse; the bodies run below use none of the
    parametrised instructions. *)
Definition unmodelled (_ : Z) : M Interpreter unit :=
  throw (InterpreterError "instruction outside the modelled part").

Definition no_fd_write : M Interpreter unit :=
  throw (InterpreterError "host call outside the modelled part").

Definition run_function : nat -> nat -> Z -> M Interpreter unit :=
  execute unmodelled unmodelled unmodelled no_fd_write.

(** The interpreter after [instantiate] of a module that declares no
    memory, no global and no start function. *)
Definition instantiated (m : Module) : Interpreter :=
  mkInterpreter m [] [] None [] [] [] 0 0 [].

(** [(func (result i32) (block (result i32) i32.const 1 i32.const 2 br 0))]:
    a valid function whose value is 2. *)
Definition block_br_body : list Z :=
  [0x02; 0x7F; 0x41; 0x01; 0x41; 0x02; 0x0C; 0x00; 0x0B; 0x0B].

Definition block_br_module : Module :=
  mkModule [mkFuncType [] [I32]] [mkFunction 0 [] block_br_body] [0] [] [] [].

(** The interpreter inside that function, [br 0] and its immediate read. *)
Definition at_br : Interpreter :=
  mkInterpreter block_br_module [makeI32 1; makeI32 2] [] None [] []
                block_br_body 10 8 [mkLabel 9 0 false 1].

(** The immediates of the two call instructions. *)
Definition call_immediates (opcode : Z) : M Interpreter unit :=
  if opcode =? Opcode.CALL then readVarUint32 ;;; ret tt
  else readVarUint32 ;;; readByte ;;; ret tt.

(** The call-frame fields of [st'] are those of [st]. *)
Definition same_call_frame (st st' : Interpreter) : Prop :=
  pc_ st' = pc_ st /\ code_ st' = code_ st /\ code_size_ st' = code_size_ st /\
  locals_ st' = locals_ st /\ labels_ st' = labels_ st.

(** [keeps st st']: the module and the call-stack member are the same. *)
Definition keeps (st st' : Interpreter) : Prop :=
  module_ st' = module_ st /\ call_stack_ st' = call_stack_ st.

Definition framed {A} (c : M Interpreter A) : Prop :=
  forall st r st', c st = (r, st') -> keeps st st'.

(** A caller in the middle of [call 1; end], with one local and one open
    label, and a callee with a local and a block of its own. *)
Definition caller_callee_module : Module :=
  mkModule [mkFuncType [] [I32]]
           [mkFunction 0 [] [0x10; 0x01; 0x0B];
            mkFunction 0 [I64] [0x02; 0x40; 0x0B; 0x41; 0x07; 0x0B]]
           [0; 0] [] []
           [mkElementSegment 0 [0x41; 0x00; 0x0B] [1]].

Definition in_caller (code : list Z) (pc : nat) (stack : Stack.t) : Interpreter :=
  mkInterpreter caller_callee_module stack [] None [] [makeI32 42]
                code (length code) pc [mkLabel 3 0 false 0].

(** [(func (call 0))]: a function that calls itself and does nothing
    else, and the interpreter inside it. *)
Definition self_recursive_module : Module :=
  mkModule [mkFuncType [] []] [mkFunction 0 [] [0x10; 0x00; 0x0B]] [0] [] [] [].

Definition in_self_call (pc : nat) (stk : Stack.t) (cs : CallStack.t) (mem : option Memory.t)
    (gl : list TypedValue) : Interpreter :=
  mkInterpreter self_recursive_module stk cs mem gl [] [0x10; 0x00; 0x0B] 3 pc [].

(** An interpreter about to execute a conversion on [stack]; [code] is
    the instruction and [pc] follows its opcode byte. *)
Definition before_conversion (code : list Z) (pc : nat) (stack : Stack.t) : Interpreter :=
  mkInterpreter (mkModule [] [] [] [] [] []) stack [] None [] [] code (length code) pc [].

(** The type popped and the value pushed by the saturating conversion
    with a given sub-opcode; an unsigned result is stored by its bits. *)
Definition sat_operand_type (sub_opcode : Z) : ValueType :=
  if (sub_opcode =? 0) || (sub_opcode =? 1) || (sub_opcode =? 4) || (sub_opcode =? 5)
  then F32 else F64.

Definition sat_result (sub_opcode : Z) (payload : Value) : TypedValue :=
  let f32 := Float.f32_of_bits (Value_f32 payload) in
  let f64 := Float.f64_of_bits (Value_f64 payload) in
  if sub_opcode =? 0 then makeI32 (Conv.saturate INT32_MIN INT32_MAX f32)
  else if sub_opcode =? 1 then makeI32 (Conv.saturate 0 UINT32_MAX f32)
  else if sub_opcode =? 2 then makeI32 (Conv.saturate INT32_MIN INT32_MAX f64)
  else if sub_opcode =? 3 then makeI32 (Conv.saturate 0 UINT32_MAX f64)
  else if sub_opcode =? 4 then makeI64 (Conv.saturate INT64_MIN INT64_MAX f32)
  else if sub_opcode =? 5 then makeI64 (Conv.saturate 0 UINT64_MAX f32)
  else if sub_opcode =? 6 then makeI64 (Conv.saturate INT64_MIN INT64_MAX f64)
  else makeI64 (Conv.saturate 0 UINT64_MAX f64).

(** An instruction that returns normally or fails on its operand: the
    outcomes left to a conversion that cannot trap. *)
Definition returns_or_stack_error (o : outcome unit) : Prop :=
  o = Ok tt \/ exists msg, o = Throw (StackError msg).

(** ** decoder.cpp: fixed-width readers, names, types, limits, the header

    The functions of [Decoder] that follow the LEB128 readers in the
    source; they work on the same cursor. *)

Module Parse.

Import Decoder.

Definition WASM_MAGIC : Z := 0x6D736100.
Definition WASM_VERSION : Z := 1.
Definition OP_END : Z := 0x0B.

Definition hasMoreData : M Decoder.t bool :=
  d <- get ;; ret (position_ d <? length (buffer_ d))%nat.

(** [ensureBytes(n); std::memcpy(&value, &buffer_[position_], n);
    position_ += n;]: the unsigned value of the next [n] bytes. *)
Definition read_le (n : nat) : M Decoder.t Z :=
  ensureBytes n ;;;
  d <- get ;;
  put (mkDecoder (buffer_ d) (position_ d + n)) ;;;
  ret (Memory.le_value (take n (drop (position_ d) (buffer_ d)))).

Definition readU32 : M Decoder.t Z := read_le 4.
Definition readF32 : M Decoder.t Z := read_le 4.
Definition readF64 : M Decoder.t Z := read_le 8.








(** The [while (true)] of [readInitExpression]; [expr] is the vector
    built so far. *)
Fixpoint readInitExpression_loop (fuel : nat) (expr : list Z) : M Decoder.t (list Z) :=
  match fuel with
  | O => fun d => (Exhausted Turns, d)
  | S fuel' =>
      byte <- readByte ;;
      let expr := expr ++ [byte] in
      if byte =? OP_END then ret expr
      else if (1024 <? length expr)%nat
      then e <- formatError "Init expression too large (> 1024 bytes)" ;; throw e
      else readInitExpression_loop fuel' expr
  end.

Definition readInitExpression : M Decoder.t (list Z) :=
  d <- get ;; readInitExpression_loop (turns d) [].

Definition verifyMagicAndVersion : M Decoder.t unit :=
  d <- get ;;
  if (length (buffer_ d) <? 8)%nat
  then throw (DecoderError None "File too small to be a valid WASM module")
  else
    magic <- readU32 ;;
    if negb (magic =? WASM_MAGIC) then throw (DecoderError None "Invalid magic number")
    else
      version <- readU32 ;;
      if negb (version =? WASM_VERSION) then throw (DecoderError None "Unsupported version")
      else ret tt.

End Parse.

(** ** instructions.cpp: the names of the opcodes

    The keys are enumerators of the missing header; as in [Opcode] they
    carry the WebAssembly MVP opcode bytes. *)

Definition opcodeToString (opcode : Z) : string :=
  if opcode =? Opcode.UNREACHABLE then "unreachable"
  else if opcode =? Opcode.NOP then "nop"
  else if opcode =? Opcode.BLOCK then "block"
  else if opcode =? Opcode.LOOP then "loop"
  else if opcode =? Opcode.IF then "if"
  else if opcode =? Opcode.ELSE then "else"
  else if opcode =? Opcode.END then "end"
  else if opcode =? Opcode.BR then "br"
  else if opcode =? Opcode.BR_IF then "br_if"
  else if opcode =? Opcode.BR_TABLE then "br_table"
  else if opcode =? Opcode.RETURN then "return"
  else if opcode =? Opcode.CALL then "call"
  else if opcode =? Opcode.CALL_INDIRECT then "call_indirect"
  else if opcode =? Opcode.DROP then "drop"
  else if opcode =? Opcode.SELECT then "select"
  else if opcode =? Opcode.LOCAL_GET then "local.get"
  else if opcode =? Opcode.LOCAL_SET then "local.set"
  else if opcode =? Opcode.LOCAL_TEE then "local.tee"
  else if opcode =? Opcode.GLOBAL_GET then "global.get"
  else if opcode =? Opcode.GLOBAL_SET then "global.set"
  else if opcode =? Opcode.I32_LOAD then "i32.load"
  else if opcode =? Opcode.I64_LOAD then "i64.load"
  else if opcode =? Opcode.F32_LOAD then "f32.load"
  else if opcode =? Opcode.F64_LOAD then "f64.load"
  else if opcode =? Opcode.I32_STORE then "i32.store"
  else if opcode =? Opcode.I64_STORE then "i64.store"
  else if opcode =? Opcode.F32_STORE then "f32.store"
  else if opcode =? Opcode.F64_STORE then "f64.store"
  else if opcode =? Opcode.MEMORY_SIZE then "memory.size"
  else if opcode =? Opcode.MEMORY_GROW then "memory.grow"
  else if opcode =? Opcode.I32_CONST then "i32.const"
  else if opcode =? Opcode.I64_CONST then "i64.const"
  else if opcode =? Opcode.F32_CONST then "f32.const"
  else if opcode =? Opcode.F64_CONST then "f64.const"
  else if opcode =? Opcode.I32_ADD then "i32.add"
  else if opcode =? Opcode.I32_SUB then "i32.sub"
  else if opcode =? Opcode.I32_MUL then "i32.mul"
  else if opcode =? Opcode.I32_DIV_S then "i32.div_s"
  else if opcode =? Opcode.I32_DIV_U then "i32.div_u"
  else if opcode =? Opcode.I32_EQ then "i32.eq"
  else if opcode =? Opcode.I32_NE then "i32.ne"
  else if opcode =? Opcode.I32_LT_S then "i32.lt_s"
  else if opcode =? Opcode.I32_LT_U then "i32.lt_u"
  else if opcode =? Opcode.I32_GT_S then "i32.gt_s"
  else if opcode =? Opcode.I32_GT_U then "i32.gt_u"
  else if opcode =? Opcode.I64_ADD then "i64.add"
  else if opcode =? Opcode.I64_SUB then "i64.sub"
  else if opcode =? Opcode.I64_MUL then "i64.mul"
  else if opcode =? Opcode.I64_EQ then "i64.eq"
  else if opcode =? Opcode.F32_ADD then "f32.add"
  else if opcode =? Opcode.F32_SUB then "f32.sub"
  else if opcode =? Opcode.F32_MUL then "f32.mul"
  else if opcode =? Opcode.F32_DIV then "f32.div"
  else if opcode =? Opcode.F64_ADD then "f64.add"
  else if opcode =? Opcode.F64_SUB then "f64.sub"
  else if opcode =? Opcode.F64_MUL then "f64.mul"
  else if opcode =? Opcode.F64_DIV then "f64.div"
  else "unknown".

(** ** interpreter.cpp: memory instructions *)

Definition set_memory_ (v : option Memory.t) (st : Interpreter) : Interpreter :=
  mkInterpreter (module_ st) (stack_ st) (call_stack_ st) v (globals_ st)
                (locals_ st) (code_ st) (code_size_ st) (pc_ st) (labels_ st).

(** Runs a computation of the memory on the object [memory_] points to. *)
Definition on_memory {A} (c : M Memory.t A) : M Interpreter A :=
  fun st =>
    match memory_ st with
    | Some m => let '(r, m') := c m in (r, set_memory_ (Some m') st)
    | None => (Throw (Undefined "memory_ is null"), st)
    end.

(** [readMemArg]: the members [align] and [offset] of the result. *)
Definition readMemArg : M Interpreter (Z * Z) :=
  align <- readVarUint32 ;;
  offset <- readVarUint32 ;;
  ret (align, offset).

(** [effectiveAddress]: both arguments are [uint32_t], the sum is taken
    in [uint64_t]. *)
Definition effectiveAddress (base offset : Z) : outcome Z :=
  let addr := wrap 64 (base + offset) in
  if addr >? UINT32_MAX then Throw (Trap "Memory address overflow")
  else Ok (wrap 32 addr).

(** A load case: the address is popped as an [int32_t] and passed as a
    [uint32_t]; the loaded value is pushed with the width of [push]. *)
Definition load_case (load : Z -> M Memory.t Z) (push : Z -> M Stack.t unit) (offset : Z)
  : M Interpreter unit :=
  base <- on_stack Stack.popI32 ;;
  addr <- lift_outcome (effectiveAddress (wrap 32 base) offset) ;;
  v <- on_memory (load addr) ;;
  on_stack (push v).

(** A store case: the value is popped first, then the address;
    [narrow] is the cast applied to the value. *)
Definition store_case (pop : M Stack.t Z) (narrow : Z -> Z) (store : Z -> Z -> M Memory.t unit)
    (offset : Z) : M Interpreter unit :=
  v <- on_stack pop ;;
  base <- on_stack Stack.popI32 ;;
  addr <- lift_outcome (effectiveAddress (wrap 32 base) offset) ;;
  on_memory (store addr (narrow v)).

Definition executeMemory (opcode : Z) : M Interpreter unit :=
  st <- get ;;
  match memory_ st with
  | None => throw (InterpreterError "No memory instantiated")
  | Some _ =>
      if opcode =? Opcode.MEMORY_SIZE then
        readByte ;;;
        pages <- on_memory (m <- get ;; ret (Memory.size m)) ;;
        on_stack (Stack.pushI32 (signed 32 pages))
      else if opcode =? Opcode.MEMORY_GROW then
        readByte ;;;
        delta <- on_stack Stack.popI32 ;;
        result <- on_memory (Memory.grow (wrap 32 delta)) ;;
        on_stack (Stack.pushI32 result)
      else
        memarg <- readMemArg ;;
        let offset := snd memarg in
        if opcode =? Opcode.I32_LOAD then load_case Memory.loadI32 Stack.pushI32 offset
        else if opcode =? Opcode.I32_LOAD8_S then load_case Memory.loadI8 Stack.pushI32 offset
        else if opcode =? Opcode.I32_LOAD8_U then load_case Memory.loadU8 Stack.pushI32 offset
        else if opcode =? Opcode.I32_LOAD16_S then load_case Memory.loadI16 Stack.pushI32 offset
        else if opcode =? Opcode.I32_LOAD16_U then load_case Memory.loadU16 Stack.pushI32 offset
        else if opcode =? Opcode.I64_LOAD then load_case Memory.loadI64 Stack.pushI64 offset
        else if opcode =? Opcode.I64_LOAD8_S then load_case Memory.loadI8 Stack.pushI64 offset
        else if opcode =? Opcode.I64_LOAD8_U then load_case Memory.loadU8 Stack.pushI64 offset
        else if opcode =? Opcode.I64_LOAD16_S then load_case Memory.loadI16 Stack.pushI64 offset
        else if opcode =? Opcode.I64_LOAD16_U then load_case Memory.loadU16 Stack.pushI64 offset
        else if opcode =? Opcode.I64_LOAD32_S then load_case Memory.loadI32 Stack.pushI64 offset
        else if opcode =? Opcode.I64_LOAD32_U then load_case Memory.loadU32 Stack.pushI64 offset
        else if opcode =? Opcode.F32_LOAD then load_case Memory.loadF32 Stack.pushF32 offset
        else if opcode =? Opcode.F64_LOAD then load_case Memory.loadF64 Stack.pushF64 offset
        else if opcode =? Opcode.I32_STORE
        then store_case Stack.popI32 id Memory.storeI32 offset
        else if opcode =? Opcode.I32_STORE8
        then store_case Stack.popI32 (fun v => Z.land v 0xFF) Memory.storeU8 offset
        else if opcode =? Opcode.I32_STORE16
        then store_case Stack.popI32 (fun v => Z.land v 0xFFFF) Memory.storeU16 offset
        else if opcode =? Opcode.I64_STORE
        then store_case Stack.popI64 id Memory.storeI64 offset
        else if opcode =? Opcode.I64_STORE8
        then store_case Stack.popI64 (fun v => Z.land v 0xFF) Memory.storeU8 offset
        else if opcode =? Opcode.I64_STORE16
        then store_case Stack.popI64 (fun v => Z.land v 0xFFFF) Memory.storeU16 offset
        else if opcode =? Opcode.I64_STORE32
        then store_case Stack.popI64 (fun v => Z.land v 0xFFFFFFFF) Memory.storeU32 offset
        else if opcode =? Opcode.F32_STORE
        then store_case Stack.popF32 id Memory.storeF32 offset
        else if opcode =? Opcode.F64_STORE
        then store_case Stack.popF64 id Memory.storeF64 offset
        else throw (InterpreterError ("Memory instruction not implemented: " ++
                                      opcodeToString opcode)%string)
  end.

(** ** interpreter.cpp: the integer cases of [executeNumeric]

    Each case pops its operands from the operand stack, computes and
    pushes; the cases are named after their enumerators.  The arithmetic
    is that of the C++ types: an [int32_t] or [int64_t] sum, difference or
    product that does not fit has no meaning, a shift count must be below
    the width, and a left shift of a signed value keeps the low bits. *)

Module Numeric.

Definition INT_MIN (w : Z) : Z := - 2 ^ (w - 1).

(** The value of a signed expression of width [w]. *)
Definition arith (w : Z) (v : Z) : outcome Z :=
  if (INT_MIN w <=? v) && (v <? 2 ^ (w - 1)) then Ok v
  else Throw (Undefined "signed integer overflow").

Definition divide_by_zero {A} : outcome A := Throw (Trap "integer divide by zero").

Definition add (w a b : Z) : outcome Z := arith w (a + b).
Definition sub (w a b : Z) : outcome Z := arith w (a - b).
Definition mul (w a b : Z) : outcome Z := arith w (a * b).

Definition div_s (w a b : Z) : outcome Z :=
  if b =? 0 then divide_by_zero
  else if (a =? INT_MIN w) && (b =? -1) then Throw (Trap "integer overflow")
  else Ok (Z.quot a b).

(** [static_cast<uintN_t>] of both operands where they are popped (the
    32-bit cases; the 64-bit cases cast inside the expression). *)
Definition unsigned_operands (w : Z) (f : Z -> Z -> outcome Z) (a b : Z) : outcome Z :=
  f (wrap w a) (wrap w b).

Definition div_u (w a b : Z) : outcome Z :=
  if b =? 0 then divide_by_zero
  else Ok (signed w (wrap w a / wrap w b)).

(** [a % b] without a test for the quotient that does not fit. *)
Definition rem_s (w a b : Z) : outcome Z :=
  if b =? 0 then divide_by_zero
  else if (a =? INT_MIN w) && (b =? -1) then Throw (Undefined "signed integer overflow")
  else Ok (Z.rem a b).

Definition rem_u (w a b : Z) : outcome Z :=
  if b =? 0 then divide_by_zero
  else Ok (signed w (wrap w a mod wrap w b)).

Definition band (w a b : Z) : outcome Z := Ok (Z.land a b).
Definition bor (w a b : Z) : outcome Z := Ok (Z.lor a b).
Definition bxor (w a b : Z) : outcome Z := Ok (Z.lxor a b).

Definition shl (w a b : Z) : outcome Z := Ok (signed w (Z.shiftl a (Z.land b (w - 1)))).
Definition shr_s (w a b : Z) : outcome Z := Ok (Z.shiftr a (Z.land b (w - 1))).
Definition shr_u (w a b : Z) : outcome Z :=
  Ok (signed w (Z.shiftr (wrap w a) (Z.land b (w - 1)))).



Definition flag (c : bool) : outcome Z := Ok (if c then 1 else 0).

Definition equal (a b : Z) : outcome Z := flag (a =? b).
Definition not_equal (a b : Z) : outcome Z := flag (negb (a =? b)).
Definition lt_s (a b : Z) : outcome Z := flag (a <? b).
Definition gt_s (a b : Z) : outcome Z := flag (a >? b).
Definition le_s (a b : Z) : outcome Z := flag (a <=? b).
Definition ge_s (a b : Z) : outcome Z := flag (a >=? b).
Definition lt_u (w a b : Z) : outcome Z := flag (wrap w a <? wrap w b).
Definition gt_u (w a b : Z) : outcome Z := flag (wrap w a >? wrap w b).
Definition le_u (w a b : Z) : outcome Z := flag (wrap w a <=? wrap w b).
Definition ge_u (w a b : Z) : outcome Z := flag (wrap w a >=? wrap w b).
Definition eqz (a : Z) : outcome Z := flag (a =? 0).

(** [while ((value & top_bit) == 0) { count++; value <<= 1; }] *)
Fixpoint clz_loop (w : Z) (fuel : nat) (value count : Z) : outcome Z :=
  match fuel with
  | O => Exhausted Turns
  | S fuel' =>
      if Z.land value (2 ^ (w - 1)) =? 0
      then clz_loop w fuel' (wrap w (Z.shiftl value 1)) (count + 1)
      else Ok count
  end.

Definition clz (w a : Z) : outcome Z :=
  let value := wrap w a in
  if value =? 0 then Ok w else clz_loop w (Z.to_nat w) value 0.

(** [while ((value & 1) == 0) { count++; value >>= 1; }] *)
Fixpoint ctz_loop (fuel : nat) (value count : Z) : outcome Z :=
  match fuel with
  | O => Exhausted Turns
  | S fuel' =>
      if Z.land value 1 =? 0
      then ctz_loop fuel' (Z.shiftr value 1) (count + 1)
      else Ok count
  end.

Definition ctz (w a : Z) : outcome Z :=
  let value := wrap w a in
  if value =? 0 then Ok w else ctz_loop (Z.to_nat w) value 0.

(** [while (value) { count += value & 1; value >>= 1; }] *)
Fixpoint popcnt_loop (fuel : nat) (value count : Z) : outcome Z :=
  match fuel with
  | O => Exhausted Turns
  | S fuel' =>
      if negb (value =? 0)
      then popcnt_loop fuel' (Z.shiftr value 1) (count + Z.land value 1)
      else Ok count
  end.

Definition popcnt (w a : Z) : outcome Z :=
  popcnt_loop (S (Z.to_nat w)) (wrap w a) 0.

(** The shape of a case with two operands: [b] is popped first. *)
Definition binary (pop : M Stack.t Z) (push : Z -> M Stack.t unit) (f : Z -> Z -> outcome Z)
  : M Stack.t unit :=
  b <- pop ;;
  a <- pop ;;
  v <- lift_outcome (f a b) ;;
  push v.

Definition unary (pop : M Stack.t Z) (push : Z -> M Stack.t unit) (f : Z -> outcome Z)
  : M Stack.t unit :=
  a <- pop ;;
  v <- lift_outcome (f a) ;;
  push v.

Definition i32_binary := binary Stack.popI32 Stack.pushI32.
Definition i64_binary := binary Stack.popI64 Stack.pushI64.
Definition i64_compare := binary Stack.popI64 Stack.pushI32.

Definition I32_ADD := i32_binary (add 32).
Definition I32_SUB := i32_binary (sub 32).
Definition I32_MUL := i32_binary (mul 32).
Definition I32_DIV_S := i32_binary (div_s 32).
Definition I32_DIV_U := i32_binary (unsigned_operands 32 (div_u 32)).
Definition I32_REM_S := i32_binary (rem_s 32).
Definition I32_REM_U := i32_binary (unsigned_operands 32 (rem_u 32)).
Definition I32_AND := i32_binary (band 32).
Definition I32_OR := i32_binary (bor 32).
Definition I32_XOR := i32_binary (bxor 32).
Definition I32_SHL := i32_binary (shl 32).
Definition I32_SHR_S := i32_binary (shr_s 32).
Definition I32_SHR_U := i32_binary (shr_u 32).
Definition I32_EQ := i32_binary equal.
Definition I32_NE := i32_binary not_equal.
Definition I32_LT_S := i32_binary lt_s.
Definition I32_LT_U := i32_binary (unsigned_operands 32 (lt_u 32)).
Definition I32_GT_S := i32_binary gt_s.
Definition I32_GT_U := i32_binary (unsigned_operands 32 (gt_u 32)).
Definition I32_LE_S := i32_binary le_s.
Definition I32_LE_U := i32_binary (unsigned_operands 32 (le_u 32)).
Definition I32_GE_S := i32_binary ge_s.
Definition I32_GE_U := i32_binary (unsigned_operands 32 (ge_u 32)).
Definition I32_EQZ := unary Stack.popI32 Stack.pushI32 eqz.
Definition I32_CLZ := unary Stack.popI32 Stack.pushI32 (clz 32).
Definition I32_CTZ := unary Stack.popI32 Stack.pushI32 (ctz 32).
Definition I32_POPCNT := unary Stack.popI32 Stack.pushI32 (popcnt 32).

Definition I64_ADD := i64_binary (add 64).
Definition I64_SUB := i64_binary (sub 64).
Definition I64_MUL := i64_binary (mul 64).
Definition I64_DIV_S := i64_binary (div_s 64).
Definition I64_DIV_U := i64_binary (div_u 64).
Definition I64_REM_S := i64_binary (rem_s 64).
Definition I64_REM_U := i64_binary (rem_u 64).
Definition I64_AND := i64_binary (band 64).
Definition I64_OR := i64_binary (bor 64).
Definition I64_XOR := i64_binary (bxor 64).
Definition I64_SHL := i64_binary (shl 64).
Definition I64_SHR_S := i64_binary (shr_s 64).
Definition I64_SHR_U := i64_binary (shr_u 64).
Definition I64_EQZ := unary Stack.popI64 Stack.pushI32 eqz.
Definition I64_EQ := i64_compare equal.
Definition I64_NE := i64_compare not_equal.
Definition I64_LT_S := i64_compare lt_s.
Definition I64_LT_U := i64_compare (lt_u 64).
Definition I64_GT_S := i64_compare gt_s.
Definition I64_GT_U := i64_compare (gt_u 64).
Definition I64_LE_S := i64_compare le_s.
Definition I64_LE_U := i64_compare (le_u 64).
Definition I64_GE_S := i64_compare ge_s.
Definition I64_GE_U := i64_compare (ge_u 64).
Definition I64_CLZ := unary Stack.popI64 Stack.pushI64 (clz 64).
Definition I64_CTZ := unary Stack.popI64 Stack.pushI64 (ctz 64).
Definition I64_POPCNT := unary Stack.popI64 Stack.pushI64 (popcnt 64).

End Numeric.

(** ** module.cpp and interpreter.cpp: calling a function by index

    The model's interpreter always holds a module, so the test for a
    missing module at the head of [callFunction] has no counterpart. *)

Definition getTotalFunctionCount (m : Module) : Z :=
  wrap 32 (getImportedFunctionCount m + wrap 32 (Z.of_nat (length (functions m)))).

Definition validateFunctionCall (func_index : Z) : M Interpreter unit :=
  st <- get ;;
  if getTotalFunctionCount (module_ st) <=? func_index
  then throw (InterpreterError "Function index out of bounds")
  else ret tt.

(** [for (const auto& arg : args) stack_.push(arg);] *)
Fixpoint push_args (args : list TypedValue) : M Interpreter unit :=
  match args with
  | [] => ret tt
  | arg :: rest => on_stack (Stack.push arg) ;;; push_args rest
  end.

(** [for (size_t i = result_count; i > 0; i--) results[i - 1] = stack_.pop();] *)
Fixpoint pop_results (i : nat) (results : list TypedValue) : M Interpreter (list TypedValue) :=
  match i with
  | O => ret results
  | S j => v <- on_stack Stack.pop ;; pop_results j (<[j := v]> results)
  end.

(** [callFunction]; [execute] is [Interpreter::execute]. *)
Definition callFunction (execute : Z -> M Interpreter unit) (func_index : Z)
    (args : list TypedValue) : M Interpreter (list TypedValue) :=
  validateFunctionCall func_index ;;;
  push_args args ;;;
  execute func_index ;;;
  st <- get ;;
  match getFunctionType (module_ st) func_index with
  | Some func_type =>
      if negb (bool_decide (results func_type = [])) then
        let result_count := length (results func_type) in
        pop_results result_count (replicate result_count TypedValue_default)
      else ret []
  | None => ret []
  end.

(** A use of the call stack: a push of a frame, or a pop. *)
Inductive call_op : Type :=
| Push (frame : CallStack.CallFrame)
| Pop.

(** The call stack after one use, whether it returned or threw. *)
Definition apply_call_op (s : CallStack.t) (o : call_op) : CallStack.t :=
  match o with
  | Push frame => snd (CallStack.push frame s)
  | Pop => snd (CallStack.pop s)
  end.

(** The unsigned LEB128 encoding of [n]: seven bits per byte, least
    significant group first, with at most [groups] continued bytes.  No
    function of the sources encodes; the encodings are what the readers
    are run on. *)
Fixpoint leb128_unsigned (groups : nat) (n : Z) : list Z :=
  match groups with
  | O => [n]
  | S g => if n <? 128 then [n] else (n mod 128 + 128) :: leb128_unsigned g (n / 128)
  end.

(** The signed LEB128 encoding of [n]: the last byte carries the sign in
    bit 6. *)
Fixpoint leb128_signed (groups : nat) (n : Z) : list Z :=
  match groups with
  | O => [n mod 128]
  | S g =>
      if (-64 <=? n) && (n <? 64) then [n mod 128]
      else (n mod 128 + 128) :: leb128_signed g (n / 128)
  end.

(** [bytes_at bytes buffer pos]: [buffer] holds [bytes] from index [pos]. *)
Definition bytes_at (bytes buffer : list Z) (pos : nat) : Prop :=
  take (length bytes) (drop pos buffer) = bytes.

(** What the readers rely on for a group [b] of seven bits, as a test. *)
Definition group_facts (b : Z) : bool :=
  (Z.land b 127 =? b) && (Z.land b 128 =? 0) &&
  (Z.land (b + 128) 127 =? b) && negb (Z.land (b + 128) 128 =? 0) &&
  bool_decide ((Z.land b 64 =? 0) = (b <? 64)) &&
  bool_decide ((Z.land (b + 128) 64 =? 0) = (b <? 64)).

(** The number of bits set among the [n] lowest bits of [v]. *)
Definition set_bits (n : nat) (v : Z) : Z :=
  foldr Z.add 0 (map (fun i => Z.b2z (Z.testbit v (Z.of_nat i))) (seq 0 n)).


(** The eight bytes every module starts with: "\0asm" and version 1. *)
Definition wasm_header : list Z := [0x00; 0x61; 0x73; 0x6D; 0x01; 0x00; 0x00; 0x00].

(** * Properties *)

(** ** Machine integers *)

Lemma wrap_range w x : 0 < w -> 0 <= wrap w x < 2 ^ w.
Proof. intros Hw. unfold wrap. apply Z.mod_pos_bound. apply Z.pow_pos_nonneg; lia. Qed.

Lemma wrap_small w x : 0 <= x < 2 ^ w -> wrap w x = x.
Proof. intros H. unfold wrap. apply Z.mod_small. exact H. Qed.

(** ** The operand stack *)

Lemma empty_nil : Stack.empty [] = true.
Proof. reflexivity. Qed.

Lemma empty_snoc (s : Stack.t) v : Stack.empty (s ++ [v]) = false.
Proof.
  unfold Stack.empty. apply bool_decide_eq_false. intros H.
  apply (f_equal length) in H. rewrite length_app in H. simpl in H. lia.
Qed.

Ltac typed_pop :=
  split;
  [ reflexivity
  | intros s v;
    unfold Stack.popI32, Stack.popI64, Stack.popF32, Stack.popF64, Stack.checkNotEmpty,
      Stack.checkType, Stack.back, Stack.pop_back, bind, get, ret, throw, modify;
    rewrite empty_snoc, last_snoc; simpl;
    destruct (type v =? _); simpl; [rewrite ?last_snoc, removelast_last | ]; reflexivity ].

Lemma popI32_spec : typed_pop_spec Stack.popI32 I32 Value_i32.
Proof. typed_pop. Qed.

Lemma popI64_spec : typed_pop_spec Stack.popI64 I64 Value_i64.
Proof. typed_pop. Qed.

Lemma popF32_spec : typed_pop_spec Stack.popF32 F32 Value_f32.
Proof. typed_pop. Qed.

Lemma popF64_spec : typed_pop_spec Stack.popF64 F64 Value_f64.
Proof. typed_pop. Qed.

Lemma typed_pop_throw_keeps pop tag view :
  typed_pop_spec pop tag view ->
  forall (s s' : Stack.t) e, pop s = (Throw e, s') -> s' = s /\ exists msg, e = StackError msg.
Proof.
  intros [Hnil Hsnoc] s s' e.
  destruct s as [|v s _] using rev_ind.
  - rewrite Hnil. intros [= <- <-]. eauto.
  - rewrite Hsnoc. destruct (type v =? tag); intros [= <- <-]. eauto.
Qed.

(** C10: when a typed pop ([popI32], [popI64], [popF32], [popF64]) throws,
    the exception is a [StackError] (underflow or type mismatch) and the
    operand stack is exactly the stack before the call: both checks come
    before the removal. *)
Theorem C10_typed_pop_failure_keeps_stack :
  forall (s s' : Stack.t) (e : exception),
    Stack.popI32 s = (Throw e, s') \/ Stack.popI64 s = (Throw e, s') \/
    Stack.popF32 s = (Throw e, s') \/ Stack.popF64 s = (Throw e, s') ->
    s' = s /\ exists msg, e = StackError msg.
Proof.
  intros s s' e [H | [H | [H | H]]].
  - exact (typed_pop_throw_keeps _ _ _ popI32_spec _ _ _ H).
  - exact (typed_pop_throw_keeps _ _ _ popI64_spec _ _ _ H).
  - exact (typed_pop_throw_keeps _ _ _ popF32_spec _ _ _ H).
  - exact (typed_pop_throw_keeps _ _ _ popF64_spec _ _ _ H).
Qed.

Lemma C10_witness :
  (Stack.popI32 [makeI32 7; makeF64 0] =
     (Throw (StackError "Type mismatch: expected i32, got f64"), [makeI32 7; makeF64 0]) \/
   Stack.popI64 [makeI32 7; makeF64 0] =
     (Throw (StackError "Type mismatch: expected i32, got f64"), [makeI32 7; makeF64 0]) \/
   Stack.popF32 [makeI32 7; makeF64 0] =
     (Throw (StackError "Type mismatch: expected i32, got f64"), [makeI32 7; makeF64 0]) \/
   Stack.popF64 [makeI32 7; makeF64 0] =
     (Throw (StackError "Type mismatch: expected i32, got f64"), [makeI32 7; makeF64 0])) /\
  ([makeI32 7; makeF64 0] = [makeI32 7; makeF64 0] /\
   exists msg, StackError "Type mismatch: expected i32, got f64" = StackError msg).
Proof.
  assert (H : Stack.popI32 [makeI32 7; makeF64 0] =
     (Throw (StackError "Type mismatch: expected i32, got f64"), [makeI32 7; makeF64 0]))
    by reflexivity.
  split.
  - left. exact H.
  - exact (C10_typed_pop_failure_keeps_stack _ _ _ (or_introl H)).
Defined.

Lemma wrap_overflow w x : 2 ^ w <= x < 2 * 2 ^ w -> wrap w x = x - 2 ^ w.
Proof.
  intros H. unfold wrap. symmetry. apply (Z.mod_unique_pos _ _ 1); lia.
Qed.

Lemma signed_small w x : 0 < w -> 0 <= x < 2 ^ (w - 1) -> signed w x = x.
Proof.
  intros Hw H. unfold signed.
  assert (2 ^ w = 2 * 2 ^ (w - 1)) as Hp.
  { replace w with (Z.succ (w - 1)) at 1 by lia. apply Z.pow_succ_r. lia. }
  rewrite Z.mod_small by lia.
  destruct (Z.ltb_spec x (2 ^ (w - 1))); lia.
Qed.

(** ** Linear memory *)

Lemma pages_to_bytes_small pages :
  0 <= pages < 65536 -> Z.of_nat (Memory.pages_to_bytes pages) = pages * 65536.
Proof.
  intros H. unfold Memory.pages_to_bytes, Memory.PAGE_SIZE.
  rewrite wrap_small by (change (2 ^ 32) with 4294967296; lia). lia.
Qed.

Lemma pages_to_bytes_limit : Memory.pages_to_bytes 65536 = 0%nat.
Proof. reflexivity. Qed.

Lemma Memory_ctor_wrapped limits m :
  Memory.Memory limits = Ok m -> wrapped_size_invariant m /\ Memory.current_pages_ m = min limits.
Proof.
  unfold Memory.Memory. repeat case_match; intros [= <-].
  unfold wrapped_size_invariant. simpl. by rewrite length_resize.
Qed.

(** Below the hard limit the constructor establishes the invariant of the
    specification. *)
Lemma Memory_ctor_invariant limits m :
  0 <= min limits < 65536 -> Memory.Memory limits = Ok m -> Memory.size_invariant m.
Proof.
  intros Hmin H. apply Memory_ctor_wrapped in H as [Hw Hp].
  unfold Memory.size_invariant. rewrite Hw, Hp. by apply pages_to_bytes_small.
Qed.

Lemma Memory_ctor_limits_ok limits m :
  0 <= min limits -> Memory.Memory limits = Ok m -> Memory.limits_ok m.
Proof.
  unfold Memory.Memory, Memory.limits_ok, Memory.MAX_PAGES. intros Hmin.
  destruct (min limits >? 65536) eqn:E1; [discriminate|].
  destruct (has_max limits && (max limits >? 65536)) eqn:E2; [discriminate|].
  destruct (has_max limits && (min limits >? max limits)) eqn:E3; [discriminate|].
  intros [= <-]. simpl. split; [lia|]. intros Hm. rewrite Hm in E3. simpl in E3. lia.
Qed.

Lemma signed_pages m :
  Memory.limits_ok m -> signed 32 (Memory.current_pages_ m) = Memory.current_pages_ m.
Proof.
  intros [Hp _]. unfold Memory.MAX_PAGES in Hp. apply signed_small; [lia|].
  change (2 ^ (32 - 1)) with 2147483648. lia.
Qed.

(** [grow] refuses, and changes nothing, when the new page count
    overflows 32 bits, exceeds the hard limit or exceeds the declared
    maximum. *)
Lemma grow_fails m delta :
  Memory.limits_ok m -> 0 <= delta < 2 ^ 32 ->
  Memory.MAX_PAGES < Memory.current_pages_ m + delta \/
  (has_max (Memory.limits_ m) = true /\ max (Memory.limits_ m) < Memory.current_pages_ m + delta) ->
  Memory.grow delta m = (Ok (-1), m).
Proof.
  intros Hok Hd Hfail. pose proof Hok as [Hp Hmax]. unfold Memory.MAX_PAGES in *.
  change (2 ^ 32) with 4294967296 in Hd.
  unfold Memory.grow, bind, get, ret, put, Memory.MAX_PAGES.
  destruct (Z.eqb_spec delta 0) as [->|Hd0].
  { exfalso. destruct Hfail as [?|[Hm ?]]; [lia|]. specialize (Hmax Hm). lia. }
  destruct (Z_lt_dec (Memory.current_pages_ m + delta) 4294967296) as [Hlt|Hge].
  - rewrite wrap_small by (change (2 ^ 32) with 4294967296; lia).
    destruct (Z.ltb_spec (Memory.current_pages_ m + delta) (Memory.current_pages_ m)); [lia|].
    destruct (Z.gtb_spec (Memory.current_pages_ m + delta) 65536); [reflexivity|].
    destruct Hfail as [?|[Hm ?]]; [lia|]. rewrite Hm. simpl.
    destruct (Z.gtb_spec (Memory.current_pages_ m + delta) (max (Memory.limits_ m))); [reflexivity|lia].
  - rewrite wrap_overflow by (change (2 ^ 32) with 4294967296; lia).
    change (2 ^ 32) with 4294967296.
    destruct (Z.ltb_spec (Memory.current_pages_ m + delta - 4294967296) (Memory.current_pages_ m));
      [reflexivity|lia].
Qed.

(** Otherwise [grow] returns the previous page count and sets the new
    one; the bytes are resized to the 32-bit product. *)
Lemma grow_succeeds m delta :
  Memory.limits_ok m -> 0 <= delta < 2 ^ 32 ->
  Memory.current_pages_ m + delta <= Memory.MAX_PAGES ->
  (has_max (Memory.limits_ m) = true -> Memory.current_pages_ m + delta <= max (Memory.limits_ m)) ->
  Memory.grow delta m =
    (Ok (Memory.current_pages_ m),
     if delta =? 0 then m
     else Memory.mkMemory
            (resize (Memory.pages_to_bytes (Memory.current_pages_ m + delta)) 0 (Memory.data_ m))
            (Memory.limits_ m) (Memory.current_pages_ m + delta)).
Proof.
  intros Hok Hd Hnew Hmaxnew. pose proof Hok as [Hp Hmax]. unfold Memory.MAX_PAGES in *.
  change (2 ^ 32) with 4294967296 in Hd.
  unfold Memory.grow, bind, get, ret, put, Memory.MAX_PAGES.
  rewrite (signed_pages _ Hok).
  destruct (Z.eqb_spec delta 0) as [->|Hd0]; [reflexivity|].
  rewrite wrap_small by (change (2 ^ 32) with 4294967296; lia).
  destruct (Z.ltb_spec (Memory.current_pages_ m + delta) (Memory.current_pages_ m)); [lia|].
  destruct (Z.gtb_spec (Memory.current_pages_ m + delta) 65536); [lia|].
  destruct (has_max (Memory.limits_ m)) eqn:Hm; simpl; [|reflexivity].
  destruct (Z.gtb_spec (Memory.current_pages_ m + delta) (max (Memory.limits_ m)));
    [specialize (Hmaxnew eq_refl); lia|reflexivity].
Qed.

(** Strictly below the hard limit the new bytes are appended zeros. *)
Lemma grow_zero_fill m delta :
  Memory.size_invariant m -> 0 <= Memory.current_pages_ m -> 0 <= delta ->
  Memory.current_pages_ m + delta < 65536 ->
  resize (Memory.pages_to_bytes (Memory.current_pages_ m + delta)) 0 (Memory.data_ m) =
  Memory.data_ m ++ replicate (Z.to_nat (delta * 65536)) 0.
Proof.
  unfold Memory.size_invariant. intros Hinv Hp Hd Hlt.
  assert (Memory.pages_to_bytes (Memory.current_pages_ m + delta) =
          (length (Memory.data_ m) + Z.to_nat (delta * 65536))%nat) as ->.
  { apply Nat2Z.inj. rewrite pages_to_bytes_small by lia. lia. }
  by apply resize_add_eq.
Qed.

Lemma grow_keeps_invariant m delta r m' :
  Memory.size_invariant m -> Memory.limits_ok m -> 0 <= delta < 2 ^ 32 ->
  Memory.grow delta m = (r, m') -> Memory.current_pages_ m' < 65536 ->
  Memory.size_invariant m' /\ Memory.limits_ok m'.
Proof.
  intros Hinv Hok Hd Hg Hlt. pose proof Hok as [Hp Hmax].
  destruct (Z_le_dec (Memory.current_pages_ m + delta) Memory.MAX_PAGES) as [Hle|Hgt].
  - destruct (has_max (Memory.limits_ m)) eqn:Hm.
    + destruct (Z_le_dec (Memory.current_pages_ m + delta) (max (Memory.limits_ m))) as [Hle2|Hgt2].
      * rewrite (grow_succeeds m delta Hok Hd Hle (fun _ => Hle2)) in Hg. injection Hg as <- <-.
        destruct (Z.eqb_spec delta 0); [done|]. simpl in *.
        split.
        -- unfold Memory.size_invariant. simpl. rewrite length_resize.
           apply pages_to_bytes_small. lia.
        -- split; simpl; [lia|]. intros _. lia.
      * assert (max (Memory.limits_ m) < Memory.current_pages_ m + delta) as Hlt2 by lia.
        rewrite (grow_fails m delta Hok Hd (or_intror (conj Hm Hlt2))) in Hg.
        by injection Hg as <- <-.
    + assert (has_max (Memory.limits_ m) = true ->
              Memory.current_pages_ m + delta <= max (Memory.limits_ m)) as Hno by congruence.
      rewrite (grow_succeeds m delta Hok Hd Hle Hno) in Hg. injection Hg as <- <-.
      destruct (Z.eqb_spec delta 0); [done|]. simpl in *.
      split.
      * unfold Memory.size_invariant. simpl. rewrite length_resize.
        apply pages_to_bytes_small. lia.
      * split; simpl; [lia|]. rewrite Hm. discriminate.
  - assert (Memory.MAX_PAGES < Memory.current_pages_ m + delta) as Hlt2 by lia.
    rewrite (grow_fails m delta Hok Hd (or_introl Hlt2)) in Hg. by injection Hg as <- <-.
Qed.

Lemma length_memcpy_to offset src (data : list Z) :
  (offset + length src <= length data)%nat ->
  length (Memory.memcpy_to offset src data) = length data.
Proof.
  intros H. unfold Memory.memcpy_to.
  rewrite !length_app, length_take, length_drop. lia.
Qed.

Lemma initialize_keeps_length offset bytes m m' :
  Memory.initialize offset bytes m = (Ok tt, m') ->
  length (Memory.data_ m') = length (Memory.data_ m) /\
  Memory.current_pages_ m' = Memory.current_pages_ m.
Proof.
  unfold Memory.initialize, bind, get, put, throw.
  destruct (Nat.ltb_spec (length (Memory.data_ m)) (Z.to_nat offset + length bytes)); [discriminate|].
  intros [= <-]. simpl. split; [|reflexivity]. by apply length_memcpy_to.
Qed.

Lemma length_le_bytes size v : length (Memory.le_bytes size v) = size.
Proof. revert v. induction size as [|n IH]; intros v; simpl; [reflexivity|]. by rewrite IH. Qed.

Lemma store_keeps_length size address v m m' :
  Memory.store size address v m = (Ok tt, m') ->
  length (Memory.data_ m') = length (Memory.data_ m) /\
  Memory.current_pages_ m' = Memory.current_pages_ m.
Proof.
  unfold Memory.store, Memory.checkAddress, bind, get, put, throw, ret.
  destruct (Nat.ltb_spec (length (Memory.data_ m)) (Z.to_nat address + size)); [discriminate|].
  rewrite orb_false_l. destruct (_ <? address); [discriminate|].
  intros [= <-]. simpl. split; [|reflexivity].
  apply length_memcpy_to. rewrite length_le_bytes. lia.
Qed.

(** The invariant of the specification is kept by every successful
    operation as long as the page count stays below the hard limit. *)
Lemma invariant_below_limit :
  (forall limits m, 0 <= min limits < 65536 -> Memory.Memory limits = Ok m ->
     Memory.size_invariant m) /\
  (forall m delta r m', Memory.size_invariant m -> Memory.limits_ok m -> 0 <= delta < 2 ^ 32 ->
     Memory.grow delta m = (r, m') -> Memory.current_pages_ m' < 65536 ->
     Memory.size_invariant m') /\
  (forall m offset bytes m', Memory.size_invariant m ->
     Memory.initialize offset bytes m = (Ok tt, m') -> Memory.size_invariant m') /\
  (forall m size address v m', Memory.size_invariant m ->
     Memory.store size address v m = (Ok tt, m') -> Memory.size_invariant m').
Proof.
  repeat split.
  - apply Memory_ctor_invariant.
  - intros. eapply grow_keeps_invariant; eauto.
  - intros m offset bytes m' Hinv H. apply initialize_keeps_length in H as [Hl Hp].
    unfold Memory.size_invariant in *. by rewrite Hl, Hp.
  - intros m size address v m' Hinv H. apply store_keeps_length in H as [Hl Hp].
    unfold Memory.size_invariant in *. by rewrite Hl, Hp.
Qed.

(** C3: the invariant [len(data) == current_pages * 65536] fails at the
    hard limit.  A memory constructed with [min = 65536] (which the
    constructor accepts) has 65536 pages and an empty byte array, because
    the byte count is computed as a 32-bit product. *)
Theorem C3_invariant_fails_at_hard_limit :
  exists m : Memory.t,
    Memory.Memory (Limits_min_only 65536) = Ok m /\
    Memory.size m = 65536 /\
    length (Memory.data_ m) = 0%nat /\
    ~ Memory.size_invariant m.
Proof.
  eexists. split; [reflexivity|]. split; [reflexivity|]. split; [reflexivity|].
  unfold Memory.size_invariant. simpl. discriminate.
Qed.

(** Whatever the memory holds, growing it to exactly 65536 pages succeeds
    and leaves an empty byte array. *)
Lemma grow_to_hard_limit_empties m delta :
  Memory.limits_ok m -> 0 < delta ->
  Memory.current_pages_ m + delta = 65536 ->
  (has_max (Memory.limits_ m) = true -> 65536 <= max (Memory.limits_ m)) ->
  Memory.grow delta m = (Ok (Memory.current_pages_ m), Memory.mkMemory [] (Memory.limits_ m) 65536).
Proof.
  intros Hok Hd Hnew Hmax. pose proof Hok as [Hp _]. unfold Memory.MAX_PAGES in Hp.
  rewrite grow_succeeds; try done.
  - destruct (Z.eqb_spec delta 0); [lia|]. rewrite Hnew, pages_to_bytes_limit, resize_0. reflexivity.
  - change (2 ^ 32) with 4294967296. lia.
  - unfold Memory.MAX_PAGES. lia.
  - intros Hm. specialize (Hmax Hm). lia.
Qed.

(** C7: on a memory of 0 pages without a declared maximum, [grow(65536)]
    succeeds (it returns the previous page count 0, and [size()] is then
    0 + 65536), but none of the 65536 * 65536 new bytes exists: the byte
    array stays empty and the first new byte cannot be read. *)
Theorem C7_grow_to_hard_limit_adds_no_bytes :
  exists m m' : Memory.t,
    Memory.Memory (Limits_min_only 0) = Ok m /\
    Memory.grow 65536 m = (Ok 0, m') /\
    Memory.size m' = 0 + 65536 /\
    Memory.data_ m' = [] /\
    Memory.loadU8 0 m' = (Throw (MemoryError "Memory access out of bounds"), m').
Proof.
  exists (Memory.mkMemory [] (Limits_min_only 0) 0).
  exists (Memory.mkMemory [] (Limits_min_only 0) 65536).
  repeat split; reflexivity.
Qed.

(** ** The LEB128 readers of the decoder *)

Lemma Decoder_readByte_spec d :
  Decoder.readByte d =
    match Decoder.buffer_ d !! Decoder.position_ d with
    | Some b => (Ok b, Decoder.mkDecoder (Decoder.buffer_ d) (S (Decoder.position_ d)))
    | None => (Throw (DecoderError None "Unexpected end of file"), d)
    end.
Proof.
  unfold Decoder.readByte, Decoder.ensureBytes, bind, get, put, ret, throw.
  destruct (Nat.ltb_spec (length (Decoder.buffer_ d)) (Decoder.position_ d + 1)) as [Hlt|Hge].
  - rewrite lookup_ge_None_2 by lia. reflexivity.
  - destruct (lookup_lt_is_Some_2 (Decoder.buffer_ d) (Decoder.position_ d)) as [b Hb]; [lia|].
    rewrite Hb. reflexivity.
Qed.










Lemma readVarInt_one_byte b : 0 <= b < 128 -> one_byte_sign_extended b = true.
Proof.
  intros Hb.
  assert (Hall : forallb one_byte_sign_extended (seqZ 0 128) = true) by (vm_compute; reflexivity).
  rewrite forallb_forall in Hall. apply Hall.
  apply list_elem_of_In, elem_of_seqZ. lia.
Qed.

Example readVarInt32_multi_byte :
  Decoder.readVarInt32 (Decoder.mkDecoder [0xC0; 0xBB; 0x78] 0) =
    (Ok (-123456), Decoder.mkDecoder [0xC0; 0xBB; 0x78] 3).
Proof. reflexivity. Qed.

Lemma bind_Decoder_readByte {B} (k : Z -> M Decoder.t B) d :
  bind Decoder.readByte k d =
    match Decoder.buffer_ d !! Decoder.position_ d with
    | Some b => k b (Decoder.mkDecoder (Decoder.buffer_ d) (S (Decoder.position_ d)))
    | None => (Throw (DecoderError None "Unexpected end of file"), d)
    end.
Proof.
  unfold bind at 1. rewrite Decoder_readByte_spec.
  by destruct (Decoder.buffer_ d !! Decoder.position_ d).
Qed.

(** The readers return or throw: the turns given to their loops are never
    used up. *)
Lemma Decoder_loops_total fuel : forall result shift d,
  (length (Decoder.buffer_ d) - Decoder.position_ d < fuel)%nat ->
  (forall b, fst (Decoder.readVarUint32_loop fuel result shift d) <> Exhausted b) /\
  (forall b, fst (Decoder.readVarUint64_loop fuel result shift d) <> Exhausted b) /\
  (forall b, fst (Decoder.readVarInt32_loop fuel result shift d) <> Exhausted b) /\
  (forall b, fst (Decoder.readVarInt64_loop fuel result shift d) <> Exhausted b).
Proof.
  induction fuel as [|fuel IH]; intros result shift d Hf; [lia|].
  simpl. rewrite !bind_Decoder_readByte.
  destruct (Decoder.buffer_ d !! Decoder.position_ d) as [b|] eqn:Hb; [|by repeat split].
  apply lookup_lt_Some in Hb.
  set (d' := Decoder.mkDecoder (Decoder.buffer_ d) (S (Decoder.position_ d))).
  assert (length (Decoder.buffer_ d') - Decoder.position_ d' < fuel)%nat as Hf' by (simpl; lia).
  repeat split; intros bu.
  - destruct (Z.land b 128 =? 0); simpl; [done|].
    destruct (shift + 7 >=? 35); [done|]. by apply IH.
  - destruct (Z.land b 128 =? 0); simpl; [done|].
    destruct (shift + 7 >=? 70); [done|]. by apply IH.
  - destruct (shift >=? 32); [done|].
    destruct (Z.land b 128 =? 0); simpl; [done|]. by apply IH.
  - destruct (shift >=? 64); [done|].
    destruct (Z.land b 128 =? 0); simpl; [done|]. by apply IH.
Qed.

Lemma Decoder_readers_total d b :
  fst (Decoder.readVarUint32 d) <> Exhausted b /\
  fst (Decoder.readVarUint64 d) <> Exhausted b /\
  fst (Decoder.readVarInt32 d) <> Exhausted b /\
  fst (Decoder.readVarInt64 d) <> Exhausted b.
Proof.
  assert (length (Decoder.buffer_ d) - Decoder.position_ d < Decoder.turns d)%nat as Hf
    by (unfold Decoder.turns; lia).
  destruct (Decoder_loops_total _ 0 0 d Hf) as (H1 & H2 & H3 & H4).
  repeat split.
  - apply H1.
  - apply H2.
  - unfold Decoder.readVarInt32, bind at 1, get, bind at 1.
    specialize (H3 b). clear H1 H2 H4.
    destruct (Decoder.readVarInt32_loop _ _ _ _) as [[[[r s] by_]| |] ?];
      simpl in *; [|discriminate|congruence].
    unfold lift_outcome, sign_extend. simpl. by repeat case_match.
  - unfold Decoder.readVarInt64, bind at 1, get, bind at 1.
    specialize (H4 b). clear H1 H2 H3.
    destruct (Decoder.readVarInt64_loop _ _ _ _) as [[[[r s] by_]| |] ?];
      simpl in *; [|discriminate|congruence].
    unfold lift_outcome, sign_extend. simpl. by repeat case_match.
Qed.

(** ** Floats: truncation and comparison with integer literals *)

Lemma shiftl_pos_nonneg m e : 0 <= Z.shiftl (Zpos m) e.
Proof. apply Z.shiftl_nonneg. lia. Qed.

(** [to_Z] discards the fractional part: its magnitude [q] is the
    integer with [q * 2^-e <= m < (q + 1) * 2^-e] when [e < 0], and
    [m * 2^e] otherwise. *)
Lemma to_Z_truncates s m e :
  let q := Z.abs (Float.to_Z (S754_finite s m e)) in
  (Float.to_Z (S754_finite s m e) <= 0 <-> s = true \/ q = 0) /\
  (0 <= e -> q = Zpos m * 2 ^ e) /\
  (e < 0 -> q * 2 ^ (- e) <= Zpos m < (q + 1) * 2 ^ (- e)).
Proof.
  cbv zeta. pose proof (shiftl_pos_nonneg m e) as Hn.
  assert (Z.abs (Float.to_Z (S754_finite s m e)) = Z.shiftl (Zpos m) e) as ->.
  { simpl. destruct s; lia. }
  split; [|split].
  - simpl. destruct s; split; intros H.
    + by left.
    + lia.
    + right. lia.
    + destruct H as [H|H]; [discriminate|lia].
  - intros He. by rewrite Z.shiftl_mul_pow2.
  - intros He. rewrite Z.shiftl_div_pow2 by lia.
    assert (0 < 2 ^ (- e)) as Hp by (apply Z.pow_pos_nonneg; lia).
    pose proof (Z.mul_div_le (Zpos m) (2 ^ (- e)) Hp).
    pose proof (Z.mul_succ_div_gt (Zpos m) (2 ^ (- e)) Hp). lia.
Qed.

Lemma to_Z_trunc a : Float.to_Z (Float.trunc a) = Float.to_Z a.
Proof.
  destruct a as [s|s| |s m e]; try reflexivity. simpl.
  destruct (Z.ltb_spec e 0) as [He|He]; [|reflexivity].
  pose proof (shiftl_pos_nonneg m e) as Hn.
  destruct (Z.shiftl (Zpos m) e) as [|p|p] eqn:Hq; simpl; try lia.
  - by destruct s.
  - by destruct s.
Qed.

Lemma trunc_finite_or_zero s m e :
  (exists s', Float.trunc (S754_finite s m e) = S754_zero s') \/
  (exists m' e', Float.trunc (S754_finite s m e) = S754_finite s m' e').
Proof.
  simpl. destruct (e <? 0); [|eauto]. destruct (Z.shiftl (Zpos m) e); eauto.
Qed.

Lemma static_cast_trunc lo hi a :
  Float.isnan a = false -> Float.isinf a = false ->
  Float.static_cast_int lo hi (Float.trunc a) =
    if (lo <=? Float.to_Z a) && (Float.to_Z a <=? hi) then Ok (Float.to_Z a)
    else Throw (Undefined "float-to-integer conversion out of range").
Proof.
  intros Hnan Hinf. rewrite <- (to_Z_trunc a).
  destruct a as [s|s| |s m e]; try discriminate; [reflexivity|].
  destruct (trunc_finite_or_zero s m e) as [[s' ->]|(m' & e' & ->)]; reflexivity.
Qed.

(** Comparison of a finite float with a positive integer literal. *)
Lemma ge_lit_pos s m e c :
  0 < c -> Float.ge (S754_finite s m e) (Float.lit c) = (c <=? Float.to_Z (S754_finite s m e)).
Proof.
  intros Hc. destruct c as [|c|c]; try lia.
  unfold Float.ge, Float.compare, Float.lit, Float.mantissa, Float.exponent, Float.to_Z.
  pose proof (shiftl_pos_nonneg m e) as Hn.
  destruct (Z_lt_dec e 0) as [He|He].
  - rewrite Z.min_l by lia. rewrite Z.sub_diag, Z.sub_0_l. change (2 ^ 0) with 1.
    assert (0 < 2 ^ (- e)) as Hp by (apply Z.pow_pos_nonneg; lia).
    rewrite Z.shiftl_div_pow2 in * by lia.
    destruct s.
    + rewrite Z.mul_1_r.
      destruct (Z.compare_spec (Z.neg m) (Z.pos c * 2 ^ (- e))); try nia.
      all: symmetry; apply Z.leb_gt; lia.
    + rewrite Z.mul_1_r.
      pose proof (Z.mul_div_le (Zpos m) (2 ^ (- e)) Hp).
      pose proof (Z.mul_succ_div_gt (Zpos m) (2 ^ (- e)) Hp).
      destruct (Z.compare_spec (Z.pos m) (Z.pos c * 2 ^ (- e)));
        destruct (Z.leb_spec (Z.pos c) (Z.pos m / 2 ^ (- e))); try reflexivity; nia.
  - rewrite Z.min_r by lia. rewrite Z.sub_0_r, Z.sub_diag. change (2 ^ 0) with 1.
    rewrite Z.shiftl_mul_pow2 in * by lia. rewrite Z.mul_1_r.
    destruct s.
    + destruct (Z.compare_spec (Z.neg m * 2 ^ e) (Z.pos c));
        destruct (Z.leb_spec (Z.pos c) (- (Z.pos m * 2 ^ e))); try reflexivity; lia.
    + destruct (Z.compare_spec (Z.pos m * 2 ^ e) (Z.pos c));
        destruct (Z.leb_spec (Z.pos c) (Z.pos m * 2 ^ e)); try reflexivity; lia.
Qed.

(** Comparison of a finite float with a negative integer literal. *)
Lemma le_lit_neg s m e c :
  c < 0 -> Float.le (S754_finite s m e) (Float.lit c) = (Float.to_Z (S754_finite s m e) <=? c).
Proof.
  intros Hc. destruct c as [|c|c]; try lia.
  unfold Float.le, Float.compare, Float.lit, Float.mantissa, Float.exponent, Float.to_Z.
  pose proof (shiftl_pos_nonneg m e) as Hn.
  destruct (Z_lt_dec e 0) as [He|He].
  - rewrite Z.min_l by lia. rewrite Z.sub_diag, Z.sub_0_l. change (2 ^ 0) with 1.
    assert (0 < 2 ^ (- e)) as Hp by (apply Z.pow_pos_nonneg; lia).
    rewrite Z.shiftl_div_pow2 in * by lia.
    destruct s.
    + rewrite Z.mul_1_r.
      pose proof (Z.mul_div_le (Zpos m) (2 ^ (- e)) Hp).
      pose proof (Z.mul_succ_div_gt (Zpos m) (2 ^ (- e)) Hp).
      destruct (Z.compare_spec (Z.neg m) (Z.neg c * 2 ^ (- e)));
        destruct (Z.leb_spec (- (Z.pos m / 2 ^ (- e))) (Z.neg c)); try reflexivity; nia.
    + rewrite Z.mul_1_r.
      destruct (Z.compare_spec (Z.pos m) (Z.neg c * 2 ^ (- e))); try nia.
      all: symmetry; apply Z.leb_gt; lia.
  - rewrite Z.min_r by lia. rewrite Z.sub_0_r, Z.sub_diag. change (2 ^ 0) with 1.
    rewrite Z.shiftl_mul_pow2 in * by lia. rewrite Z.mul_1_r.
    destruct s.
    + destruct (Z.compare_spec (Z.neg m * 2 ^ e) (Z.neg c));
        destruct (Z.leb_spec (- (Z.pos m * 2 ^ e)) (Z.neg c)); try reflexivity; lia.
    + destruct (Z.compare_spec (Z.pos m * 2 ^ e) (Z.neg c));
        destruct (Z.leb_spec (Z.pos m * 2 ^ e) (Z.neg c)); try reflexivity; lia.
Qed.

(** [a < 0.0] holds of the negative finite floats and of no zero. *)
Lemma lt_zero_finite s m e : Float.lt (S754_finite s m e) (Float.lit 0) = s.
Proof.
  unfold Float.lt, Float.compare, Float.lit, Float.mantissa, Float.exponent.
  assert (0 < 2 ^ (e - Z.min e 0)) as Hp by (apply Z.pow_pos_nonneg; lia).
  rewrite Z.mul_0_l.
  destruct s.
  - destruct (Z.compare_spec (Z.neg m * 2 ^ (e - Z.min e 0)) 0); try reflexivity; nia.
  - destruct (Z.compare_spec (Z.pos m * 2 ^ (e - Z.min e 0)) 0); try reflexivity; nia.
Qed.

Lemma lt_zero_zero s : Float.lt (S754_zero s) (Float.lit 0) = false.
Proof. reflexivity. Qed.

Lemma ge_zero_lit_pos s c : 0 < c -> Float.ge (S754_zero s) (Float.lit c) = false.
Proof. intros Hc. destruct c; try lia. reflexivity. Qed.

Lemma le_zero_lit_neg s c : c < 0 -> Float.le (S754_zero s) (Float.lit c) = false.
Proof. intros Hc. destruct c; try lia. reflexivity. Qed.

(** ** Saturating conversions *)

(** Signed destinations: the bounds are pushed as they are. *)
Lemma sat_shape_signed chi clo lo hi a :
  0 < chi -> clo < 0 -> chi = hi + 1 -> clo = lo \/ clo = lo - 1 ->
  sat_shape chi clo hi lo lo hi (fun o => o) a = Ok (Conv.saturate lo hi a).
Proof.
  intros Hchi Hclo Hhi Hlo. unfold sat_shape.
  destruct a as [s|s| |s m e].
  - rewrite ge_zero_lit_pos, le_zero_lit_neg by lia. simpl.
    destruct (Z.leb_spec lo 0); [|lia]. destruct (Z.leb_spec 0 hi); [|lia].
    simpl. f_equal. lia.
  - destruct chi as [|chi|chi]; try lia. destruct clo as [|clo|clo]; try lia.
    by destruct s.
  - reflexivity.
  - simpl Float.isnan. cbv iota. rewrite ge_lit_pos, le_lit_neg by lia.
    rewrite static_cast_trunc by reflexivity.
    set (v := Float.to_Z (S754_finite s m e)).
    change (Conv.saturate lo hi (S754_finite s m e)) with (Z.max lo (Z.min hi v)).
    destruct (Z.leb_spec chi v); [f_equal; lia|].
    destruct (Z.leb_spec v clo); [f_equal; lia|].
    destruct (Z.leb_spec lo v); [|lia]. destruct (Z.leb_spec v hi); [|lia].
    simpl. f_equal. lia.
Qed.

(** Unsigned destinations of width [w]: the value is pushed as the signed
    integer with the same bits, the maximum as [-1]. *)
Lemma sat_shape_unsigned w chi a :
  0 < w -> chi = 2 ^ w ->
  sat_shape chi (-1) (-1) 0 0 (2 ^ w - 1) (Conv.cast w) a =
    Ok (signed w (Conv.saturate 0 (2 ^ w - 1) a)).
Proof.
  intros Hw ->. unfold sat_shape.
  assert (0 < 2 ^ w) as Hp by (apply Z.pow_pos_nonneg; lia).
  assert (2 ^ w = 2 * 2 ^ (w - 1)) as Hp2.
  { replace w with (Z.succ (w - 1)) at 1 by lia. apply Z.pow_succ_r. lia. }
  assert (signed w (2 ^ w - 1) = -1) as Hmax.
  { unfold signed. rewrite Z.mod_small by lia.
    destruct (Z.ltb_spec (2 ^ w - 1) (2 ^ (w - 1))); lia. }
  assert (signed w 0 = 0) as Hzero.
  { unfold signed. rewrite Z.mod_0_l by lia.
    destruct (Z.ltb_spec 0 (2 ^ (w - 1))); lia. }
  destruct a as [s|s| |s m e].
  - rewrite ge_zero_lit_pos, le_zero_lit_neg by lia. simpl.
    destruct (Z.leb_spec 0 (2 ^ w - 1)); [|lia].
    simpl. rewrite Z.min_r, Z.max_r by lia. reflexivity.
  - destruct (2 ^ w) as [|p|p] eqn:E; try lia.
    destruct s; simpl; [by rewrite Hzero|by rewrite Hmax].
  - simpl. by rewrite Hzero.
  - simpl Float.isnan. cbv iota. rewrite ge_lit_pos, le_lit_neg by lia.
    rewrite static_cast_trunc by reflexivity.
    set (v := Float.to_Z (S754_finite s m e)).
    change (Conv.saturate 0 (2 ^ w - 1) (S754_finite s m e)) with (Z.max 0 (Z.min (2 ^ w - 1) v)).
    destruct (Z.leb_spec (2 ^ w) v).
    { rewrite Z.min_l, Z.max_r by lia. by rewrite Hmax. }
    destruct (Z.leb_spec v (-1)).
    { rewrite Z.max_l by lia. by rewrite Hzero. }
    destruct (Z.leb_spec 0 v); [|lia]. destruct (Z.leb_spec v (2 ^ w - 1)); [|lia].
    simpl. rewrite Z.min_r, Z.max_r by lia. reflexivity.
Qed.

(** The four cases that pop an [f32] share the literals of type [float],
    the four that pop an [f64] those of type [double]. *)
Lemma saturating_from_f32 a :
  Conv.i32_trunc_sat_f32_s a = Ok (Conv.saturate INT32_MIN INT32_MAX a) /\
  Conv.i32_trunc_sat_f32_u a = Ok (signed 32 (Conv.saturate 0 UINT32_MAX a)) /\
  Conv.i64_trunc_sat_f32_s a = Ok (Conv.saturate INT64_MIN INT64_MAX a) /\
  Conv.i64_trunc_sat_f32_u a = Ok (signed 64 (Conv.saturate 0 UINT64_MAX a)).
Proof.
  repeat split.
  - apply (sat_shape_signed 2147483648 (-2147483648) INT32_MIN INT32_MAX);
      unfold INT32_MIN, INT32_MAX; lia.
  - apply (sat_shape_unsigned 32 4294967296); [lia|reflexivity].
  - apply (sat_shape_signed 9223372036854775808 (-9223372036854775808) INT64_MIN INT64_MAX);
      unfold INT64_MIN, INT64_MAX; lia.
  - apply (sat_shape_unsigned 64 18446744073709551616); [lia|reflexivity].
Qed.

Lemma saturating_from_f64 a :
  Conv.i32_trunc_sat_f64_s a = Ok (Conv.saturate INT32_MIN INT32_MAX a) /\
  Conv.i32_trunc_sat_f64_u a = Ok (signed 32 (Conv.saturate 0 UINT32_MAX a)) /\
  Conv.i64_trunc_sat_f64_s a = Ok (Conv.saturate INT64_MIN INT64_MAX a) /\
  Conv.i64_trunc_sat_f64_u a = Ok (signed 64 (Conv.saturate 0 UINT64_MAX a)).
Proof.
  repeat split.
  - apply (sat_shape_signed 2147483648 (-2147483649) INT32_MIN INT32_MAX);
      unfold INT32_MIN, INT32_MAX; lia.
  - apply (sat_shape_unsigned 32 4294967296); [lia|reflexivity].
  - apply (sat_shape_signed 9223372036854775808 (-9223372036854775808) INT64_MIN INT64_MAX);
      unfold INT64_MIN, INT64_MAX; lia.
  - apply (sat_shape_unsigned 64 18446744073709551616); [lia|reflexivity].
Qed.

Lemma wrap_signed w x : 0 < w -> wrap w (signed w x) = wrap w x.
Proof.
  intros Hw. unfold wrap, signed.
  assert (0 < 2 ^ w) as Hp by (apply Z.pow_pos_nonneg; lia).
  destruct (x mod 2 ^ w <? 2 ^ (w - 1)).
  - apply Z.mod_mod. lia.
  - rewrite <- (Z.mod_add _ 1) by lia.
    replace (x mod 2 ^ w - 2 ^ w + 1 * 2 ^ w) with (x mod 2 ^ w) by lia.
    apply Z.mod_mod. lia.
Qed.

Lemma on_stack_typed_pop pop tag view st s v :
  typed_pop_spec pop tag view -> stack_ st = s ++ [v] -> type v = tag ->
  on_stack pop st = (Ok (view (value v)), set_stack_ s st).
Proof.
  intros [_ Hsnoc] Hs Ht. unfold on_stack. rewrite Hs, Hsnoc, Ht, Z.eqb_refl. reflexivity.
Qed.

Lemma convert_ok pop decode f push tag view st s v r :
  typed_pop_spec pop tag view -> stack_ st = s ++ [v] -> type v = tag ->
  f (decode (view (value v))) = Ok r ->
  convert pop decode f push st =
    (let '(o, s') := push r s in (o, set_stack_ s' st)).
Proof.
  intros Hpop Hs Ht Hf. unfold convert. unfold bind at 1.
  rewrite (on_stack_typed_pop _ _ _ _ _ _ Hpop Hs Ht).
  unfold bind at 1, lift_outcome. rewrite Hf. unfold on_stack. simpl.
  by destruct (push r s).
Qed.

(** The instruction: with the sub-opcode read and an operand of the
    popped type on top, each of the eight saturating conversions replaces
    the operand by the saturated integer. *)
Lemma trunc_sat_instruction_total (executeConversionOther : Z -> M Interpreter unit)
    sub_opcode st st1 s v :
  readByte st = (Ok sub_opcode, st1) -> 0 <= sub_opcode <= 7 ->
  stack_ st1 = s ++ [v] -> type v = sat_operand_type sub_opcode ->
  executeConversion executeConversionOther Opcode.PREFIX_FC st =
    (Ok tt, set_stack_ (s ++ [sat_result sub_opcode (value v)]) st1).
Proof.
  intros Hread Hsub Hs Ht.
  unfold executeConversion.
  repeat match goal with
         | |- context [Opcode.PREFIX_FC =? ?c] =>
             let b := eval vm_compute in (Opcode.PREFIX_FC =? c) in
             change (Opcode.PREFIX_FC =? c) with b; cbv iota
         end.
  unfold bind at 1. rewrite Hread.
  destruct (saturating_from_f32 (Float.f32_of_bits (Value_f32 (value v))))
    as (H0 & H1 & H4 & H5).
  destruct (saturating_from_f64 (Float.f64_of_bits (Value_f64 (value v))))
    as (H2 & H3 & H6 & H7).
  assert (sub_opcode = 0 \/ sub_opcode = 1 \/ sub_opcode = 2 \/ sub_opcode = 3 \/
          sub_opcode = 4 \/ sub_opcode = 5 \/ sub_opcode = 6 \/ sub_opcode = 7) as Hcases by lia.
  destruct Hcases as [-> | [-> | [-> | [-> | [-> | [-> | [-> | ->]]]]]]];
    repeat match goal with
           | |- context [?a =? ?b] =>
               let r := eval vm_compute in (a =? b) in change (a =? b) with r; cbv iota
           end;
    unfold f32_to_i32, f64_to_i32, f32_to_i64, f64_to_i64.
  - rewrite (convert_ok _ _ _ _ _ _ _ _ _ _ popF32_spec Hs Ht H0). reflexivity.
  - rewrite (convert_ok _ _ _ _ _ _ _ _ _ _ popF32_spec Hs Ht H1).
    unfold sat_result, Stack.pushI32, Stack.push, modify, makeI32. simpl.
    by rewrite wrap_signed.
  - rewrite (convert_ok _ _ _ _ _ _ _ _ _ _ popF64_spec Hs Ht H2). reflexivity.
  - rewrite (convert_ok _ _ _ _ _ _ _ _ _ _ popF64_spec Hs Ht H3).
    unfold sat_result, Stack.pushI32, Stack.push, modify, makeI32. simpl.
    by rewrite wrap_signed.
  - rewrite (convert_ok _ _ _ _ _ _ _ _ _ _ popF32_spec Hs Ht H4). reflexivity.
  - rewrite (convert_ok _ _ _ _ _ _ _ _ _ _ popF32_spec Hs Ht H5).
    unfold sat_result, Stack.pushI64, Stack.push, modify, makeI64. simpl.
    by rewrite wrap_signed.
  - rewrite (convert_ok _ _ _ _ _ _ _ _ _ _ popF64_spec Hs Ht H6). reflexivity.
  - rewrite (convert_ok _ _ _ _ _ _ _ _ _ _ popF64_spec Hs Ht H7).
    unfold sat_result, Stack.pushI64, Stack.push, modify, makeI64. simpl.
    by rewrite wrap_signed.
Qed.

(** The instruction itself, on 3e9 and on NaN: [i32.trunc_sat_f32_s]
    pushes [INT32_MAX] and 0. *)
Example trunc_sat_instruction :
  executeConversion unmodelled Opcode.PREFIX_FC
      (before_conversion [0xFC; 0x00] 1 [makeF32 0x4F32D05E]) =
    (Ok tt, before_conversion [0xFC; 0x00] 2 [makeI32 INT32_MAX]) /\
  executeConversion unmodelled Opcode.PREFIX_FC
      (before_conversion [0xFC; 0x00] 1 [makeF32 0x7FC00000]) =
    (Ok tt, before_conversion [0xFC; 0x00] 2 [makeI32 0]).
Proof. split; reflexivity. Qed.

Lemma saturate_cases lo hi a :
  lo <= hi ->
  Conv.saturate lo hi a =
    match a with
    | S754_nan => 0
    | S754_infinity true => lo
    | S754_infinity false => hi
    | _ => if Float.to_Z a <? lo then lo else if hi <? Float.to_Z a then hi else Float.to_Z a
    end.
Proof.
  intros Hle. unfold Conv.saturate.
  destruct a as [sg|[|]| |sg m e]; try reflexivity.
  - generalize (Float.to_Z (S754_zero sg)). intros z.
    destruct (Z.ltb_spec z lo); destruct (Z.ltb_spec hi z); lia.
  - generalize (Float.to_Z (S754_finite sg m e)). intros z.
    destruct (Z.ltb_spec z lo); destruct (Z.ltb_spec hi z); lia.
Qed.

(** A case whose body always yields a value can only fail in its typed
    pop. *)
Lemma convert_total pop decode f tag view (st : Interpreter) (make : Z -> TypedValue) :
  typed_pop_spec pop tag view ->
  (forall a, exists r, f a = Ok r) ->
  returns_or_stack_error (fst (convert pop decode f (fun r => Stack.push (make r)) st)).
Proof.
  intros [Hnil Hsnoc] Hf. unfold convert, bind, on_stack, lift_outcome.
  generalize (stack_ st). intros stk.
  destruct stk as [|v s _] using rev_ind.
  - rewrite Hnil. right. by eexists.
  - rewrite Hsnoc. destruct (type v =? tag).
    + destruct (Hf (decode (view (value v)))) as [r ->]. by left.
    + right. by eexists.
Qed.

(** Whatever the operand stack holds, none of the eight cases traps. *)
Lemma trunc_sat_instruction_never_traps (executeConversionOther : Z -> M Interpreter unit)
    sub_opcode st st1 :
  readByte st = (Ok sub_opcode, st1) -> 0 <= sub_opcode <= 7 ->
  returns_or_stack_error (fst (executeConversion executeConversionOther Opcode.PREFIX_FC st)).
Proof.
  intros Hread Hsub.
  unfold executeConversion.
  repeat match goal with
         | |- context [Opcode.PREFIX_FC =? ?c] =>
             let b := eval vm_compute in (Opcode.PREFIX_FC =? c) in
             change (Opcode.PREFIX_FC =? c) with b; cbv iota
         end.
  unfold bind at 1. rewrite Hread.
  assert (sub_opcode = 0 \/ sub_opcode = 1 \/ sub_opcode = 2 \/ sub_opcode = 3 \/
          sub_opcode = 4 \/ sub_opcode = 5 \/ sub_opcode = 6 \/ sub_opcode = 7) as Hcases by lia.
  destruct Hcases as [-> | [-> | [-> | [-> | [-> | [-> | [-> | ->]]]]]]];
    repeat match goal with
           | |- context [?a =? ?b] =>
               let r := eval vm_compute in (a =? b) in change (a =? b) with r; cbv iota
           end;
    unfold f32_to_i32, f64_to_i32, f32_to_i64, f64_to_i64.
  - apply (convert_total _ _ _ _ _ _ makeI32 popF32_spec).
    intros a. destruct (saturating_from_f32 a) as (-> & _). by eexists.
  - apply (convert_total _ _ _ _ _ _ makeI32 popF32_spec).
    intros a. destruct (saturating_from_f32 a) as (_ & -> & _). by eexists.
  - apply (convert_total _ _ _ _ _ _ makeI32 popF64_spec).
    intros a. destruct (saturating_from_f64 a) as (-> & _). by eexists.
  - apply (convert_total _ _ _ _ _ _ makeI32 popF64_spec).
    intros a. destruct (saturating_from_f64 a) as (_ & -> & _). by eexists.
  - apply (convert_total _ _ _ _ _ _ makeI64 popF32_spec).
    intros a. destruct (saturating_from_f32 a) as (_ & _ & -> & _). by eexists.
  - apply (convert_total _ _ _ _ _ _ makeI64 popF32_spec).
    intros a. destruct (saturating_from_f32 a) as (_ & _ & _ & ->). by eexists.
  - apply (convert_total _ _ _ _ _ _ makeI64 popF64_spec).
    intros a. destruct (saturating_from_f64 a) as (_ & _ & -> & _). by eexists.
  - apply (convert_total _ _ _ _ _ _ makeI64 popF64_spec).
    intros a. destruct (saturating_from_f64 a) as (_ & _ & _ & ->). by eexists.
Qed.

(** The dispatch of [executeInstruction] on the opcode byte 0xFC: the
    byte is consumed and [executeConversion] runs. *)
Lemma executeInstruction_prefix_FC
    (executeMemory executeNumeric executeConversionOther callee : Z -> M Interpreter unit)
    (st : Interpreter) :
  code_ st !! pc_ st = Some Opcode.PREFIX_FC ->
  (pc_ st < code_size_ st)%nat ->
  executeInstruction executeMemory executeNumeric executeConversionOther callee st =
    executeConversion executeConversionOther Opcode.PREFIX_FC (set_pc_ (S (pc_ st)) st).
Proof.
  intros Hop Hsize.
  unfold executeInstruction. unfold bind at 1, get.
  destruct (Nat.leb_spec (code_size_ st) (pc_ st)); [lia|].
  unfold bind at 1, put. unfold code_byte. rewrite Hop.
  change (default 0 (Some Opcode.PREFIX_FC)) with Opcode.PREFIX_FC.
  repeat match goal with
         | |- context [Opcode.isControlFlowInstruction Opcode.PREFIX_FC] =>
             change (Opcode.isControlFlowInstruction Opcode.PREFIX_FC) with false; cbv iota
         | |- context [Opcode.isMemoryInstruction Opcode.PREFIX_FC] =>
             change (Opcode.isMemoryInstruction Opcode.PREFIX_FC) with false; cbv iota
         | |- context [(?a =? ?b) || (?c =? ?d)] =>
             let r := eval vm_compute in ((a =? b) || (c =? d)) in
             change ((a =? b) || (c =? d)) with r; cbv iota
         | |- context [(?a <=? ?b) && (?c <=? ?d)] =>
             let r := eval vm_compute in ((a <=? b) && (c <=? d)) in
             change ((a <=? b) && (c <=? d)) with r; cbv iota
         | |- context [Opcode.PREFIX_FC =? 252] =>
             change (Opcode.PREFIX_FC =? 252) with true; cbv iota
         end.
  reflexivity.
Qed.

(** C8: the eight saturating conversions are total as instructions and
    never trap.  At the opcode byte 0xFC followed by a sub-opcode
    0x00 .. 0x07, with an operand of the source type on top of the stack,
    [executeInstruction] returns normally for every float the operand can
    hold (NaN and the infinities included): it moves [pc_] behind the two
    bytes and replaces the operand by the saturated integer of the
    destination type, throwing nothing.  On any other operand stack the
    instruction fails in its typed pop with a [StackError]: whatever the
    stack holds, it throws no [Trap].  The saturated integer is 0 for NaN,
    the minimum of the destination range (0 for the unsigned variants)
    for every value below it, the maximum for every value above it, and
    the truncation toward zero otherwise; an unsigned result is stored by
    its bit pattern. *)
Theorem C8_saturating_conversions_total :
  forall (executeMemory executeNumeric executeConversionOther : Z -> M Interpreter unit)
         (callee : Z -> M Interpreter unit)
         (st : Interpreter) (sub_opcode : Z) (s : Stack.t) (v : TypedValue),
    0 <= sub_opcode <= 7 ->
    code_ st !! pc_ st = Some Opcode.PREFIX_FC ->
    code_ st !! S (pc_ st) = Some sub_opcode ->
    (S (pc_ st) < code_size_ st)%nat ->
    stack_ st = s ++ [v] ->
    type v = sat_operand_type sub_opcode ->
    executeInstruction executeMemory executeNumeric executeConversionOther callee st =
      (Ok tt, set_stack_ (s ++ [sat_result sub_opcode (value v)])
                (set_pc_ (pc_ st + 2) st)) /\
    (forall stack : Stack.t,
       returns_or_stack_error
         (fst (executeInstruction executeMemory executeNumeric executeConversionOther callee
                 (set_stack_ stack st))) /\
       is_trap
         (fst (executeInstruction executeMemory executeNumeric executeConversionOther callee
                 (set_stack_ stack st))) = false) /\
    (forall lo hi a, lo <= hi ->
       Conv.saturate lo hi a =
         match a with
         | S754_nan => 0
         | S754_infinity true => lo
         | S754_infinity false => hi
         | _ => if Float.to_Z a <? lo then lo
                else if hi <? Float.to_Z a then hi else Float.to_Z a
         end).
Proof.
  intros eM eN eO callee st sub_opcode s v Hsub Hop Hsubop Hsize Hs Ht.
  assert (forall st', code_ st' = code_ st -> pc_ st' = pc_ st ->
            code_size_ st' = code_size_ st ->
            readByte (set_pc_ (S (pc_ st')) st') =
              (Ok sub_opcode, set_pc_ (S (S (pc_ st'))) st')) as Hread.
  { intros st' Hc Hp Hz.
    unfold readByte, bind, get, put, ret, throw. cbn [code_size_ pc_ code_ set_pc_].
    rewrite Hc, Hp, Hz.
    destruct (Nat.leb_spec (code_size_ st) (S (pc_ st))); [lia|]. by rewrite Hsubop. }
  split; [|split; [|apply saturate_cases]].
  - rewrite executeInstruction_prefix_FC by (done || lia).
    rewrite (trunc_sat_instruction_total eO sub_opcode _ _ s v
               (Hread st eq_refl eq_refl eq_refl) Hsub Hs Ht).
    replace (pc_ st + 2)%nat with (S (S (pc_ st))) by lia. reflexivity.
  - intros stack.
    assert (returns_or_stack_error
              (fst (executeInstruction eM eN eO callee (set_stack_ stack st)))) as Hr.
    { rewrite executeInstruction_prefix_FC by (done || (simpl; lia)).
      apply (trunc_sat_instruction_never_traps eO sub_opcode _ _
               (Hread (set_stack_ stack st) eq_refl eq_refl eq_refl) Hsub). }
    split; [exact Hr|].
    destruct Hr as [-> | [msg ->]]; reflexivity.
Qed.

Lemma C8_witness :
  executeInstruction unmodelled unmodelled unmodelled unmodelled
      (before_conversion [0xFC; 0x00] 0 [makeF32 0x7FC00000]) =
    (Ok tt, set_stack_ ([] ++ [sat_result 0 (value (makeF32 0x7FC00000))])
              (set_pc_ (0 + 2) (before_conversion [0xFC; 0x00] 0 [makeF32 0x7FC00000]))) /\
  sat_result 0 (value (makeF32 0x7FC00000)) = makeI32 0.
Proof.
  split; [|reflexivity].
  apply (proj1 (C8_saturating_conversions_total unmodelled unmodelled unmodelled unmodelled
                  (before_conversion [0xFC; 0x00] 0 [makeF32 0x7FC00000]) 0 []
                  (makeF32 0x7FC00000) ltac:(lia) eq_refl eq_refl ltac:(simpl; lia)
                  eq_refl eq_refl)).
Defined.

(** ** Trapping conversions *)

(** The signed cases check for NaN and infinity only. *)
Lemma trunc_signed_spec a :
  let spec lo hi msg :=
    match a with
    | S754_nan | S754_infinity _ => Throw (Trap msg)
    | _ => if (lo <=? Float.to_Z a) && (Float.to_Z a <=? hi) then Ok (Float.to_Z a)
           else out_of_range
    end in
  Conv.i32_trunc_f32_s a = spec INT32_MIN INT32_MAX "Invalid conversion: f32 to i32"%string /\
  Conv.i32_trunc_f64_s a = spec INT32_MIN INT32_MAX "Invalid conversion: f64 to i32"%string /\
  Conv.i64_trunc_f32_s a = spec INT64_MIN INT64_MAX "Invalid conversion: f32 to i64"%string /\
  Conv.i64_trunc_f64_s a = spec INT64_MIN INT64_MAX "Invalid conversion: f64 to i64"%string.
Proof.
  cbv zeta.
  unfold Conv.i32_trunc_f32_s, Conv.i32_trunc_f64_s, Conv.i64_trunc_f32_s, Conv.i64_trunc_f64_s,
    Conv.to_int32, Conv.to_int64.
  destruct a as [s|s| |s m e]; try (repeat split; reflexivity);
    simpl Float.isnan; simpl Float.isinf; cbv iota; simpl orb; cbv iota;
    rewrite !static_cast_trunc by reflexivity; repeat split; reflexivity.
Qed.

(** The unsigned cases also trap on [a < 0], that is on every negative
    finite float (and on no zero). *)
Lemma trunc_unsigned_spec a :
  let spec w hi msg :=
    match a with
    | S754_nan | S754_infinity _ | S754_finite true _ _ => Throw (Trap msg)
    | _ => if Float.to_Z a <=? hi then Ok (signed w (Float.to_Z a)) else out_of_range
    end in
  Conv.i32_trunc_f32_u a = spec 32 UINT32_MAX "Invalid conversion: f32 to u32"%string /\
  Conv.i32_trunc_f64_u a = spec 32 UINT32_MAX "Invalid conversion: f64 to u32"%string /\
  Conv.i64_trunc_f32_u a = spec 64 UINT64_MAX "Invalid conversion: f32 to u64"%string /\
  Conv.i64_trunc_f64_u a = spec 64 UINT64_MAX "Invalid conversion: f64 to u64"%string.
Proof.
  cbv zeta.
  unfold Conv.i32_trunc_f32_u, Conv.i32_trunc_f64_u, Conv.i64_trunc_f32_u, Conv.i64_trunc_f64_u,
    Conv.to_uint32, Conv.to_uint64.
  destruct a as [s|s| |s m e]; try (repeat split; reflexivity).
  rewrite lt_zero_finite. simpl Float.isnan. simpl Float.isinf. simpl orb.
  destruct s; [repeat split; reflexivity|].
  rewrite !static_cast_trunc by reflexivity.
  pose proof (shiftl_pos_nonneg m e) as Hn.
  assert ((0 <=? Float.to_Z (S754_finite false m e)) = true) as -> by (simpl; lia).
  simpl andb. repeat split; destruct (_ <=? _); reflexivity.
Qed.

(** No conversion traps on a positive finite float, however large. *)
Lemma trunc_positive_finite_never_traps m e :
  let a := S754_finite false m e in
  is_trap (Conv.i32_trunc_f32_s a) = false /\ is_trap (Conv.i32_trunc_f32_u a) = false /\
  is_trap (Conv.i32_trunc_f64_s a) = false /\ is_trap (Conv.i32_trunc_f64_u a) = false /\
  is_trap (Conv.i64_trunc_f32_s a) = false /\ is_trap (Conv.i64_trunc_f32_u a) = false /\
  is_trap (Conv.i64_trunc_f64_s a) = false /\ is_trap (Conv.i64_trunc_f64_u a) = false.
Proof.
  cbv zeta.
  destruct (trunc_signed_spec (S754_finite false m e)) as (-> & -> & -> & ->).
  destruct (trunc_unsigned_spec (S754_finite false m e)) as (-> & -> & -> & ->).
  repeat split; repeat (destruct (_ <=? _); simpl); reflexivity.
Qed.

(** C4: a finite float whose truncation is outside the destination range
    does not trap.  For each of the eight instructions, on the floats 3e9
    and 5e9 (outside i32 and u32) and 2^63 and 2^64 (outside i64 and
    u64), the case reaches the [static_cast] with an unrepresentable
    value, which C++ leaves undefined, and throws no [Trap]. *)
Theorem C4_out_of_range_truncation_does_not_trap :
  Conv.i32_trunc_f32_s (Float.f32_of_bits 0x4F32D05E) = out_of_range /\
  Conv.i32_trunc_f32_u (Float.f32_of_bits 0x4F9502F9) = out_of_range /\
  Conv.i32_trunc_f64_s (Float.f64_of_bits 0x41E65A0BC0000000) = out_of_range /\
  Conv.i32_trunc_f64_u (Float.f64_of_bits 0x41F2A05F20000000) = out_of_range /\
  Conv.i64_trunc_f32_s (Float.f32_of_bits 0x5F000000) = out_of_range /\
  Conv.i64_trunc_f32_u (Float.f32_of_bits 0x5F800000) = out_of_range /\
  Conv.i64_trunc_f64_s (Float.f64_of_bits 0x43E0000000000000) = out_of_range /\
  Conv.i64_trunc_f64_u (Float.f64_of_bits 0x43F0000000000000) = out_of_range /\
  is_trap out_of_range = false.
Proof. repeat split; reflexivity. Qed.

(** The instruction itself: [i32.trunc_f32_s] on 3e9 pops the operand and
    reaches the undefined cast; on NaN it traps. *)
Example trunc_instruction :
  executeConversion unmodelled Opcode.I32_TRUNC_F32_S
      (before_conversion [0xA8] 1 [makeF32 0x4F32D05E]) =
    (Throw (Undefined "float-to-integer conversion out of range"),
     before_conversion [0xA8] 1 []) /\
  executeConversion unmodelled Opcode.I32_TRUNC_F32_S
      (before_conversion [0xA8] 1 [makeF32 0x7FC00000]) =
    (Throw (Trap "Invalid conversion: f32 to i32"), before_conversion [0xA8] 1 []).
Proof. split; reflexivity. Qed.

(** ** Frame lemmas of the interpreter *)

Lemma only_pc_refl st : only_pc st st.
Proof. by destruct st. Qed.

Lemma only_pc_trans st1 st2 st3 : only_pc st1 st2 -> only_pc st2 st3 -> only_pc st1 st3.
Proof. unfold only_pc. intros H1 H2. rewrite H2, H1. reflexivity. Qed.

Lemma only_pc_fields st st' :
  only_pc st st' ->
  module_ st' = module_ st /\ stack_ st' = stack_ st /\ call_stack_ st' = call_stack_ st /\
  memory_ st' = memory_ st /\ globals_ st' = globals_ st /\ locals_ st' = locals_ st /\
  code_ st' = code_ st /\ code_size_ st' = code_size_ st /\ labels_ st' = labels_ st.
Proof. unfold only_pc. intros ->. by repeat split. Qed.

Lemma readByte_only_pc st r st' : readByte st = (r, st') -> only_pc st st'.
Proof.
  unfold readByte, bind, get, put, ret, throw.
  destruct (code_size_ st <=? pc_ st)%nat.
  - intros [= <- <-]. apply only_pc_refl.
  - destruct (code_ st !! pc_ st); intros [= <- <-]; [reflexivity|apply only_pc_refl].
Qed.

Lemma bind_readByte {B} (k : Z -> M Interpreter B) st :
  bind readByte k st =
    match readByte st with
    | (Ok b, st1) => k b st1
    | (Throw e, st1) => (Throw e, st1)
    | (Exhausted b, st1) => (Exhausted b, st1)
    end.
Proof. reflexivity. Qed.

Lemma readVarUint32_loop_only_pc fuel : forall result shift st r st',
  readVarUint32_loop fuel result shift st = (r, st') -> only_pc st st'.
Proof.
  induction fuel as [|fuel IH]; intros result shift st r st'; simpl.
  - intros [= <- <-]. apply only_pc_refl.
  - rewrite bind_readByte. destruct (readByte st) as [[b|e|bu] st1] eqn:Hb;
      apply readByte_only_pc in Hb.
    + destruct (shift >=? 32); [intros [= <- <-]; exact Hb|].
      destruct (Z.land b 128 =? 0).
      * intros [= <- <-]. exact Hb.
      * intros H. apply IH in H. by eapply only_pc_trans.
    + intros [= <- <-]. exact Hb.
    + intros [= <- <-]. exact Hb.
Qed.

Lemma readVarUint32_only_pc st r st' : readVarUint32 st = (r, st') -> only_pc st st'.
Proof. unfold readVarUint32, bind at 1, get. apply readVarUint32_loop_only_pc. Qed.

Lemma on_stack_frame {A} (c : M Stack.t A) st r st' :
  on_stack c st = (r, st') -> st' = set_stack_ (stack_ st') st.
Proof.
  unfold on_stack. destruct (c (stack_ st)) as [r0 s]. intros [= <- <-]. reflexivity.
Qed.

Lemma on_stack_fields {A} (c : M Stack.t A) st r st' :
  on_stack c st = (r, st') ->
  module_ st' = module_ st /\ call_stack_ st' = call_stack_ st /\
  memory_ st' = memory_ st /\ globals_ st' = globals_ st /\ locals_ st' = locals_ st /\
  code_ st' = code_ st /\ code_size_ st' = code_size_ st /\ pc_ st' = pc_ st /\
  labels_ st' = labels_ st.
Proof. intros H. apply on_stack_frame in H. rewrite H. by repeat split. Qed.

(** ** Globals *)

(** C6 (as amended): [global.set] on a non-mutable global never traps
    and never changes a global.  For every state in which the immediate
    of the instruction decodes to the index of a global declared
    non-mutable: [setGlobal] throws the [InterpreterError] "Attempting to
    modify immutable global" and leaves the interpreter as it was; the
    instruction throws that [InterpreterError] when there is an operand to
    pop (the operand is popped by then), and the [StackError] "Stack
    underflow" when the operand stack is empty; in both cases the
    exception is not a [Trap] and the global values are those before the
    instruction. *)
Theorem C6_immutable_global_set_is_interpreter_error :
  forall (st st1 : Interpreter) (index : Z) (g : Global),
    readVarUint32 st = (Ok index, st1) ->
    0 <= index < Z.of_nat (length (globals_ st)) ->
    globals (module_ st) !! Z.to_nat index = Some g ->
    is_mutable g = false ->
    (forall v, setGlobal index v st =
       (Throw (InterpreterError "Attempting to modify immutable global"), st)) /\
    (forall s v, stack_ st = s ++ [v] ->
       executeVariable Opcode.GLOBAL_SET st =
         (Throw (InterpreterError "Attempting to modify immutable global"),
          set_stack_ s st1)) /\
    (stack_ st = [] ->
       executeVariable Opcode.GLOBAL_SET st = (Throw (StackError "Stack underflow"), st1)) /\
    is_trap (fst (executeVariable Opcode.GLOBAL_SET st)) = false /\
    globals_ (snd (executeVariable Opcode.GLOBAL_SET st)) = globals_ st.
Proof.
  intros st st1 index g Hread Hidx Hg Hmut.
  assert (Hset : forall v st2,
            globals_ st2 = globals_ st -> module_ st2 = module_ st ->
            setGlobal index v st2 =
              (Throw (InterpreterError "Attempting to modify immutable global"), st2)).
  { intros v st2 Hgl Hmo. unfold setGlobal, bind, get, throw. rewrite Hgl, Hmo.
    destruct (Z.leb_spec (Z.of_nat (length (globals_ st))) index); [lia|].
    rewrite Hg, Hmut. reflexivity. }
  assert (Hexec : executeVariable Opcode.GLOBAL_SET st =
            (v <- on_stack Stack.pop ;; setGlobal index v) st1).
  { unfold executeVariable. unfold bind at 1. rewrite Hread.
    change (Opcode.GLOBAL_SET =? Opcode.LOCAL_GET) with false.
    change (Opcode.GLOBAL_SET =? Opcode.LOCAL_SET) with false.
    change (Opcode.GLOBAL_SET =? Opcode.LOCAL_TEE) with false.
    change (Opcode.GLOBAL_SET =? Opcode.GLOBAL_GET) with false.
    change (Opcode.GLOBAL_SET =? Opcode.GLOBAL_SET) with true. reflexivity. }
  apply readVarUint32_only_pc, only_pc_fields in Hread.
  destruct Hread as (Hmo1 & Hst1 & _ & _ & Hgl1 & _).
  assert (Hsome : forall s v, stack_ st = s ++ [v] ->
            executeVariable Opcode.GLOBAL_SET st =
              (Throw (InterpreterError "Attempting to modify immutable global"),
               set_stack_ s st1)).
  { intros s v Hs. rewrite Hexec. unfold bind, on_stack.
    assert (Stack.pop (s ++ [v]) = (Ok v, s)) as Hpop.
    { unfold Stack.pop, Stack.checkNotEmpty, Stack.back, Stack.pop_back,
        bind, get, ret, throw, modify.
      rewrite empty_snoc, last_snoc. simpl. by rewrite removelast_last. }
    rewrite Hst1, Hs, Hpop. apply Hset; simpl; congruence. }
  assert (Hnone : stack_ st = [] ->
            executeVariable Opcode.GLOBAL_SET st =
              (Throw (StackError "Stack underflow"), st1)).
  { intros Hs. rewrite Hexec. unfold bind, on_stack. rewrite Hst1, Hs. simpl.
    rewrite Hs in Hst1. destruct st1; simpl in *. by rewrite Hst1. }
  split; [intros v; by apply Hset|]. split; [exact Hsome|]. split; [exact Hnone|].
  destruct (stack_ st) as [|v s _] eqn:Hs using rev_ind.
  - rewrite (Hnone eq_refl). simpl. split; [reflexivity|congruence].
  - rewrite (Hsome s v eq_refl). simpl. split; [reflexivity|congruence].
Qed.

Lemma C6_witness :
  executeVariable Opcode.GLOBAL_SET (immutable_global_state 1 [makeI32 9]) =
    (Throw (InterpreterError "Attempting to modify immutable global"),
     immutable_global_state 2 []) /\
  executeVariable Opcode.GLOBAL_SET (immutable_global_state 1 []) =
    (Throw (StackError "Stack underflow"), immutable_global_state 2 []) /\
  globals_ (snd (executeVariable Opcode.GLOBAL_SET (immutable_global_state 1 [makeI32 9])))
    = [makeI32 5].
Proof.
  pose proof (C6_immutable_global_set_is_interpreter_error
                (immutable_global_state 1 [makeI32 9])
                (immutable_global_state 2 [makeI32 9])
                0 (mkGlobal I32 false [0x41; 0x05; 0x0B])
                eq_refl ltac:(simpl; lia) eq_refl eq_refl) as (_ & H & _ & _ & Hg).
  pose proof (C6_immutable_global_set_is_interpreter_error
                (immutable_global_state 1 [])
                (immutable_global_state 2 [])
                0 (mkGlobal I32 false [0x41; 0x05; 0x0B])
                eq_refl ltac:(simpl; lia) eq_refl eq_refl) as (_ & _ & H0 & _ & _).
  split; [exact (H [] (makeI32 9) eq_refl)|]. split; [exact (H0 eq_refl)|exact Hg].
Defined.

(** C6 (as first stated) fails: the exception of [global.set] on an
    immutable global is not a [Trap]. *)
Lemma C6_counterexample :
  ~ exists msg, fst (executeVariable Opcode.GLOBAL_SET (immutable_global_state 1 [makeI32 9]))
                = Throw (Trap msg).
Proof. intros [msg H]. vm_compute in H. discriminate. Qed.

(** ** Labels and branches *)

Lemma Stack_pop_snoc (s : Stack.t) v : Stack.pop (s ++ [v]) = (Ok v, s).
Proof.
  unfold Stack.pop, Stack.checkNotEmpty, Stack.back, Stack.pop_back, bind, get, ret, throw, modify.
  rewrite empty_snoc, last_snoc. simpl. by rewrite removelast_last.
Qed.

(** The unwinding loop keeps the bottom [target_height] values. *)
Lemma unwind_take fuel : forall (s : Stack.t) target_height,
  (length s < fuel)%nat -> unwind fuel target_height s = (Ok tt, take target_height s).
Proof.
  induction fuel as [|fuel IH]; intros s h Hf; [lia|]. simpl. unfold bind at 1, get.
  unfold Stack.size.
  destruct (Nat.ltb_spec h (length s)) as [Hlt|Hge].
  - destruct s as [|v s _] using rev_ind; [simpl in Hlt; lia|].
    rewrite length_app in Hf, Hlt. simpl in Hf, Hlt.
    unfold bind. rewrite Stack_pop_snoc. rewrite IH by lia.
    rewrite take_app_le by lia. reflexivity.
  - unfold ret. by rewrite take_ge.
Qed.

(** What [branch] does: parts (a) and (c) of the specification hold; the
    operand stack is cut down to its bottom [stack_height + arity]
    values, whatever was on top. *)
Lemma branch_spec st depth label :
  0 <= depth < Z.of_nat (length (labels_ st)) ->
  labels_ st !! (length (labels_ st) - 1 - Z.to_nat depth)%nat = Some label ->
  branch depth st =
    (Ok tt,
     set_labels_
       (take (if is_loop label then (length (labels_ st) - 1 - Z.to_nat depth + 1)%nat
              else (length (labels_ st) - 1 - Z.to_nat depth)%nat) (labels_ st))
       (set_stack_ (take (stack_height label + arity label) (stack_ st))
          (set_pc_ (target_pc label) st))).
Proof.
  intros Hd Hl. unfold branch. unfold bind at 1, get.
  destruct (Z.leb_spec (Z.of_nat (length (labels_ st))) depth); [lia|].
  rewrite Hl. unfold bind, modify, on_stack.
  rewrite unwind_take by (simpl; lia).
  destruct (is_loop label); reflexivity.
Qed.

(** When nothing lies above the results, the top [arity] values are the
    ones that remain. *)
Lemma branch_exact_height st depth label :
  0 <= depth < Z.of_nat (length (labels_ st)) ->
  labels_ st !! (length (labels_ st) - 1 - Z.to_nat depth)%nat = Some label ->
  length (stack_ st) = (stack_height label + arity label)%nat ->
  stack_ (snd (branch depth st)) = stack_ st.
Proof.
  intros Hd Hl Hlen. rewrite (branch_spec _ _ _ Hd Hl). simpl.
  apply take_ge. lia.
Qed.

Lemma branch_out_of_range st depth :
  Z.of_nat (length (labels_ st)) <= depth ->
  branch depth st = (Throw (InterpreterError "Branch depth out of range"), st).
Proof.
  intros Hd. unfold branch, bind, get, throw.
  destruct (Z.leb_spec (Z.of_nat (length (labels_ st))) depth); [reflexivity|lia].
Qed.

(** The three branch instructions all end in [branch]. *)
Lemma branch_instructions (callee : Z -> M Interpreter unit) :
  executeControlFlow callee Opcode.BR = (depth <- readVarUint32 ;; branch depth) /\
  executeControlFlow callee Opcode.BR_IF =
    (depth <- readVarUint32 ;;
     condition <- on_stack Stack.popI32 ;;
     if negb (condition =? 0) then branch depth else ret tt) /\
  executeControlFlow callee Opcode.BR_TABLE =
    (label_count <- readVarUint32 ;;
     labels <- read_labels (Z.to_nat label_count) ;;
     default_label <- readVarUint32 ;;
     index <- on_stack Stack.popI32 ;;
     branch (if (index <? 0) || (label_count <=? wrap 32 index) then default_label
             else default 0 (labels !! Z.to_nat index))).
Proof. repeat split; reflexivity. Qed.

(** C1: [branch] does not preserve the top [arity] values.  With the
    stack [1; 2] above a block label of height 0 and arity 1, [br 0]
    jumps to the label's target and removes the label, but leaves 1 on
    the stack, not the top value 2; the function that contains the
    branch returns 1. *)
Theorem C1_branch_keeps_bottom_values_not_top :
  branch 0 at_br =
    (Ok tt,
     mkInterpreter block_br_module [makeI32 1] [] None [] [] block_br_body 10 9 []) /\
  last (stack_ at_br) = Some (makeI32 2) /\
  stack_ (snd (branch 0 at_br)) <> [makeI32 2] /\
  stack_ (snd (run_function 1 20 0 (instantiated block_br_module))) = [makeI32 1] /\
  fst (run_function 1 20 0 (instantiated block_br_module)) = Ok tt.
Proof.
  split; [reflexivity|]. split; [reflexivity|]. split; [discriminate|].
  split; reflexivity.
Qed.

(** ** Calls *)

Lemma bind_Ok {S A B} (c : M S A) (k : A -> M S B) s b s' :
  bind c k s = (Ok b, s') -> exists a s1, c s = (Ok a, s1) /\ k a s1 = (Ok b, s').
Proof.
  unfold bind. destruct (c s) as [[a|e|bu] s1]; [eauto|discriminate|discriminate].
Qed.

Lemma call_and_restore_frame (callee : Z -> M Interpreter unit) func_index st st' :
  call_and_restore callee func_index st = (Ok tt, st') -> same_call_frame st st'.
Proof.
  unfold call_and_restore, bind, get, modify.
  destruct (callee func_index st) as [[u|e|b] st1]; [|discriminate|discriminate].
  intros [= <-]. by repeat split.
Qed.

Section CallFrame.

Variable executeMemory executeNumeric executeConversionOther : Z -> M Interpreter unit.
Variable executeWASIFdWrite : M Interpreter unit.

Let callee (depth steps : nat) : Z -> M Interpreter unit :=
  execute executeMemory executeNumeric executeConversionOther executeWASIFdWrite depth steps.

Lemma CALL_restores depth steps st st' :
  executeControlFlow (callee depth steps) Opcode.CALL st = (Ok tt, st') ->
  exists st_imm, call_immediates Opcode.CALL st = (Ok tt, st_imm) /\ same_call_frame st_imm st' /\
                 only_pc st st_imm.
Proof.
  change (executeControlFlow (callee depth steps) Opcode.CALL)
    with (func_index <- readVarUint32 ;; call_and_restore (callee depth steps) func_index).
  intros H. apply bind_Ok in H as (func_index & st1 & Hread & Hcall).
  exists st1. split; [|split].
  - unfold call_immediates. change (Opcode.CALL =? Opcode.CALL) with true. cbv iota.
    unfold bind. rewrite Hread. reflexivity.
  - by eapply call_and_restore_frame.
  - by eapply readVarUint32_only_pc.
Qed.

Lemma CALL_INDIRECT_restores depth steps st st' :
  executeControlFlow (callee depth steps) Opcode.CALL_INDIRECT st = (Ok tt, st') ->
  exists st_imm, call_immediates Opcode.CALL_INDIRECT st = (Ok tt, st_imm) /\
                 same_call_frame st_imm st' /\ only_pc st st_imm.
Proof.
  unfold executeControlFlow.
  repeat match goal with
         | |- context [Opcode.CALL_INDIRECT =? ?c] =>
             let b := eval vm_compute in (Opcode.CALL_INDIRECT =? c) in
             change (Opcode.CALL_INDIRECT =? c) with b; cbv iota
         end.
  intros H. apply bind_Ok in H as (type_index & st1 & Hread & H).
  apply bind_Ok in H as (reserved & st2 & Hres & H).
  exists st2.
  assert (only_pc st st2) as Hpc.
  { eapply only_pc_trans; [by eapply readVarUint32_only_pc|by eapply readByte_only_pc]. }
  split; [|split; [|exact Hpc]].
  { unfold call_immediates. change (Opcode.CALL_INDIRECT =? Opcode.CALL) with false. cbv iota.
    unfold bind. rewrite Hread, Hres. reflexivity. }
  destruct (negb (reserved =? 0)); [discriminate|].
  apply bind_Ok in H as (elem_index & st3 & Hpop & H).
  apply on_stack_fields in Hpop as (_ & _ & _ & _ & Hlo & Hco & Hcs & Hp & Hla).
  destruct (elem_index <? 0); [discriminate|].
  apply bind_Ok in H as (st3' & st3'' & Hget & H). injection Hget as <- <-.
  apply bind_Ok in H as (found & st4 & Hfound & H).
  unfold lift_outcome in Hfound. injection Hfound as _ <-.
  destruct found as [func_index|]; [|discriminate].
  destruct (getFunctionType _ _) as [func_type|]; [|discriminate].
  destruct (types _ !! _) as [expected_type|]; [|discriminate].
  repeat (match type of H with (if ?c then _ else _) _ = _ => destruct c; [discriminate|] end).
  apply call_and_restore_frame in H. unfold same_call_frame in *.
  rewrite <- Hlo, <- Hco, <- Hcs, <- Hp, <- Hla. exact H.
Qed.

End CallFrame.

(** ** What a call may change *)

Lemma keeps_refl st : keeps st st.
Proof. by split. Qed.

Lemma keeps_trans st1 st2 st3 : keeps st1 st2 -> keeps st2 st3 -> keeps st1 st3.
Proof. intros [H1 H2] [H3 H4]. split; congruence. Qed.

Lemma framed_ret {A} (a : A) : framed (ret a).
Proof. intros st r st' [= <- <-]. apply keeps_refl. Qed.

Lemma framed_throw {A} e : framed (@throw Interpreter A e).
Proof. intros st r st' [= <- <-]. apply keeps_refl. Qed.

Lemma framed_get : framed (@get Interpreter).
Proof. intros st r st' [= <- <-]. apply keeps_refl. Qed.

Lemma framed_lift_outcome {A} (o : outcome A) : framed (lift_outcome o).
Proof. intros st r st' [= <- <-]. apply keeps_refl. Qed.

Lemma framed_exhausted {A} b : framed (fun st : Interpreter => (@Exhausted A b, st)).
Proof. intros st r st' [= <- <-]. apply keeps_refl. Qed.

Lemma framed_bind {A B} (c : M Interpreter A) (k : A -> M Interpreter B) :
  framed c -> (forall a, framed (k a)) -> framed (bind c k).
Proof.
  intros Hc Hk st r st'. unfold bind.
  destruct (c st) as [[a|e|b] st1] eqn:E; apply Hc in E.
  - intros H. apply Hk in H. by eapply keeps_trans.
  - by intros [= <- <-].
  - by intros [= <- <-].
Qed.

Lemma framed_modify (f : Interpreter -> Interpreter) :
  (forall st, keeps st (f st)) -> framed (modify f).
Proof. intros Hf st r st' [= <- <-]. apply Hf. Qed.

(** [put] of a state derived from the current one. *)
Lemma framed_get_put {B} (f : Interpreter -> Interpreter) (k : Interpreter -> M Interpreter B) :
  (forall st, keeps st (f st)) -> (forall st, framed (k st)) ->
  framed (st <- get ;; put (f st) ;;; k st).
Proof.
  intros Hf Hk st r st'. unfold bind, get, put. intros H. apply Hk in H.
  eapply keeps_trans; [apply Hf|exact H].
Qed.

Lemma framed_on_stack {A} (c : M Stack.t A) : framed (on_stack c).
Proof. intros st r st' H. apply on_stack_fields in H. split; tauto. Qed.

Lemma framed_only_pc {A} (c : M Interpreter A) :
  (forall st r st', c st = (r, st') -> only_pc st st') -> framed c.
Proof. intros Hc st r st' H. apply Hc, only_pc_fields in H. split; tauto. Qed.

Lemma framed_readByte : framed readByte.
Proof. apply framed_only_pc, readByte_only_pc. Qed.

Lemma framed_readVarUint32 : framed readVarUint32.
Proof. apply framed_only_pc, readVarUint32_only_pc. Qed.

Ltac framed_step :=
  match goal with
  | |- framed (bind _ _) => apply framed_bind; [|intros ?]
  | |- framed (ret _) => apply framed_ret
  | |- framed (throw _) => apply framed_throw
  | |- framed get => apply framed_get
  | |- framed (lift_outcome _) => apply framed_lift_outcome
  | |- framed (on_stack _) => apply framed_on_stack
  | |- framed readByte => apply framed_readByte
  | |- framed readVarUint32 => apply framed_readVarUint32
  | |- framed (modify _) => apply framed_modify; intros ?; (split; reflexivity)
  | |- framed (fun _ => (Exhausted _, _)) => apply framed_exhausted
  | |- framed (if ?c then _ else _) => destruct c
  | |- framed (match ?x with _ => _ end) => destruct x
  | |- framed (let '(_, _) := ?x in _) => destruct x
  end.

Ltac framed_auto := repeat framed_step.

Lemma framed_readVarInt_loop w fuel : forall result shift,
  framed (readVarInt_loop w fuel result shift).
Proof.
  induction fuel as [|fuel IH]; intros result shift; simpl; framed_auto. apply IH.
Qed.

Lemma framed_readVarInt w : framed (readVarInt w).
Proof. unfold readVarInt. framed_auto. apply framed_readVarInt_loop. Qed.

Lemma framed_readFloat n : framed (readFloat n).
Proof.
  intros st r st'. unfold readFloat, bind, get, put, ret, throw.
  destruct (_ <? _)%nat; intros [= <- <-]; (split; reflexivity).
Qed.

Lemma framed_setLocal index v : framed (setLocal index v).
Proof.
  intros st r st'. unfold setLocal, bind, get, put, throw.
  destruct (_ <=? _); intros [= <- <-]; (split; reflexivity).
Qed.

Lemma framed_getLocal index : framed (getLocal index).
Proof. unfold getLocal. framed_auto. Qed.

Lemma framed_setGlobal index v : framed (setGlobal index v).
Proof.
  intros st r st'. unfold setGlobal, bind, get, put, throw.
  destruct (_ <=? _); [intros [= <- <-]; (split; reflexivity)|].
  destruct (_ !! _) as [g|]; [|intros [= <- <-]; (split; reflexivity)].
  destruct (negb _); intros [= <- <-]; (split; reflexivity).
Qed.

Lemma framed_getGlobal index : framed (getGlobal index).
Proof. unfold getGlobal. framed_auto. Qed.

Lemma framed_pushLabel a b c d : framed (pushLabel a b c d).
Proof. unfold pushLabel. framed_auto. Qed.

Lemma framed_popLabel : framed popLabel.
Proof. apply framed_modify. intros st. destruct (bool_decide _); (split; reflexivity). Qed.

Lemma framed_branch depth : framed (branch depth).
Proof. unfold branch. framed_auto. Qed.

Lemma framed_findMatchingEnd pc : framed (findMatchingEnd pc).
Proof. unfold findMatchingEnd. framed_auto. Qed.

Lemma framed_findMatchingElseAndEnd pc : framed (findMatchingElseAndEnd pc).
Proof. unfold findMatchingElseAndEnd. framed_auto. Qed.

Lemma framed_executeParametric opcode : framed (executeParametric opcode).
Proof. unfold executeParametric. framed_auto. Qed.

Lemma framed_executeVariable opcode : framed (executeVariable opcode).
Proof.
  unfold executeVariable. framed_auto;
    first [apply framed_getLocal | apply framed_setLocal
          | apply framed_getGlobal | apply framed_setGlobal].
Qed.

Lemma framed_executeNumericConst opcode : framed (executeNumericConst opcode).
Proof.
  unfold executeNumericConst, readVarInt32, readVarInt64, readF32, readF64.
  framed_auto; first [apply framed_readVarInt | apply framed_readFloat].
Qed.

Section ExecuteFrame.

Variable executeMemory executeNumeric executeConversionOther : Z -> M Interpreter unit.
Variable executeWASIFdWrite : M Interpreter unit.

Hypothesis framed_executeMemory : forall opcode, framed (executeMemory opcode).
Hypothesis framed_executeNumeric : forall opcode, framed (executeNumeric opcode).
Hypothesis framed_executeConversionOther : forall opcode, framed (executeConversionOther opcode).
Hypothesis framed_executeWASIFdWrite : framed executeWASIFdWrite.

Lemma framed_executeConversion opcode :
  framed (executeConversion executeConversionOther opcode).
Proof.
  unfold executeConversion, f32_to_i32, f64_to_i32, f32_to_i64, f64_to_i64, convert.
  framed_auto. apply framed_executeConversionOther.
Qed.

Lemma framed_read_labels n : framed (read_labels n).
Proof. induction n as [|n IH]; simpl; framed_auto. exact IH. Qed.

Lemma framed_call_and_restore callee func_index :
  (forall f, framed (callee f)) -> framed (call_and_restore callee func_index).
Proof. intros Hc. unfold call_and_restore. framed_auto. apply Hc. Qed.

Lemma framed_executeControlFlow callee opcode :
  (forall f, framed (callee f)) -> framed (executeControlFlow callee opcode).
Proof.
  intros Hc. unfold executeControlFlow.
  framed_auto;
    first [ apply framed_findMatchingEnd | apply framed_findMatchingElseAndEnd
          | apply framed_pushLabel | apply framed_popLabel | apply framed_branch
          | apply framed_read_labels | by apply framed_call_and_restore ].
Qed.

Lemma framed_executeInstruction callee :
  (forall f, framed (callee f)) ->
  framed (executeInstruction executeMemory executeNumeric executeConversionOther callee).
Proof.
  intros Hc st r st'. unfold executeInstruction. unfold bind at 1, get.
  destruct (_ <=? _)%nat; [intros [= <- <-]; apply keeps_refl|].
  unfold bind at 1, put. intros H.
  enough (keeps (set_pc_ (S (pc_ st)) st) st') as Hk by exact Hk.
  revert H. generalize (set_pc_ (S (pc_ st)) st) as st1. generalize (code_byte (code_ st) (pc_ st)) as opcode.
  intros opcode st1. revert st1 r st'.
  change (framed
    (if Opcode.isControlFlowInstruction opcode then executeControlFlow callee opcode
     else if (opcode =? Opcode.DROP) || (opcode =? Opcode.SELECT) then executeParametric opcode
     else if (Opcode.LOCAL_GET <=? opcode) && (opcode <=? Opcode.GLOBAL_SET)
     then executeVariable opcode
     else if Opcode.isMemoryInstruction opcode then executeMemory opcode
     else if (Opcode.I32_CONST <=? opcode) && (opcode <=? Opcode.F64_CONST)
     then executeNumericConst opcode
     else if (Opcode.I32_WRAP_I64 <=? opcode) && (opcode <=? Opcode.F64_REINTERPRET_I64)
     then executeConversion executeConversionOther opcode
     else if opcode =? 0xFC then executeConversion executeConversionOther opcode
     else if Opcode.isNumericInstruction opcode then executeNumeric opcode
     else throw (InterpreterError ("Unknown or unimplemented opcode: " ++ to_string opcode)%string))).
  framed_auto;
    first [ by apply framed_executeControlFlow | apply framed_executeParametric
          | apply framed_executeVariable | apply framed_executeMemory
          | apply framed_executeNumericConst | apply framed_executeConversion
          | apply framed_executeNumeric ].
Qed.

Lemma framed_pop_params i : framed (pop_params i).
Proof. induction i as [|i IH]; simpl; framed_auto. exact IH. Qed.

Lemma framed_init_locals tys : forall param_count i, framed (init_locals param_count i tys).
Proof. induction tys as [|ty tys IH]; intros pc i; simpl; framed_auto. apply IH. Qed.

Lemma framed_run steps body : framed body -> framed (run steps body).
Proof.
  intros Hb. induction steps as [|steps IH]; intros st r st'; simpl.
  - destruct (_ <? _)%nat; intros [= <- <-]; apply keeps_refl.
  - destruct (_ <? _)%nat; [|intros [= <- <-]; apply keeps_refl].
    apply framed_bind; [exact Hb|intros _; exact IH].
Qed.

Lemma framed_execute_activation callee steps func_index :
  (forall f, framed (callee f)) ->
  framed (execute_activation executeMemory executeNumeric executeConversionOther
                             executeWASIFdWrite callee steps func_index).
Proof.
  intros Hc. unfold execute_activation.
  apply framed_bind; [apply framed_get|intros st0].
  framed_auto;
    first [ apply framed_executeWASIFdWrite | apply framed_pop_params
          | apply framed_init_locals | idtac ].
  by apply framed_run, framed_executeInstruction.
Qed.

Lemma framed_execute depth : forall steps func_index,
  framed (execute executeMemory executeNumeric executeConversionOther executeWASIFdWrite
                  depth steps func_index).
Proof.
  induction depth as [|depth IH]; intros steps func_index; simpl.
  - apply framed_exhausted.
  - apply framed_execute_activation. intros f. apply IH.
Qed.

End ExecuteFrame.

(** C9: when a [call] or [call_indirect] returns normally, the caller's
    program counter is the position after the instruction's immediates,
    and its bytecode, bytecode length, locals and label stack are those
    from before the call; the module and the call-stack member are
    untouched as well, so that only the operand stack, the globals and
    the memory may differ.  (The instruction categories that are
    parameters of the model are assumed not to assign the module or the
    call stack, as in the sources.) *)
Theorem C9_call_restores_caller_frame :
  forall (executeMemory executeNumeric executeConversionOther : Z -> M Interpreter unit)
         (executeWASIFdWrite : M Interpreter unit),
    (forall opcode, framed (executeMemory opcode)) ->
    (forall opcode, framed (executeNumeric opcode)) ->
    (forall opcode, framed (executeConversionOther opcode)) ->
    framed executeWASIFdWrite ->
    forall (depth steps : nat) (opcode : Z) (st st' : Interpreter),
      opcode = Opcode.CALL \/ opcode = Opcode.CALL_INDIRECT ->
      executeControlFlow
        (execute executeMemory executeNumeric executeConversionOther executeWASIFdWrite
                 depth steps) opcode st = (Ok tt, st') ->
      (exists st_imm, call_immediates opcode st = (Ok tt, st_imm) /\ pc_ st' = pc_ st_imm) /\
      code_ st' = code_ st /\ code_size_ st' = code_size_ st /\
      locals_ st' = locals_ st /\ labels_ st' = labels_ st /\
      module_ st' = module_ st /\ call_stack_ st' = call_stack_ st.
Proof.
  intros eM eN eC eW HM HN HC HW depth steps opcode st st' Hop Hrun.
  assert (keeps st st') as [Hmod Hcs].
  { eapply framed_executeControlFlow; [|exact Hrun].
    intros f. by apply framed_execute. }
  assert (exists st_imm, call_immediates opcode st = (Ok tt, st_imm) /\
                         same_call_frame st_imm st' /\ only_pc st st_imm)
    as (st_imm & Himm & (Hpc & Hco & Hsz & Hlo & Hla) & Honly).
  { destruct Hop as [-> | ->].
    - by eapply CALL_restores.
    - by eapply CALL_INDIRECT_restores. }
  apply only_pc_fields in Honly as (_ & _ & _ & _ & _ & Hlo' & Hco' & Hsz' & Hla').
  split; [by exists st_imm|].
  repeat split; congruence.
Qed.

Lemma framed_unmodelled opcode : framed (unmodelled opcode).
Proof. apply framed_throw. Qed.

Lemma framed_no_fd_write : framed no_fd_write.
Proof. apply framed_throw. Qed.

Lemma C9_witness :
  executeControlFlow (run_function 3 20) Opcode.CALL (in_caller [0x10; 0x01; 0x0B] 1 []) =
    (Ok tt, in_caller [0x10; 0x01; 0x0B] 2 [makeI32 7]) /\
  locals_ (in_caller [0x10; 0x01; 0x0B] 2 [makeI32 7]) =
    locals_ (in_caller [0x10; 0x01; 0x0B] 1 []) /\
  labels_ (in_caller [0x10; 0x01; 0x0B] 2 [makeI32 7]) =
    labels_ (in_caller [0x10; 0x01; 0x0B] 1 []).
Proof.
  assert (executeControlFlow (run_function 3 20) Opcode.CALL (in_caller [0x10; 0x01; 0x0B] 1 []) =
          (Ok tt, in_caller [0x10; 0x01; 0x0B] 2 [makeI32 7])) as Hrun by reflexivity.
  split; [exact Hrun|].
  pose proof (C9_call_restores_caller_frame unmodelled unmodelled unmodelled no_fd_write
                framed_unmodelled framed_unmodelled framed_unmodelled framed_no_fd_write
                3 20 Opcode.CALL _ _ (or_introl eq_refl) Hrun)
    as (_ & _ & _ & Hlo & Hla & _).
  split; [exact Hlo|exact Hla].
Defined.

Example call_indirect_restores :
  executeControlFlow (run_function 3 20) Opcode.CALL_INDIRECT
      (in_caller [0x11; 0x00; 0x00; 0x0B] 1 [makeI32 0]) =
    (Ok tt, in_caller [0x11; 0x00; 0x00; 0x0B] 3 [makeI32 7]).
Proof. reflexivity. Qed.

Lemma self_call_instruction (callee : Z -> M Interpreter unit) stk cs mem gl :
  executeInstruction unmodelled unmodelled unmodelled callee (in_self_call 0 stk cs mem gl) =
  call_and_restore callee 0 (in_self_call 2 stk cs mem gl).
Proof. reflexivity. Qed.

Lemma self_call_activation (callee : Z -> M Interpreter unit) steps stk cs mem gl lo co sz pc la :
  execute_activation unmodelled unmodelled unmodelled no_fd_write callee (S steps) 0
    (mkInterpreter self_recursive_module stk cs mem gl lo co sz pc la) =
  (executeInstruction unmodelled unmodelled unmodelled callee ;;;
   run steps (executeInstruction unmodelled unmodelled unmodelled callee))
    (in_self_call 0 stk cs mem gl).
Proof. reflexivity. Qed.

Lemma self_recursion_exhausts depth : forall steps st,
  module_ st = self_recursive_module ->
  fst (run_function depth (S steps) 0 st) = Exhausted Nesting /\
  call_stack_ (snd (run_function depth (S steps) 0 st)) = call_stack_ st.
Proof.
  induction depth as [|depth IH]; intros steps st Hmod; [by split|].
  destruct st as [m stk cs mem gl lo co sz pc la]. simpl in Hmod. subst m.
  destruct (IH steps (in_self_call 2 stk cs mem gl) eq_refl) as [Hr Hcs].
  destruct (run_function depth (S steps) 0 (in_self_call 2 stk cs mem gl)) as [r st'] eqn:E.
  simpl in Hr, Hcs. subst r.
  assert (run_function (S depth) (S steps) 0
            (mkInterpreter self_recursive_module stk cs mem gl lo co sz pc la) =
          (Exhausted Nesting, st')) as ->.
  { change (run_function (S depth) (S steps) 0)
      with (execute_activation unmodelled unmodelled unmodelled no_fd_write
              (run_function depth (S steps)) (S steps) 0).
    rewrite self_call_activation. unfold bind at 1.
    rewrite self_call_instruction. unfold call_and_restore. unfold bind at 1, get.
    unfold bind at 1. rewrite E. reflexivity. }
  split; [reflexivity|exact Hcs].
Qed.

(** C2: the interpreter enforces no nesting depth.  For the function
    [(func (call 0))], which calls itself and does nothing else, and for
    every number [depth] of nested activations the model may open (1024,
    1025, any), execution opens all of them and throws nothing: it ends
    only because the model's own budget is used up, with the call-stack
    member still empty.  The limit of 1024 exists in [CallStack::push]
    alone, which the interpreter never calls (and which throws a
    [StackError], not a [Trap]). *)
Theorem C2_self_recursion_is_not_bounded :
  (forall depth steps : nat,
     fst (run_function depth (S steps) 0 (instantiated self_recursive_module))
       = Exhausted Nesting /\
     call_stack_ (snd (run_function depth (S steps) 0 (instantiated self_recursive_module)))
       = []) /\
  (forall (s : CallStack.t) (frame : CallStack.CallFrame),
     CallStack.push frame s =
       if (1024 <=? length s)%nat
       then (Throw (StackError "Call stack overflow: maximum depth exceeded"), s)
       else (Ok tt, s ++ [frame])).
Proof.
  split.
  - intros depth steps. by apply self_recursion_exhausts.
  - intros s frame. unfold CallStack.push, CallStack.checkDepthLimit, bind, get, modify, throw, ret.
    unfold CallStack.MAX_DEPTH. by destruct (1024 <=? length s)%nat.
Qed.

(** ** Further properties of the operand stack and the call stack *)

Lemma signed_wrap w x : signed w (wrap w x) = signed w x.
Proof. unfold signed, wrap. by rewrite Zmod_mod. Qed.

Lemma signed_in_range w x : 0 < w -> - 2 ^ (w - 1) <= x < 2 ^ (w - 1) -> signed w x = x.
Proof.
  intros Hw H. unfold signed.
  assert (2 ^ w = 2 * 2 ^ (w - 1)) as Hp.
  { replace w with (Z.succ (w - 1)) at 1 by lia. apply Z.pow_succ_r. lia. }
  destruct (Z_lt_dec x 0) as [Hneg|Hpos].
  - assert (x mod 2 ^ w = x + 2 ^ w) as ->.
    { symmetry. apply (Z.mod_unique_pos _ _ (-1)); lia. }
    destruct (Z.ltb_spec (x + 2 ^ w) (2 ^ (w - 1))); lia.
  - rewrite Z.mod_small by lia.
    destruct (Z.ltb_spec x (2 ^ (w - 1))); lia.
Qed.

Lemma Stack_push_pop (s : Stack.t) v : (Stack.push v ;;; Stack.pop) s = (Ok v, s).
Proof.
  unfold Stack.push, Stack.pop, Stack.checkNotEmpty, Stack.back, Stack.pop_back,
    bind, get, ret, throw, modify.
  rewrite empty_snoc, last_snoc. simpl. by rewrite removelast_last.
Qed.

Lemma typed_push_pop pop tag view (s : Stack.t) payload :
  typed_pop_spec pop tag view ->
  (Stack.push (mkTypedValue tag payload) ;;; pop) s = (Ok (view payload), s).
Proof.
  intros [_ Hsnoc]. unfold Stack.push, bind, modify. rewrite Hsnoc. simpl.
  by rewrite Z.eqb_refl.
Qed.

(** X1: the operand stack is last-in first-out, and a typed push followed
    by the matching typed pop gives the value back, reduced to the width of
    its type, and restores the stack: [pushI32 x; popI32()] returns the
    two's complement reading of the low 32 bits of [x] (so [x] itself when
    it is an [int32_t]), and likewise for the other three types. *)
Theorem X1_push_pop_round_trip (s : Stack.t) :
  (forall v, (Stack.push v ;;; Stack.pop) s = (Ok v, s)) /\
  (forall x, (Stack.pushI32 x ;;; Stack.popI32) s = (Ok (signed 32 x), s)) /\
  (forall x, (Stack.pushI64 x ;;; Stack.popI64) s = (Ok (signed 64 x), s)) /\
  (forall bits, (Stack.pushF32 bits ;;; Stack.popF32) s = (Ok (wrap 32 bits), s)) /\
  (forall bits, (Stack.pushF64 bits ;;; Stack.popF64) s = (Ok (wrap 64 bits), s)) /\
  (forall x, INT32_MIN <= x <= INT32_MAX -> (Stack.pushI32 x ;;; Stack.popI32) s = (Ok x, s)) /\
  (forall x, INT64_MIN <= x <= INT64_MAX -> (Stack.pushI64 x ;;; Stack.popI64) s = (Ok x, s)).
Proof.
  assert (H32 : forall x, (Stack.pushI32 x ;;; Stack.popI32) s = (Ok (signed 32 x), s)).
  { intros x. unfold Stack.pushI32, makeI32.
    rewrite (typed_push_pop _ _ _ _ _ popI32_spec). unfold Value_i32. by rewrite signed_wrap. }
  assert (H64 : forall x, (Stack.pushI64 x ;;; Stack.popI64) s = (Ok (signed 64 x), s)).
  { intros x. unfold Stack.pushI64, makeI64.
    rewrite (typed_push_pop _ _ _ _ _ popI64_spec). unfold Value_i64. by rewrite signed_wrap. }
  repeat split.
  - intros v. apply Stack_push_pop.
  - exact H32.
  - exact H64.
  - intros bits. unfold Stack.pushF32, makeF32.
    rewrite (typed_push_pop _ _ _ _ _ popF32_spec). unfold Value_f32, wrap.
    by rewrite Zmod_mod.
  - intros bits. unfold Stack.pushF64, makeF64.
    rewrite (typed_push_pop _ _ _ _ _ popF64_spec). unfold Value_f64, wrap.
    by rewrite Zmod_mod.
  - intros x Hx. rewrite H32. rewrite signed_in_range; [done|lia|].
    unfold INT32_MIN, INT32_MAX in Hx. change (32 - 1) with 31. lia.
  - intros x Hx. rewrite H64. rewrite signed_in_range; [done|lia|].
    unfold INT64_MIN, INT64_MAX in Hx. change (64 - 1) with 63. lia.
Qed.

Lemma peek_typed_agrees peek pop tag view :
  (forall s, peek s = (Stack.checkNotEmpty ;;; Stack.checkType tag ;;;
                       top <- Stack.back ;; ret (view (value top))) s) ->
  typed_pop_spec pop tag view ->
  forall s, fst (peek s) = fst (pop s) /\ snd (peek s) = s.
Proof.
  intros Hpeek [Hnil Hsnoc] s. rewrite Hpeek.
  destruct s as [|v s _] using rev_ind.
  - rewrite Hnil. by split.
  - rewrite Hsnoc.
    unfold Stack.checkNotEmpty, Stack.checkType, Stack.back, bind, get, ret, throw.
    rewrite empty_snoc, last_snoc. simpl.
    destruct (type v =? tag); simpl; rewrite ?last_snoc; by split.
Qed.

(** X2: the peeks read without removing.  [peek] and the four typed peeks
    return what the matching pop would return, the same error included
    (underflow, type mismatch), and leave the stack as it was;
    [peek(depth)] counts from the top and throws "Invalid stack depth"
    exactly when [depth >= size()]. *)
Theorem X2_peek_reads_without_removing (s : Stack.t) :
  (fst (Stack.peek s) = fst (Stack.pop s) /\ snd (Stack.peek s) = s) /\
  (fst (Stack.peekI32 s) = fst (Stack.popI32 s) /\ snd (Stack.peekI32 s) = s) /\
  (fst (Stack.peekI64 s) = fst (Stack.popI64 s) /\ snd (Stack.peekI64 s) = s) /\
  (fst (Stack.peekF32 s) = fst (Stack.popF32 s) /\ snd (Stack.peekF32 s) = s) /\
  (fst (Stack.peekF64 s) = fst (Stack.popF64 s) /\ snd (Stack.peekF64 s) = s) /\
  (forall depth,
     Stack.peek_at depth s =
       (match reverse s !! depth with
        | Some v => Ok v
        | None => Throw (StackError "Invalid stack depth")
        end, s)).
Proof.
  split; [|split; [|split; [|split; [|split]]]].
  - unfold Stack.peek, Stack.pop, Stack.checkNotEmpty, Stack.back, Stack.pop_back,
      bind, get, ret, throw, modify.
    destruct s as [|v s _] using rev_ind; [by split|].
    rewrite empty_snoc, !last_snoc. simpl. by rewrite ?last_snoc.
  - by apply (peek_typed_agrees _ _ _ _ (fun _ => eq_refl) popI32_spec).
  - by apply (peek_typed_agrees _ _ _ _ (fun _ => eq_refl) popI64_spec).
  - by apply (peek_typed_agrees _ _ _ _ (fun _ => eq_refl) popF32_spec).
  - by apply (peek_typed_agrees _ _ _ _ (fun _ => eq_refl) popF64_spec).
  - intros depth. unfold Stack.peek_at, Stack.checkDepth, Stack.size, bind, get, ret, throw.
    destruct (Nat.leb_spec (length s) depth) as [Hge|Hlt].
    + rewrite (proj2 (lookup_ge_None (reverse s) depth)); [done|]. rewrite length_reverse. lia.
    + rewrite reverse_lookup by lia.
      replace (length s - S depth)%nat with (length s - 1 - depth)%nat by lia.
      destruct (lookup_lt_is_Some_2 s (length s - 1 - depth)%nat ltac:(lia)) as [v E].
      unfold Stack.t in *. by rewrite !E.
Qed.

Lemma CallStack_push_spec (s : CallStack.t) frame :
  CallStack.push frame s =
    if (1024 <=? length s)%nat
    then (Throw (StackError "Call stack overflow: maximum depth exceeded"), s)
    else (Ok tt, s ++ [frame]).
Proof.
  unfold CallStack.push, CallStack.checkDepthLimit, bind, get, modify, throw, ret.
  unfold CallStack.MAX_DEPTH. by destruct (1024 <=? length s)%nat.
Qed.

Lemma CallStack_pop_nil : CallStack.pop [] = (Throw (StackError "Call stack underflow"), []).
Proof. reflexivity. Qed.

Lemma CallStack_pop_snoc (s : CallStack.t) frame : CallStack.pop (s ++ [frame]) = (Ok frame, s).
Proof.
  unfold CallStack.pop, CallStack.checkNotEmpty, bind, get, put, throw, ret.
  rewrite bool_decide_eq_false_2.
  - rewrite last_snoc. simpl. by rewrite removelast_last.
  - intros H. apply (f_equal length) in H. rewrite length_app in H. simpl in H. lia.
Qed.

(** X3: the call stack is last-in first-out below its limit: a frame
    pushed on fewer than 1024 frames is the one [pop] and [top] return,
    [pop] restores the frames below and [top] removes nothing; on an empty
    call stack both throw the StackError "Call stack underflow" and leave
    it empty. *)
Theorem X3_call_stack_is_lifo :
  (forall (s : CallStack.t) frame, (length s < 1024)%nat ->
     (CallStack.push frame ;;; CallStack.pop) s = (Ok frame, s) /\
     (CallStack.push frame ;;; CallStack.top) s = (Ok frame, s ++ [frame])) /\
  CallStack.pop [] = (Throw (StackError "Call stack underflow"), []) /\
  CallStack.top [] = (Throw (StackError "Call stack underflow"), []).
Proof.
  split; [|by split].
  intros s frame Hlt.
  split; unfold bind at 1; rewrite CallStack_push_spec;
    (destruct (Nat.leb_spec 1024 (length s)); [lia|]); [apply CallStack_pop_snoc|].
  unfold CallStack.top, CallStack.checkNotEmpty, bind, get, throw, ret.
  rewrite bool_decide_eq_false_2.
  - by rewrite last_snoc.
  - intros H'. apply (f_equal length) in H'. rewrite length_app in H'. simpl in H'. lia.
Qed.

Lemma apply_call_op_bound s o :
  (length s <= 1024)%nat -> (length (apply_call_op s o) <= 1024)%nat.
Proof.
  intros Hs. destruct o as [frame|]; simpl.
  - rewrite CallStack_push_spec. destruct (Nat.leb_spec 1024 (length s)); simpl; [done|].
    rewrite length_app. simpl. lia.
  - destruct s as [|frame s _] using rev_ind; [by rewrite CallStack_pop_nil|].
    rewrite CallStack_pop_snoc. simpl. rewrite length_app in Hs. lia.
Qed.

(** X4: the depth limit is an invariant of the call stack: whatever
    sequence of pushes and pops is applied to an empty call stack, failed
    ones included, it never holds more than [MAX_DEPTH] = 1024 frames; a
    push on 1024 frames throws and adds nothing. *)
Theorem X4_call_stack_depth_is_bounded :
  (forall ops : list call_op,
     (CallStack.size (foldl apply_call_op [] ops) <= CallStack.MAX_DEPTH)%nat) /\
  (forall (s : CallStack.t) frame, CallStack.size s = CallStack.MAX_DEPTH ->
     CallStack.push frame s =
       (Throw (StackError "Call stack overflow: maximum depth exceeded"), s)).
Proof.
  unfold CallStack.size, CallStack.MAX_DEPTH. split.
  - intros ops.
    assert (forall s, (length s <= 1024)%nat ->
              (length (foldl apply_call_op s ops) <= 1024)%nat) as H.
    { induction ops as [|o ops IH]; intros s Hs; simpl; [done|].
      apply IH. by apply apply_call_op_bound. }
    apply H. simpl. lia.
  - intros s frame Hs. rewrite CallStack_push_spec, Hs. reflexivity.
Qed.

(** ** Further properties of linear memory *)

Lemma le_value_le_bytes size v :
  Memory.le_value (Memory.le_bytes size v) = v mod 256 ^ Z.of_nat size.
Proof.
  revert v. induction size as [|n IH]; intros v.
  - simpl. by rewrite Z.mod_1_r.
  - cbn [Memory.le_bytes Memory.le_value]. rewrite IH.
    rewrite Nat2Z.inj_succ, Z.pow_succ_r by lia.
    rewrite Z.rem_mul_r by (try apply Z.pow_pos_nonneg; lia). reflexivity.
Qed.

Lemma read_back_memcpy_to offset src (data : list Z) :
  (offset + length src <= length data)%nat ->
  take (length src) (drop offset (Memory.memcpy_to offset src data)) = src.
Proof.
  intros H. unfold Memory.memcpy_to.
  rewrite drop_app_length' by (rewrite length_take; lia).
  by rewrite take_app_length.
Qed.

Lemma lookup_memcpy_to_outside offset src (data : list Z) i :
  (offset + length src <= length data)%nat ->
  (i < offset \/ offset + length src <= i)%nat ->
  Memory.memcpy_to offset src data !! i = data !! i.
Proof.
  intros H Hi. unfold Memory.memcpy_to. destruct Hi as [Hi|Hi].
  - rewrite lookup_app_l by (rewrite length_take; lia). by apply lookup_take_lt.
  - rewrite lookup_app_r by (rewrite length_take; lia).
    rewrite length_take, lookup_app_r by lia.
    rewrite lookup_drop. f_equal. lia.
Qed.

Lemma lookup_memcpy_to_inside offset src (data : list Z) i :
  (offset + length src <= length data)%nat -> (i < length src)%nat ->
  Memory.memcpy_to offset src data !! (offset + i)%nat = src !! i.
Proof.
  intros H Hi. unfold Memory.memcpy_to.
  rewrite lookup_app_r by (rewrite length_take; lia).
  rewrite length_take, lookup_app_l by lia. f_equal. lia.
Qed.

(** The test of [checkAddress] on an address and a size of the sources'
    types: the overflow disjunct never decides. *)
Lemma checkAddress_spec m address size :
  0 <= address <= UINT32_MAX -> (size <= 8)%nat ->
  Memory.checkAddress address size m =
    if (length (Memory.data_ m) <? Z.to_nat address + size)%nat
    then (Throw (MemoryError "Memory access out of bounds"), m)
    else (Ok tt, m).
Proof.
  unfold UINT32_MAX. intros Ha Hs.
  unfold Memory.checkAddress, bind, get, throw, ret.
  destruct (length (Memory.data_ m) <? Z.to_nat address + size)%nat; [reflexivity|].
  rewrite orb_false_l.
  rewrite Z.mod_small by (change (2 ^ 64) with 18446744073709551616; lia).
  destruct (Z.ltb_spec (Z.of_nat (Z.to_nat address + size)) address); [lia|reflexivity].
Qed.

Lemma load_spec m address size :
  0 <= address <= UINT32_MAX -> (size <= 8)%nat ->
  Memory.load size address m =
    if (length (Memory.data_ m) <? Z.to_nat address + size)%nat
    then (Throw (MemoryError "Memory access out of bounds"), m)
    else (Ok (Memory.le_value (take size (drop (Z.to_nat address) (Memory.data_ m)))), m).
Proof.
  intros Ha Hs. unfold Memory.load. unfold bind at 1. rewrite checkAddress_spec by done.
  by destruct (length (Memory.data_ m) <? Z.to_nat address + size)%nat.
Qed.

Lemma store_spec m address size v :
  0 <= address <= UINT32_MAX -> (size <= 8)%nat ->
  Memory.store size address v m =
    if (length (Memory.data_ m) <? Z.to_nat address + size)%nat
    then (Throw (MemoryError "Memory access out of bounds"), m)
    else (Ok tt, Memory.mkMemory
                   (Memory.memcpy_to (Z.to_nat address) (Memory.le_bytes size v) (Memory.data_ m))
                   (Memory.limits_ m) (Memory.current_pages_ m)).
Proof.
  intros Ha Hs. unfold Memory.store. unfold bind at 1. rewrite checkAddress_spec by done.
  by destruct (length (Memory.data_ m) <? Z.to_nat address + size)%nat.
Qed.

(** X5: the constructor of a memory accepts the limits exactly when the
    initial size is at most 65536 pages and a declared maximum is at most
    65536 and not below the initial size; every refusal is a MemoryError.
    An accepted memory of fewer than 65536 pages has [size()] equal to the
    initial size and consists of that many pages of zero bytes. *)
Theorem X5_memory_constructor (limits : Limits) :
  ((exists m, Memory.Memory limits = Ok m) <->
   min limits <= 65536 /\
   (has_max limits = true -> max limits <= 65536 /\ min limits <= max limits)) /\
  (forall e, Memory.Memory limits = Throw e -> exists msg, e = MemoryError msg) /\
  (forall m, Memory.Memory limits = Ok m -> 0 <= min limits < 65536 ->
     Memory.size m = min limits /\ Memory.limits_ m = limits /\
     Memory.data_ m = replicate (Z.to_nat (min limits * 65536)) 0).
Proof.
  unfold Memory.Memory, Memory.MAX_PAGES.
  destruct (Z.gtb_spec (min limits) 65536) as [H1|H1].
  { split; [split|split].
    - intros [m [=]].
    - lia.
    - intros e [= <-]. eauto.
    - intros m [=]. }
  destruct (has_max limits) eqn:Hm; simpl.
  - destruct (Z.gtb_spec (max limits) 65536) as [H2|H2].
    { split; [split|split].
      - intros [m [=]].
      - intros [_ H]. specialize (H eq_refl). lia.
      - intros e [= <-]. eauto.
      - intros m [=]. }
    destruct (Z.gtb_spec (min limits) (max limits)) as [H3|H3].
    { split; [split|split].
      - intros [m [=]].
      - intros [_ H]. specialize (H eq_refl). lia.
      - intros e [= <-]. eauto.
      - intros m [=]. }
    split; [split|split].
    + intros _. split; [lia|]. intros _. lia.
    + intros _. eauto.
    + intros e [=].
    + intros m [= <-] Hmin. simpl. split; [done|]. split; [done|].
      rewrite resize_nil. f_equal. apply Nat2Z.inj.
      rewrite pages_to_bytes_small by lia. lia.
  - split; [split|split].
    + intros _. split; [lia|]. intros [=].
    + intros _. eauto.
    + intros e [=].
    + intros m [= <-] Hmin. simpl. split; [done|]. split; [done|].
      rewrite resize_nil. f_equal. apply Nat2Z.inj.
      rewrite pages_to_bytes_small by lia. lia.
Qed.

Lemma X5_witness :
  (exists m, Memory.Memory (Limits_min_max 1 2) = Ok m) /\
  Memory.size (Memory.mkMemory (resize (Memory.pages_to_bytes 1) 0 []) (Limits_min_max 1 2) 1) = 1.
Proof.
  split.
  - apply (proj1 (X5_memory_constructor (Limits_min_max 1 2))). simpl.
    split; [lia|]. intros _. lia.
  - apply (proj2 (proj2 (X5_memory_constructor (Limits_min_max 1 2))) _ eq_refl). simpl. lia.
Defined.

Lemma store_then_load (m : Memory.t) (size : nat) (address v : Z) :
  0 <= address <= UINT32_MAX -> (size <= 8)%nat ->
  (Z.to_nat address + size <= length (Memory.data_ m))%nat ->
  let m' := Memory.mkMemory
              (Memory.memcpy_to (Z.to_nat address) (Memory.le_bytes size v) (Memory.data_ m))
              (Memory.limits_ m) (Memory.current_pages_ m) in
  Memory.store size address v m = (Ok tt, m') /\
  Memory.load size address m' = (Ok (v mod 256 ^ Z.of_nat size), m').
Proof.
  intros Ha Hs Hfit m'. split.
  - rewrite store_spec by done.
    destruct (Nat.ltb_spec (length (Memory.data_ m)) (Z.to_nat address + size)); [lia|].
    reflexivity.
  - rewrite load_spec by done. unfold m'. cbn [Memory.data_].
    rewrite length_memcpy_to by (rewrite length_le_bytes; lia).
    destruct (Nat.ltb_spec (length (Memory.data_ m)) (Z.to_nat address + size)); [lia|].
    rewrite <- (length_le_bytes size v) at 1.
    rewrite read_back_memcpy_to by (rewrite length_le_bytes; lia).
    by rewrite le_value_le_bytes.
Qed.

(** X6: a store followed by a load of the same width at the same address
    reads the value back: the low [8 * size] bits of what was stored, for
    every width and every address at which the bytes fit.  The typed
    accessors follow: [loadI32] after [storeI32] returns the value as an
    [int32_t], [loadU32] its unsigned reading, and the same at 64 bits. *)
Theorem X6_store_load_round_trip (m : Memory.t) (size : nat) (address v : Z) :
  0 <= address <= UINT32_MAX -> (size <= 8)%nat ->
  (Z.to_nat address + size <= length (Memory.data_ m))%nat ->
  exists m',
    Memory.store size address v m = (Ok tt, m') /\
    Memory.load size address m' = (Ok (v mod 256 ^ Z.of_nat size), m') /\
    (size = 4%nat ->
       Memory.storeI32 address v m = (Ok tt, m') /\
       Memory.loadI32 address m' = (Ok (signed 32 v), m') /\
       Memory.loadU32 address m' = (Ok (wrap 32 v), m')) /\
    (size = 8%nat ->
       Memory.storeI64 address v m = (Ok tt, m') /\
       Memory.loadI64 address m' = (Ok (signed 64 v), m') /\
       Memory.loadU64 address m' = (Ok (wrap 64 v), m')).
Proof.
  intros Ha Hs Hfit.
  destruct (store_then_load m size address v Ha Hs Hfit) as [Hst Hld].
  eexists. split; [exact Hst|]. split; [exact Hld|]. split.
  - intros ->. change (256 ^ Z.of_nat 4) with (2 ^ 32) in Hld.
    unfold Memory.storeI32, Memory.loadI32, Memory.loadU32.
    split; [exact Hst|]. split; [|exact Hld].
    unfold bind. rewrite Hld. unfold ret. f_equal. f_equal. apply signed_wrap.
  - intros ->. change (256 ^ Z.of_nat 8) with (2 ^ 64) in Hld.
    unfold Memory.storeI64, Memory.loadI64, Memory.loadU64.
    split; [exact Hst|]. split; [|exact Hld].
    unfold bind. rewrite Hld. unfold ret. f_equal. f_equal. apply signed_wrap.
Qed.

Lemma X6_witness :
  exists m',
    Memory.store 4 2 (-2) (Memory.mkMemory [1; 2; 3; 4; 5; 6; 7; 8] (Limits_min_only 0) 0)
      = (Ok tt, m') /\
    Memory.load 4 2 m' = (Ok ((-2) mod 256 ^ Z.of_nat 4), m') /\
    (4%nat = 4%nat ->
       Memory.storeI32 2 (-2) (Memory.mkMemory [1; 2; 3; 4; 5; 6; 7; 8] (Limits_min_only 0) 0)
         = (Ok tt, m') /\
       Memory.loadI32 2 m' = (Ok (signed 32 (-2)), m') /\
       Memory.loadU32 2 m' = (Ok (wrap 32 (-2)), m')) /\
    (4%nat = 8%nat ->
       Memory.storeI64 2 (-2) (Memory.mkMemory [1; 2; 3; 4; 5; 6; 7; 8] (Limits_min_only 0) 0)
         = (Ok tt, m') /\
       Memory.loadI64 2 m' = (Ok (signed 64 (-2)), m') /\
       Memory.loadU64 2 m' = (Ok (wrap 64 (-2)), m')).
Proof.
  apply (X6_store_load_round_trip
           (Memory.mkMemory [1; 2; 3; 4; 5; 6; 7; 8] (Limits_min_only 0) 0) 4 2 (-2)).
  - unfold UINT32_MAX. lia.
  - lia.
  - simpl. lia.
Defined.

Lemma take_drop_memcpy_to_disjoint offset src (data : list Z) n k :
  (offset + length src <= length data)%nat ->
  (k + n <= offset \/ offset + length src <= k)%nat ->
  take n (drop k (Memory.memcpy_to offset src data)) = take n (drop k data).
Proof.
  intros H Hd. apply list_eq. intros i.
  destruct (decide (i < n)%nat) as [Hi|Hi].
  - rewrite !lookup_take_lt, !lookup_drop by done.
    apply lookup_memcpy_to_outside; [done|lia].
  - rewrite !lookup_take_ge by lia. reflexivity.
Qed.

(** X7: a store changes the bytes it writes and nothing else: the number
    of bytes, the limits and the page count are kept, every byte outside
    [address, address + size) is the byte it was, and a load of any range
    that does not overlap returns what it returned before the store. *)
Theorem X7_store_changes_only_its_bytes (m m' : Memory.t) (size : nat) (address v : Z) :
  0 <= address <= UINT32_MAX -> (size <= 8)%nat ->
  Memory.store size address v m = (Ok tt, m') ->
  length (Memory.data_ m') = length (Memory.data_ m) /\
  Memory.limits_ m' = Memory.limits_ m /\
  Memory.current_pages_ m' = Memory.current_pages_ m /\
  (forall i, (i < Z.to_nat address \/ Z.to_nat address + size <= i)%nat ->
     Memory.data_ m' !! i = Memory.data_ m !! i) /\
  (forall (size2 : nat) (address2 : Z),
     0 <= address2 <= UINT32_MAX -> (size2 <= 8)%nat ->
     address2 + Z.of_nat size2 <= address \/ address + Z.of_nat size <= address2 ->
     Memory.load size2 address2 m' = (fst (Memory.load size2 address2 m), m')).
Proof.
  intros Ha Hs. rewrite store_spec by done.
  destruct (Nat.ltb_spec (length (Memory.data_ m)) (Z.to_nat address + size)) as [|Hfit];
    [discriminate|].
  intros [= <-]. cbn [Memory.data_ Memory.limits_ Memory.current_pages_].
  assert (Z.to_nat address + length (Memory.le_bytes size v) <= length (Memory.data_ m))%nat
    as Hfit' by (rewrite length_le_bytes; lia).
  split; [by apply length_memcpy_to|]. split; [done|]. split; [done|]. split.
  - intros i Hi. apply lookup_memcpy_to_outside; [done|]. rewrite length_le_bytes. lia.
  - intros size2 address2 Ha2 Hs2 Hdis. rewrite !load_spec by done.
    cbn [Memory.data_]. rewrite length_memcpy_to by done.
    destruct (length (Memory.data_ m) <? Z.to_nat address2 + size2)%nat; [reflexivity|].
    simpl. rewrite take_drop_memcpy_to_disjoint; [reflexivity|done|].
    rewrite length_le_bytes. lia.
Qed.

Lemma X7_witness :
  length (Memory.data_ (Memory.mkMemory [1; 254; 255; 4; 5] (Limits_min_only 0) 0)) =
    length (Memory.data_ (Memory.mkMemory [1; 2; 3; 4; 5] (Limits_min_only 0) 0)) /\
  Memory.load 1 3 (Memory.mkMemory [1; 254; 255; 4; 5] (Limits_min_only 0) 0) =
    (fst (Memory.load 1 3 (Memory.mkMemory [1; 2; 3; 4; 5] (Limits_min_only 0) 0)),
     Memory.mkMemory [1; 254; 255; 4; 5] (Limits_min_only 0) 0).
Proof.
  assert (H : 0 <= 1 <= UINT32_MAX) by (unfold UINT32_MAX; lia).
  pose proof (X7_store_changes_only_its_bytes
                (Memory.mkMemory [1; 2; 3; 4; 5] (Limits_min_only 0) 0)
                (Memory.mkMemory [1; 254; 255; 4; 5] (Limits_min_only 0) 0)
                2 1 (-2) H ltac:(lia) eq_refl) as (Hlen & _ & _ & _ & Hload).
  split; [exact Hlen|].
  apply Hload; [unfold UINT32_MAX; lia|lia|]. right. simpl. lia.
Defined.

(** X8: an access of [size] bytes at [address] fails exactly when
    [address + size] exceeds the number of bytes of the memory; the
    failure is the MemoryError "Memory access out of bounds", thrown
    before anything is read or written, so the memory is unchanged.  The
    second test of [checkAddress], for an overflow of the sum, never
    decides. *)
Theorem X8_access_fails_exactly_out_of_bounds (m : Memory.t) (size : nat) (address : Z) :
  0 <= address <= UINT32_MAX -> (size <= 8)%nat ->
  ((length (Memory.data_ m) < Z.to_nat address + size)%nat ->
     Memory.load size address m = (Throw (MemoryError "Memory access out of bounds"), m) /\
     forall v, Memory.store size address v m =
                 (Throw (MemoryError "Memory access out of bounds"), m)) /\
  ((Z.to_nat address + size <= length (Memory.data_ m))%nat ->
     (exists r, Memory.load size address m = (Ok r, m)) /\
     forall v, exists m', Memory.store size address v m = (Ok tt, m')).
Proof.
  intros Ha Hs. split; intros Hb.
  - split; [|intros v]; rewrite ?load_spec, ?store_spec by done;
      destruct (Nat.ltb_spec (length (Memory.data_ m)) (Z.to_nat address + size)); try lia;
      reflexivity.
  - split; [|intros v]; rewrite ?load_spec, ?store_spec by done;
      destruct (Nat.ltb_spec (length (Memory.data_ m)) (Z.to_nat address + size)); try lia;
      eauto.
Qed.

Lemma X8_witness :
  Memory.load 4 2 (Memory.mkMemory [1; 2; 3; 4; 5] (Limits_min_only 0) 0) =
    (Throw (MemoryError "Memory access out of bounds"),
     Memory.mkMemory [1; 2; 3; 4; 5] (Limits_min_only 0) 0) /\
  exists r, Memory.load 4 1 (Memory.mkMemory [1; 2; 3; 4; 5] (Limits_min_only 0) 0) =
    (Ok r, Memory.mkMemory [1; 2; 3; 4; 5] (Limits_min_only 0) 0).
Proof.
  assert (H2 : 0 <= 2 <= UINT32_MAX) by (unfold UINT32_MAX; lia).
  assert (H1 : 0 <= 1 <= UINT32_MAX) by (unfold UINT32_MAX; lia).
  split.
  - apply (proj1 (X8_access_fails_exactly_out_of_bounds
                    (Memory.mkMemory [1; 2; 3; 4; 5] (Limits_min_only 0) 0) 4 2 H2 ltac:(lia))).
    simpl. lia.
  - apply (proj2 (X8_access_fails_exactly_out_of_bounds
                    (Memory.mkMemory [1; 2; 3; 4; 5] (Limits_min_only 0) 0) 4 1 H1 ltac:(lia))).
    simpl. lia.
Defined.

(** X9: below the hard limit [grow] appends zero pages and keeps what
    was there.  For a memory that satisfies the size invariant, a growth
    that stays under 65536 pages and within a declared maximum returns the
    previous page count, makes [size()] the sum, and leaves the bytes as
    the old bytes followed by [delta * 65536] zero bytes; a refused growth
    returns -1 and changes nothing, and [grow(0)] returns the current
    size. *)
Theorem X9_grow_appends_zero_pages (m : Memory.t) (delta : Z) :
  Memory.size_invariant m -> Memory.limits_ok m -> 0 <= delta < 2 ^ 32 ->
  (Memory.current_pages_ m + delta < 65536 ->
   (has_max (Memory.limits_ m) = true ->
      Memory.current_pages_ m + delta <= max (Memory.limits_ m)) ->
   exists m',
     Memory.grow delta m = (Ok (Memory.size m), m') /\
     Memory.size m' = Memory.size m + delta /\
     Memory.limits_ m' = Memory.limits_ m /\
     Memory.data_ m' = Memory.data_ m ++ replicate (Z.to_nat (delta * 65536)) 0) /\
  (65536 < Memory.current_pages_ m + delta \/
   (has_max (Memory.limits_ m) = true /\
    max (Memory.limits_ m) < Memory.current_pages_ m + delta) ->
   Memory.grow delta m = (Ok (-1), m)) /\
  (delta = 0 -> Memory.grow delta m = (Ok (Memory.size m), m)).
Proof.
  intros Hinv Hok Hd. pose proof Hok as [Hp Hmax]. unfold Memory.MAX_PAGES in Hp.
  split; [|split].
  - intros Hlt Hm.
    rewrite grow_succeeds; [|done|done|unfold Memory.MAX_PAGES; lia|done].
    destruct (Z.eqb_spec delta 0) as [->|Hd0].
    + exists m. unfold Memory.size. rewrite Z.add_0_r. simpl. by rewrite app_nil_r.
    + eexists. split; [reflexivity|]. unfold Memory.size. simpl.
      split; [done|]. split; [done|]. apply grow_zero_fill; [done|lia..].
  - intros Hfail. by apply grow_fails.
  - intros ->. unfold Memory.size.
    rewrite grow_succeeds; [reflexivity|done|done|unfold Memory.MAX_PAGES; lia|].
    intros Hm. specialize (Hmax Hm). lia.
Qed.

Lemma X9_witness :
  exists m',
    Memory.grow 1 (Memory.mkMemory [] (Limits_min_max 0 2) 0) = (Ok 0, m') /\
    Memory.size m' = 0 + 1 /\
    Memory.limits_ m' = Limits_min_max 0 2 /\
    Memory.data_ m' = [] ++ replicate (Z.to_nat (1 * 65536)) 0.
Proof.
  assert (Hinv : Memory.size_invariant (Memory.mkMemory [] (Limits_min_max 0 2) 0))
    by reflexivity.
  assert (Hok : Memory.limits_ok (Memory.mkMemory [] (Limits_min_max 0 2) 0)).
  { unfold Memory.limits_ok, Memory.MAX_PAGES. simpl. split; [lia|]. intros _. lia. }
  assert (Hd : 0 <= 1 < 2 ^ 32) by (change (2 ^ 32) with 4294967296; lia).
  apply (proj1 (X9_grow_appends_zero_pages
                  (Memory.mkMemory [] (Limits_min_max 0 2) 0) 1 Hinv Hok Hd)).
  - simpl. lia.
  - simpl. intros _. lia.
Defined.

(** X10: [initialize] copies a data segment to its offset and touches
    nothing else: when [offset + data.size()] is within the bytes, the
    bytes at [offset + i] become [data[i]], all others stay, and the
    length and the page count are kept; otherwise it throws the
    MemoryError "Data segment out of bounds" before writing.  [clear]
    zeroes every byte and keeps the length. *)
Theorem X10_initialize_and_clear (m : Memory.t) (offset : Z) (bytes : list Z) :
  ((Z.to_nat offset + length bytes <= length (Memory.data_ m))%nat ->
   exists m',
     Memory.initialize offset bytes m = (Ok tt, m') /\
     length (Memory.data_ m') = length (Memory.data_ m) /\
     Memory.current_pages_ m' = Memory.current_pages_ m /\
     take (length bytes) (drop (Z.to_nat offset) (Memory.data_ m')) = bytes /\
     forall i, (i < Z.to_nat offset \/ Z.to_nat offset + length bytes <= i)%nat ->
       Memory.data_ m' !! i = Memory.data_ m !! i) /\
  ((length (Memory.data_ m) < Z.to_nat offset + length bytes)%nat ->
   Memory.initialize offset bytes m = (Throw (MemoryError "Data segment out of bounds"), m)) /\
  (exists m',
     Memory.clear m = (Ok tt, m') /\
     length (Memory.data_ m') = length (Memory.data_ m) /\
     Memory.current_pages_ m' = Memory.current_pages_ m /\
     forall i b, Memory.data_ m' !! i = Some b -> b = 0).
Proof.
  split; [|split].
  - intros Hfit. unfold Memory.initialize, bind, get, put, throw.
    destruct (Nat.ltb_spec (length (Memory.data_ m)) (Z.to_nat offset + length bytes)); [lia|].
    eexists. split; [reflexivity|]. cbn [Memory.data_ Memory.current_pages_].
    split; [by apply length_memcpy_to|]. split; [done|].
    split; [by apply read_back_memcpy_to|].
    intros i Hi. by apply lookup_memcpy_to_outside.
  - intros Hout. unfold Memory.initialize, bind, get, put, throw.
    destruct (Nat.ltb_spec (length (Memory.data_ m)) (Z.to_nat offset + length bytes));
      [reflexivity|lia].
  - eexists. split; [reflexivity|]. cbn [Memory.data_ Memory.current_pages_].
    split; [by rewrite length_replicate|]. split; [done|].
    intros i b Hb. apply lookup_replicate in Hb. by destruct Hb.
Qed.

Lemma X10_witness :
  exists m',
    Memory.initialize 1 [7; 8] (Memory.mkMemory [1; 2; 3; 4] (Limits_min_only 0) 0)
      = (Ok tt, m') /\
    length (Memory.data_ m') = 4%nat /\
    Memory.current_pages_ m' = 0 /\
    take 2 (drop (Z.to_nat 1) (Memory.data_ m')) = [7; 8] /\
    forall i, (i < Z.to_nat 1 \/ Z.to_nat 1 + 2 <= i)%nat ->
      Memory.data_ m' !! i = [1; 2; 3; 4] !! i.
Proof.
  apply (proj1 (X10_initialize_and_clear
                  (Memory.mkMemory [1; 2; 3; 4] (Limits_min_only 0) 0) 1 [7; 8])).
  simpl. lia.
Defined.

(** ** LEB128: what the readers return on an encoding *)

Lemma bytes_at_cons b bytes buffer pos :
  bytes_at (b :: bytes) buffer pos ->
  buffer !! pos = Some b /\ bytes_at bytes buffer (S pos).
Proof.
  unfold bytes_at. simpl. intros H.
  destruct (drop pos buffer) as [|x rest] eqn:E; [discriminate|].
  injection H as -> Hrest. split.
  - rewrite <- (Nat.add_0_r pos), <- lookup_drop, E. reflexivity.
  - replace (S pos) with (pos + 1)%nat by lia. by rewrite <- drop_drop, E.
Qed.

Lemma bytes_at_length bytes buffer pos :
  bytes_at bytes buffer pos -> (length bytes <= length buffer - pos)%nat.
Proof.
  unfold bytes_at. intros H. apply (f_equal length) in H.
  rewrite length_take, length_drop in H. lia.
Qed.

Lemma bytes_at_app pre bytes rest : bytes_at bytes (pre ++ bytes ++ rest) (length pre).
Proof. unfold bytes_at. by rewrite drop_app_length, take_app_length. Qed.


Lemma group_facts_hold b : 0 <= b < 128 -> group_facts b = true.
Proof.
  intros Hb.
  assert (Hall : forallb group_facts (seqZ 0 128) = true) by (vm_compute; reflexivity).
  rewrite forallb_forall in Hall. apply Hall.
  apply list_elem_of_In, elem_of_seqZ. lia.
Qed.

Lemma group_last b :
  0 <= b < 128 -> Z.land b 127 = b /\ Z.land b 128 = 0 /\ (Z.land b 64 =? 0) = (b <? 64).
Proof.
  intros Hb. pose proof (group_facts_hold b Hb) as H. unfold group_facts in H.
  repeat (apply andb_prop in H as [H ?]).
  repeat match goal with H : bool_decide _ = true |- _ => apply bool_decide_eq_true in H end.
  repeat split; try lia; done.
Qed.

Lemma group_continued b :
  0 <= b < 128 -> Z.land (b + 128) 127 = b /\ Z.land (b + 128) 128 <> 0.
Proof.
  intros Hb. pose proof (group_facts_hold b Hb) as H. unfold group_facts in H.
  repeat (apply andb_prop in H as [H ?]).
  split; [lia|]. destruct (Z.eqb_spec (Z.land (b + 128) 128) 0); done.
Qed.

Lemma lor_shifted r x s :
  0 <= s -> 0 <= r < 2 ^ s -> Z.lor r (x * 2 ^ s) = r + x * 2 ^ s.
Proof.
  intros Hs Hr. pose proof (Z.add_lor_land r (x * 2 ^ s)) as Hadd.
  assert (Z.land r (x * 2 ^ s) = 0) as Hland; [|lia].
  apply Z.bits_inj_0. intros i. rewrite Z.land_spec.
  destruct (Z_lt_dec i 0) as [Hneg|Hnn].
  { by rewrite (Z.testbit_neg_r r) by lia. }
  destruct (Z_lt_dec i s) as [Hlt|Hge].
  - rewrite <- Z.shiftl_mul_pow2 by lia. rewrite Z.shiftl_spec_low by lia.
    apply andb_false_r.
  - rewrite <- (Z.mod_small r (2 ^ s)) by lia.
    rewrite Z.mod_pow2_bits_high by lia. reflexivity.
Qed.

Lemma pow2_split (s t : Z) : 0 <= s -> 0 <= t -> 2 ^ (s + t) = 2 ^ s * 2 ^ t.
Proof. intros. by rewrite Z.pow_add_r. Qed.

(** A group shifted to its place fits when the place is inside the
    width. *)
Lemma wrap_group w g s :
  0 <= s -> s + 7 <= w -> 0 <= g < 128 -> wrap w (Z.shiftl g s) = g * 2 ^ s.
Proof.
  intros Hs Hw Hg. rewrite Z.shiftl_mul_pow2 by lia. apply wrap_small.
  assert (0 < 2 ^ s) by (apply Z.pow_pos_nonneg; lia).
  assert (2 ^ (s + 7) <= 2 ^ w) by (apply Z.pow_le_mono_r; lia).
  rewrite pow2_split in * by lia. change (2 ^ 7) with 128 in *. nia.
Qed.

Lemma mod_next_group N s :
  0 <= s -> N mod 2 ^ s + (N / 2 ^ s) mod 128 * 2 ^ s = N mod 2 ^ (s + 7).
Proof.
  intros Hs. assert (0 < 2 ^ s) by (apply Z.pow_pos_nonneg; lia).
  rewrite pow2_split by lia. change (2 ^ 7) with 128.
  rewrite Z.rem_mul_r by lia. lia.
Qed.

Lemma div_next_group N s : 0 <= s -> N / 2 ^ s / 128 = N / 2 ^ (s + 7).
Proof.
  intros Hs. assert (0 < 2 ^ s) by (apply Z.pow_pos_nonneg; lia).
  rewrite pow2_split by lia. change (2 ^ 7) with 128.
  rewrite Z.div_div by lia. reflexivity.
Qed.

Lemma mod_pow2_range N s : 0 <= s -> 0 <= N mod 2 ^ s < 2 ^ s.
Proof. intros. apply Z.mod_pos_bound. apply Z.pow_pos_nonneg; lia. Qed.

Lemma length_leb128_unsigned groups n :
  (1 <= length (leb128_unsigned groups n) <= S groups)%nat.
Proof.
  revert n. induction groups as [|g IH]; intros n; simpl; [lia|].
  destruct (n <? 128); simpl; [lia|]. specialize (IH (n / 128)). lia.
Qed.

Lemma length_leb128_signed groups n :
  (1 <= length (leb128_signed groups n) <= S groups)%nat.
Proof.
  revert n. induction groups as [|g IH]; intros n; simpl; [lia|].
  destruct ((-64 <=? n) && (n <? 64)); simpl; [lia|]. specialize (IH (n / 128)). lia.
Qed.

(** The last byte of an unsigned encoding completes the value. *)
Lemma unsigned_last w N s :
  0 <= s -> 0 <= N < 2 ^ w -> N / 2 ^ s < 128 ->
  Z.lor (N mod 2 ^ s) (wrap w (Z.shiftl (Z.land (N / 2 ^ s) 127) s)) = N.
Proof.
  intros Hs HN Hlast.
  assert (0 < 2 ^ s) by (apply Z.pow_pos_nonneg; lia).
  assert (0 <= N / 2 ^ s) by (apply Z.div_pos; lia).
  destruct (group_last (N / 2 ^ s)) as (-> & _); [lia|].
  rewrite Z.shiftl_mul_pow2 by lia.
  pose proof (Z.div_mod N (2 ^ s) ltac:(lia)) as Hdm.
  pose proof (mod_pow2_range N s Hs).
  rewrite wrap_small by nia.
  rewrite lor_shifted by lia. lia.
Qed.

(** A continued byte of an unsigned or signed encoding adds its group. *)
Lemma group_step w N s :
  0 <= s -> s + 7 <= w ->
  Z.lor (N mod 2 ^ s) (wrap w (Z.shiftl (Z.land ((N / 2 ^ s) mod 128 + 128) 127) s)) =
  N mod 2 ^ (s + 7).
Proof.
  intros Hs Hw.
  pose proof (Z.mod_pos_bound (N / 2 ^ s) 128 ltac:(lia)) as Hg.
  destruct (group_continued _ Hg) as [-> _].
  rewrite wrap_group by lia.
  rewrite lor_shifted by (try apply mod_pow2_range; lia).
  by apply mod_next_group.
Qed.

Lemma Decoder_readByte_at d b :
  Decoder.buffer_ d !! Decoder.position_ d = Some b ->
  Decoder.readByte d = (Ok b, Decoder.mkDecoder (Decoder.buffer_ d) (S (Decoder.position_ d))).
Proof. intros H. by rewrite Decoder_readByte_spec, H. Qed.

Lemma Decoder_readVarUint32_loop_decodes N :
  0 <= N < 2 ^ 32 ->
  forall (g k fuel : nat) d,
    (k + g = 4)%nat ->
    bytes_at (leb128_unsigned g (N / 2 ^ (7 * Z.of_nat k))) (Decoder.buffer_ d)
             (Decoder.position_ d) ->
    (length (leb128_unsigned g (N / 2 ^ (7 * Z.of_nat k))) <= fuel)%nat ->
    Decoder.readVarUint32_loop fuel (N mod 2 ^ (7 * Z.of_nat k)) (7 * Z.of_nat k) d =
      (Ok N, Decoder.mkDecoder (Decoder.buffer_ d)
               (Decoder.position_ d + length (leb128_unsigned g (N / 2 ^ (7 * Z.of_nat k))))).
Proof.
  intros HN. induction g as [|g IH]; intros k fuel d Hk Hat Hfuel.
  - set (s := 7 * Z.of_nat k) in *.
    assert (s = 28) as Hs by lia.
    assert (0 < 2 ^ s) by (apply Z.pow_pos_nonneg; lia).
    assert (0 <= N / 2 ^ s) by (apply Z.div_pos; lia).
    assert (N / 2 ^ s < 128).
    { apply Z.div_lt_upper_bound; [lia|]. rewrite Hs.
      change (2 ^ 32) with 4294967296 in HN. change (2 ^ 28) with 268435456. lia. }
    cbn [leb128_unsigned] in *.
    destruct fuel as [|fuel]; [simpl in Hfuel; lia|]. cbn [Decoder.readVarUint32_loop].
    apply bytes_at_cons in Hat as [Hb _].
    unfold bind at 1. rewrite (Decoder_readByte_at _ _ Hb).
    destruct (group_last (N / 2 ^ s)) as (_ & -> & _); [lia|]. simpl.
    unfold ret. rewrite (unsigned_last 32 N s) by lia. by rewrite Nat.add_1_r.
  - set (s := 7 * Z.of_nat k) in *.
    assert (0 <= s <= 21) by lia.
    assert (0 < 2 ^ s) by (apply Z.pow_pos_nonneg; lia).
    assert (0 <= N / 2 ^ s) by (apply Z.div_pos; lia).
    cbn [leb128_unsigned] in *.
    destruct (Z.ltb_spec (N / 2 ^ s) 128) as [Hlast|Hmore].
    + destruct fuel as [|fuel]; [simpl in Hfuel; lia|]. simpl.
      apply bytes_at_cons in Hat as [Hb _].
      unfold bind at 1. rewrite (Decoder_readByte_at _ _ Hb).
      destruct (group_last (N / 2 ^ s)) as (_ & -> & _); [lia|]. simpl.
      unfold ret. rewrite (unsigned_last 32 N s) by lia. by rewrite Nat.add_1_r.
    + destruct fuel as [|fuel]; [simpl in Hfuel; lia|]. cbn [Decoder.readVarUint32_loop].
      apply bytes_at_cons in Hat as [Hb Hat].
      unfold bind at 1. rewrite (Decoder_readByte_at _ _ Hb).
      pose proof (Z.mod_pos_bound (N / 2 ^ s) 128 ltac:(lia)) as Hg.
      destruct (group_continued _ Hg) as [_ Hc].
      destruct (Z.eqb_spec (Z.land ((N / 2 ^ s) mod 128 + 128) 128) 0) as [|_]; [done|].
      destruct (Z.geb_spec (s + 7) 35); [lia|].
      rewrite (group_step 32 N s) by lia.
      rewrite div_next_group in * by lia.
      replace (s + 7) with (7 * Z.of_nat (S k)) in * by lia.
      rewrite (IH (S k) fuel); [| lia | exact Hat | simpl in Hfuel; lia].
      simpl. f_equal. f_equal. lia.
Qed.

Lemma Decoder_readVarUint64_loop_decodes N :
  0 <= N < 2 ^ 64 ->
  forall (g k fuel : nat) d,
    (k + g = 9)%nat ->
    bytes_at (leb128_unsigned g (N / 2 ^ (7 * Z.of_nat k))) (Decoder.buffer_ d)
             (Decoder.position_ d) ->
    (length (leb128_unsigned g (N / 2 ^ (7 * Z.of_nat k))) <= fuel)%nat ->
    Decoder.readVarUint64_loop fuel (N mod 2 ^ (7 * Z.of_nat k)) (7 * Z.of_nat k) d =
      (Ok N, Decoder.mkDecoder (Decoder.buffer_ d)
               (Decoder.position_ d + length (leb128_unsigned g (N / 2 ^ (7 * Z.of_nat k))))).
Proof.
  intros HN. induction g as [|g IH]; intros k fuel d Hk Hat Hfuel.
  - set (s := 7 * Z.of_nat k) in *.
    assert (s = 63) as Hs by lia.
    assert (0 < 2 ^ s) by (apply Z.pow_pos_nonneg; lia).
    assert (0 <= N / 2 ^ s) by (apply Z.div_pos; lia).
    assert (N / 2 ^ s < 128).
    { apply Z.div_lt_upper_bound; [lia|]. rewrite Hs.
      change (2 ^ 64) with 18446744073709551616 in HN. change (2 ^ 63) with 9223372036854775808. lia. }
    cbn [leb128_unsigned] in *.
    destruct fuel as [|fuel]; [simpl in Hfuel; lia|]. cbn [Decoder.readVarUint64_loop].
    apply bytes_at_cons in Hat as [Hb _].
    unfold bind at 1. rewrite (Decoder_readByte_at _ _ Hb).
    destruct (group_last (N / 2 ^ s)) as (_ & -> & _); [lia|]. simpl.
    unfold ret. rewrite (unsigned_last 64 N s) by lia. by rewrite Nat.add_1_r.
  - set (s := 7 * Z.of_nat k) in *.
    assert (0 <= s <= 56) by lia.
    assert (0 < 2 ^ s) by (apply Z.pow_pos_nonneg; lia).
    assert (0 <= N / 2 ^ s) by (apply Z.div_pos; lia).
    cbn [leb128_unsigned] in *.
    destruct (Z.ltb_spec (N / 2 ^ s) 128) as [Hlast|Hmore].
    + destruct fuel as [|fuel]; [simpl in Hfuel; lia|]. simpl.
      apply bytes_at_cons in Hat as [Hb _].
      unfold bind at 1. rewrite (Decoder_readByte_at _ _ Hb).
      destruct (group_last (N / 2 ^ s)) as (_ & -> & _); [lia|]. simpl.
      unfold ret. rewrite (unsigned_last 64 N s) by lia. by rewrite Nat.add_1_r.
    + destruct fuel as [|fuel]; [simpl in Hfuel; lia|]. cbn [Decoder.readVarUint64_loop].
      apply bytes_at_cons in Hat as [Hb Hat].
      unfold bind at 1. rewrite (Decoder_readByte_at _ _ Hb).
      pose proof (Z.mod_pos_bound (N / 2 ^ s) 128 ltac:(lia)) as Hg.
      destruct (group_continued _ Hg) as [_ Hc].
      destruct (Z.eqb_spec (Z.land ((N / 2 ^ s) mod 128 + 128) 128) 0) as [|_]; [done|].
      destruct (Z.geb_spec (s + 7) 70); [lia|].
      rewrite (group_step 64 N s) by lia.
      rewrite div_next_group in * by lia.
      replace (s + 7) with (7 * Z.of_nat (S k)) in * by lia.
      rewrite (IH (S k) fuel); [| lia | exact Hat | simpl in Hfuel; lia].
      simpl. f_equal. f_equal. lia.
Qed.

(** X11: the unsigned readers of the decoder invert the LEB128 encoding.
    Wherever the buffer holds the encoding of a value below 2^32 (at most
    five bytes), [readVarUint32] returns that value and leaves the cursor
    just behind the encoding; [readVarUint64] does the same for values
    below 2^64 (at most ten bytes).  The bytes before and after play no
    part. *)
Theorem X11_decoder_reads_unsigned_leb128 (d : Decoder.t) (n : Z) :
  (0 <= n < 2 ^ 32 ->
   bytes_at (leb128_unsigned 4 n) (Decoder.buffer_ d) (Decoder.position_ d) ->
   Decoder.readVarUint32 d =
     (Ok n, Decoder.mkDecoder (Decoder.buffer_ d)
              (Decoder.position_ d + length (leb128_unsigned 4 n))) /\
   (length (leb128_unsigned 4 n) <= 5)%nat) /\
  (0 <= n < 2 ^ 64 ->
   bytes_at (leb128_unsigned 9 n) (Decoder.buffer_ d) (Decoder.position_ d) ->
   Decoder.readVarUint64 d =
     (Ok n, Decoder.mkDecoder (Decoder.buffer_ d)
              (Decoder.position_ d + length (leb128_unsigned 9 n))) /\
   (length (leb128_unsigned 9 n) <= 10)%nat).
Proof.
  split; intros Hn Hat.
  - split; [|apply length_leb128_unsigned].
    unfold Decoder.readVarUint32, bind, get.
    pose proof (Decoder_readVarUint32_loop_decodes n Hn 4 0 (Decoder.turns d) d eq_refl) as H.
    change (7 * Z.of_nat 0) with 0 in H. rewrite Z.pow_0_r, Z.div_1_r, Z.mod_1_r in H.
    apply H; [exact Hat|]. apply bytes_at_length in Hat. unfold Decoder.turns. lia.
  - split; [|apply length_leb128_unsigned].
    unfold Decoder.readVarUint64, bind, get.
    pose proof (Decoder_readVarUint64_loop_decodes n Hn 9 0 (Decoder.turns d) d eq_refl) as H.
    change (7 * Z.of_nat 0) with 0 in H. rewrite Z.pow_0_r, Z.div_1_r, Z.mod_1_r in H.
    apply H; [exact Hat|]. apply bytes_at_length in Hat. unfold Decoder.turns. lia.
Qed.

Lemma X11_witness :
  Decoder.readVarUint32 (Decoder.mkDecoder [0x00; 0xE5; 0x8E; 0x26; 0x0B] 1) =
    (Ok 624485, Decoder.mkDecoder [0x00; 0xE5; 0x8E; 0x26; 0x0B]
                  (1 + length (leb128_unsigned 4 624485))) /\
  (length (leb128_unsigned 4 624485) <= 5)%nat.
Proof.
  apply (proj1 (X11_decoder_reads_unsigned_leb128
                  (Decoder.mkDecoder [0x00; 0xE5; 0x8E; 0x26; 0x0B] 1) 624485)).
  - change (2 ^ 32) with 4294967296. lia.
  - reflexivity.
Defined.

Lemma readByte_at st b :
  code_ st !! pc_ st = Some b -> (pc_ st < code_size_ st)%nat ->
  readByte st = (Ok b, set_pc_ (S (pc_ st)) st).
Proof.
  intros Hb Hlt. unfold readByte, bind, get, put, ret, throw.
  destruct (Nat.leb_spec (code_size_ st) (pc_ st)); [lia|]. by rewrite Hb.
Qed.

Lemma readVarUint32_loop_decodes N :
  0 <= N < 2 ^ 32 ->
  forall (g k fuel : nat) st,
    (k + g = 4)%nat ->
    bytes_at (leb128_unsigned g (N / 2 ^ (7 * Z.of_nat k))) (code_ st) (pc_ st) ->
    (pc_ st + length (leb128_unsigned g (N / 2 ^ (7 * Z.of_nat k))) <= code_size_ st)%nat ->
    (length (leb128_unsigned g (N / 2 ^ (7 * Z.of_nat k))) <= fuel)%nat ->
    readVarUint32_loop fuel (N mod 2 ^ (7 * Z.of_nat k)) (7 * Z.of_nat k) st =
      (Ok N, set_pc_ (pc_ st + length (leb128_unsigned g (N / 2 ^ (7 * Z.of_nat k)))) st).
Proof.
  intros HN. induction g as [|g IH]; intros k fuel st Hk Hat Hsize Hfuel.
  - set (s := 7 * Z.of_nat k) in *.
    assert (s = 28) as Hs by lia.
    assert (0 < 2 ^ s) by (apply Z.pow_pos_nonneg; lia).
    assert (0 <= N / 2 ^ s) by (apply Z.div_pos; lia).
    assert (N / 2 ^ s < 128).
    { apply Z.div_lt_upper_bound; [lia|]. rewrite Hs.
      change (2 ^ 32) with 4294967296 in HN. change (2 ^ 28) with 268435456. lia. }
    cbn [leb128_unsigned length] in *.
    destruct fuel as [|fuel]; [lia|]. cbn [readVarUint32_loop].
    apply bytes_at_cons in Hat as [Hb _].
    rewrite bind_readByte, (readByte_at _ _ Hb) by lia.
    destruct (Z.geb_spec s 32) as [|_]; [lia|].
    destruct (group_last (N / 2 ^ s)) as (_ & -> & _); [lia|]. simpl.
    unfold ret. rewrite (unsigned_last 32 N s) by lia. by rewrite Nat.add_1_r.
  - set (s := 7 * Z.of_nat k) in *.
    assert (0 <= s <= 21) by lia.
    assert (0 < 2 ^ s) by (apply Z.pow_pos_nonneg; lia).
    assert (0 <= N / 2 ^ s) by (apply Z.div_pos; lia).
    cbn [leb128_unsigned] in *.
    destruct (Z.ltb_spec (N / 2 ^ s) 128) as [Hlast|Hmore]; cbn [length] in *.
    + destruct fuel as [|fuel]; [lia|]. cbn [readVarUint32_loop].
      apply bytes_at_cons in Hat as [Hb _].
      rewrite bind_readByte, (readByte_at _ _ Hb) by lia.
      destruct (Z.geb_spec s 32) as [|_]; [lia|].
      destruct (group_last (N / 2 ^ s)) as (_ & -> & _); [lia|]. simpl.
      unfold ret. rewrite (unsigned_last 32 N s) by lia. by rewrite Nat.add_1_r.
    + destruct fuel as [|fuel]; [lia|]. cbn [readVarUint32_loop].
      apply bytes_at_cons in Hat as [Hb Hat].
      rewrite bind_readByte, (readByte_at _ _ Hb) by lia.
      destruct (Z.geb_spec s 32) as [|_]; [lia|].
      pose proof (Z.mod_pos_bound (N / 2 ^ s) 128 ltac:(lia)) as Hg.
      destruct (group_continued _ Hg) as [_ Hc].
      destruct (Z.eqb_spec (Z.land ((N / 2 ^ s) mod 128 + 128) 128) 0) as [|_]; [done|].
      rewrite (group_step 32 N s) by lia.
      rewrite div_next_group in * by lia.
      replace (s + 7) with (7 * Z.of_nat (S k)) in * by lia.
      rewrite (IH (S k) fuel); [| lia | exact Hat | simpl; lia | lia].
      simpl. unfold set_pc_. simpl. f_equal. f_equal. lia.
Qed.






Lemma readVarUint32_decodes N st :
  0 <= N < 2 ^ 32 ->
  bytes_at (leb128_unsigned 4 N) (code_ st) (pc_ st) ->
  (pc_ st + length (leb128_unsigned 4 N) <= code_size_ st)%nat ->
  readVarUint32 st = (Ok N, set_pc_ (pc_ st + length (leb128_unsigned 4 N)) st).
Proof.
  intros HN Hat Hsize.
  pose proof (readVarUint32_loop_decodes N HN 4 0 (code_turns st) st eq_refl) as H.
  change (7 * Z.of_nat 0) with 0 in H. rewrite Z.pow_0_r, Z.div_1_r, Z.mod_1_r in H.
  unfold readVarUint32, bind, get. apply H; [done|done|unfold code_turns; lia].
Qed.













(** ** Integer division and remainder *)

Lemma wrap_wrap w x : wrap w (wrap w x) = wrap w x.
Proof. unfold wrap. apply Zmod_mod. Qed.

Lemma wrap_is_zero w b :
  0 < w -> - 2 ^ (w - 1) <= b < 2 ^ (w - 1) -> (wrap w b =? 0) = (b =? 0).
Proof.
  intros Hw Hb.
  assert (2 ^ w = 2 * 2 ^ (w - 1)) as Hp.
  { replace w with (Z.succ (w - 1)) at 1 by lia. apply Z.pow_succ_r. lia. }
  destruct (Z.eqb_spec b 0) as [->|Hne].
  - unfold wrap. rewrite Z.mod_0_l by lia. reflexivity.
  - apply Z.eqb_neq. intros H0. apply Hne.
    rewrite <- (signed_in_range w b Hw Hb). unfold signed, wrap in *. rewrite H0.
    destruct (Z.ltb_spec 0 (2 ^ (w - 1))); lia.
Qed.

Lemma Value_i32_makeI32 a : INT32_MIN <= a <= INT32_MAX -> Value_i32 (value (makeI32 a)) = a.
Proof.
  unfold INT32_MIN, INT32_MAX. intros Ha. unfold Value_i32. simpl.
  rewrite signed_wrap. apply signed_in_range; [lia|]. change (32 - 1) with 31. lia.
Qed.

Lemma Value_i64_makeI64 a : INT64_MIN <= a <= INT64_MAX -> Value_i64 (value (makeI64 a)) = a.
Proof.
  unfold INT64_MIN, INT64_MAX. intros Ha. unfold Value_i64. simpl.
  rewrite signed_wrap. apply signed_in_range; [lia|]. change (64 - 1) with 63. lia.
Qed.

(** A case with two operands: both are popped, then the body decides. *)
Lemma binary_spec pop tag view (make : Z -> TypedValue) f (s : Stack.t) va vb :
  typed_pop_spec pop tag view -> type va = tag -> type vb = tag ->
  Numeric.binary pop (fun r => Stack.push (make r)) f (s ++ [va; vb]) =
    match f (view (value va)) (view (value vb)) with
    | Ok r => (Ok tt, s ++ [make r])
    | Throw e => (Throw e, s)
    | Exhausted b => (Exhausted b, s)
    end.
Proof.
  intros [_ Hsnoc] Ha Hb. unfold Numeric.binary, bind, lift_outcome.
  change (s ++ [va; vb]) with (s ++ [va] ++ [vb]). rewrite app_assoc.
  rewrite Hsnoc, Hb, Z.eqb_refl, Hsnoc, Ha, Z.eqb_refl.
  by destruct (f _ _).
Qed.

Lemma makeI32_signed x : makeI32 (signed 32 x) = makeI32 x.
Proof. unfold makeI32. by rewrite wrap_signed. Qed.

Lemma makeI64_signed x : makeI64 (signed 64 x) = makeI64 x.
Proof. unfold makeI64. by rewrite wrap_signed. Qed.

Lemma quot_in_range w a b :
  0 < w -> - 2 ^ (w - 1) <= a < 2 ^ (w - 1) -> b <> 0 ->
  ~ (a = - 2 ^ (w - 1) /\ b = -1) ->
  - 2 ^ (w - 1) <= Z.quot a b < 2 ^ (w - 1).
Proof.
  intros Hw Ha Hb Hov.
  assert (0 < 2 ^ (w - 1)) by (apply Z.pow_pos_nonneg; lia).
  pose proof (Z.quot_abs a b Hb) as Hq.
  assert (Z.abs a ÷ Z.abs b <= Z.abs a) as Habs.
  { apply Z.quot_le_upper_bound; [lia|]. pose proof (Z.abs_nonneg a). nia. }
  destruct (Z.eq_dec a (- 2 ^ (w - 1))) as [Hmin|Hmin]; [|lia].
  destruct (Z.eq_dec (Z.abs b) 1) as [Hb1|Hb1].
  - assert (b = 1) as -> by lia. rewrite Z.quot_1_r. lia.
  - assert (Z.abs a ÷ Z.abs b < Z.abs a); [|lia].
    apply Z.quot_lt; lia.
Qed.

(** X13: the integer division and remainder instructions.  With the
    operands [a] (pushed first) and [b] on top of the stack, each of the
    eight cases pops both and throws the Trap "integer divide by zero"
    when [b] is 0.  [div_s] throws the Trap "integer overflow" for the
    least integer divided by -1 and otherwise pushes the quotient rounded
    toward zero, which fits the type; [rem_s] has no such test (its [a % b]
    has no meaning there) and otherwise pushes the remainder with the sign
    of [a]; [div_u] and [rem_u] divide the unsigned readings. *)
Theorem X13_integer_division_and_remainder (s : Stack.t) (a b : Z) :
  (INT32_MIN <= a <= INT32_MAX -> INT32_MIN <= b <= INT32_MAX ->
   let operands := s ++ [makeI32 a; makeI32 b] in
   let by_zero := (Throw (Trap "integer divide by zero"), s) in
   Numeric.I32_DIV_S operands =
     (if b =? 0 then by_zero
      else if (a =? INT32_MIN) && (b =? -1) then (Throw (Trap "integer overflow"), s)
      else (Ok tt, s ++ [makeI32 (Z.quot a b)])) /\
   Numeric.I32_REM_S operands =
     (if b =? 0 then by_zero
      else if (a =? INT32_MIN) && (b =? -1)
           then (Throw (Undefined "signed integer overflow"), s)
      else (Ok tt, s ++ [makeI32 (Z.rem a b)])) /\
   Numeric.I32_DIV_U operands =
     (if b =? 0 then by_zero else (Ok tt, s ++ [makeI32 (wrap 32 a / wrap 32 b)])) /\
   Numeric.I32_REM_U operands =
     (if b =? 0 then by_zero else (Ok tt, s ++ [makeI32 (wrap 32 a mod wrap 32 b)])) /\
   (b <> 0 -> ~ (a = INT32_MIN /\ b = -1) -> INT32_MIN <= Z.quot a b <= INT32_MAX)) /\
  (INT64_MIN <= a <= INT64_MAX -> INT64_MIN <= b <= INT64_MAX ->
   let operands := s ++ [makeI64 a; makeI64 b] in
   let by_zero := (Throw (Trap "integer divide by zero"), s) in
   Numeric.I64_DIV_S operands =
     (if b =? 0 then by_zero
      else if (a =? INT64_MIN) && (b =? -1) then (Throw (Trap "integer overflow"), s)
      else (Ok tt, s ++ [makeI64 (Z.quot a b)])) /\
   Numeric.I64_REM_S operands =
     (if b =? 0 then by_zero
      else if (a =? INT64_MIN) && (b =? -1)
           then (Throw (Undefined "signed integer overflow"), s)
      else (Ok tt, s ++ [makeI64 (Z.rem a b)])) /\
   Numeric.I64_DIV_U operands =
     (if b =? 0 then by_zero else (Ok tt, s ++ [makeI64 (wrap 64 a / wrap 64 b)])) /\
   Numeric.I64_REM_U operands =
     (if b =? 0 then by_zero else (Ok tt, s ++ [makeI64 (wrap 64 a mod wrap 64 b)])) /\
   (b <> 0 -> ~ (a = INT64_MIN /\ b = -1) -> INT64_MIN <= Z.quot a b <= INT64_MAX)).
Proof.
  split; intros Ha Hb; cbv zeta.
  - unfold Numeric.I32_DIV_S, Numeric.I32_REM_S, Numeric.I32_DIV_U, Numeric.I32_REM_U,
      Numeric.i32_binary, Stack.pushI32.
    rewrite !(binary_spec _ _ _ makeI32 _ s (makeI32 a) (makeI32 b) popI32_spec eq_refl eq_refl).
    rewrite !Value_i32_makeI32 by done.
    unfold Numeric.unsigned_operands, Numeric.div_s, Numeric.rem_s, Numeric.div_u,
      Numeric.rem_u, Numeric.divide_by_zero, Numeric.INT_MIN.
    rewrite !wrap_wrap.
    rewrite wrap_is_zero
      by (unfold INT32_MIN, INT32_MAX in *; change (32 - 1) with 31; lia).
    change (- 2 ^ (32 - 1)) with INT32_MIN.
    split; [|split; [|split; [|split]]].
    + destruct (b =? 0); [done|]. by destruct (_ && _).
    + destruct (b =? 0); [done|]. by destruct (_ && _).
    + destruct (b =? 0); [done|]. by rewrite makeI32_signed.
    + destruct (b =? 0); [done|]. by rewrite makeI32_signed.
    + unfold INT32_MIN, INT32_MAX in *. intros Hb0 Hov.
      pose proof (quot_in_range 32 a b ltac:(lia)) as H. change (32 - 1) with 31 in H. lia.
  - unfold Numeric.I64_DIV_S, Numeric.I64_REM_S, Numeric.I64_DIV_U, Numeric.I64_REM_U,
      Numeric.i64_binary, Stack.pushI64.
    rewrite !(binary_spec _ _ _ makeI64 _ s (makeI64 a) (makeI64 b) popI64_spec eq_refl eq_refl).
    rewrite !Value_i64_makeI64 by done.
    unfold Numeric.div_s, Numeric.rem_s, Numeric.div_u,
      Numeric.rem_u, Numeric.divide_by_zero, Numeric.INT_MIN.
    change (- 2 ^ (64 - 1)) with INT64_MIN.
    split; [|split; [|split; [|split]]].
    + destruct (b =? 0); [done|]. by destruct (_ && _).
    + destruct (b =? 0); [done|]. by destruct (_ && _).
    + destruct (b =? 0); [done|]. by rewrite makeI64_signed.
    + destruct (b =? 0); [done|]. by rewrite makeI64_signed.
    + unfold INT64_MIN, INT64_MAX in *. intros Hb0 Hov.
      pose proof (quot_in_range 64 a b ltac:(lia)) as H. change (64 - 1) with 63 in H. lia.
Qed.

Lemma X13_witness :
  Numeric.I32_DIV_S ([] ++ [makeI32 (-7); makeI32 2]) = (Ok tt, [] ++ [makeI32 (-3)]) /\
  Numeric.I32_DIV_S ([] ++ [makeI32 INT32_MIN; makeI32 (-1)]) =
    (Throw (Trap "integer overflow"), []) /\
  Numeric.I64_REM_U ([] ++ [makeI64 (-1); makeI64 0]) =
    (Throw (Trap "integer divide by zero"), []).
Proof.
  assert (INT32_MIN <= -7 <= INT32_MAX /\ INT32_MIN <= 2 <= INT32_MAX /\
          INT32_MIN <= INT32_MIN <= INT32_MAX /\ INT32_MIN <= -1 <= INT32_MAX /\
          INT64_MIN <= -1 <= INT64_MAX /\ INT64_MIN <= 0 <= INT64_MAX)
    as (H1 & H2 & H3 & H4 & H5 & H6) by (vm_compute; intuition discriminate).
  split; [|split].
  - exact (proj1 (proj1 (X13_integer_division_and_remainder [] (-7) 2) H1 H2)).
  - exact (proj1 (proj1 (X13_integer_division_and_remainder [] INT32_MIN (-1)) H3 H4)).
  - exact (proj1 (proj2 (proj2 (proj2
             (proj2 (X13_integer_division_and_remainder [] (-1) 0) H5 H6))))).
Defined.

(** ** Counting bits *)

Lemma land_pow2 a n : 0 <= n -> Z.land a (2 ^ n) = if Z.testbit a n then 2 ^ n else 0.
Proof.
  intros Hn. apply Z.bits_inj'. intros i Hi.
  rewrite Z.land_spec, Z.pow2_bits_eqb by done.
  destruct (Z.eqb_spec n i) as [->|Hne].
  - destruct (Z.testbit a i); [by rewrite Z.pow2_bits_true|by rewrite Z.bits_0].
  - rewrite andb_false_r. destruct (Z.testbit a n); [|by rewrite Z.bits_0].
    rewrite Z.pow2_bits_false; done.
Qed.

Lemma top_bit_clear w v :
  0 < w -> 0 <= v < 2 ^ w -> (Z.land v (2 ^ (w - 1)) =? 0) = (v <? 2 ^ (w - 1)).
Proof.
  intros Hw Hv.
  assert (0 < 2 ^ (w - 1)) as Hp by (apply Z.pow_pos_nonneg; lia).
  assert (2 ^ w = 2 * 2 ^ (w - 1)) as Hp2.
  { replace w with (Z.succ (w - 1)) at 1 by lia. apply Z.pow_succ_r. lia. }
  rewrite land_pow2 by lia.
  destruct (Z.testbit v (w - 1)) eqn:Hb.
  - apply Z.testbit_true in Hb; [|lia].
    destruct (Z.ltb_spec v (2 ^ (w - 1))) as [Hlt|Hge].
    + rewrite Z.div_small in Hb by lia. discriminate.
    + apply Z.eqb_neq. lia.
  - rewrite Z.eqb_refl. symmetry. apply Z.ltb_lt.
    destruct (Z_lt_dec v (2 ^ (w - 1))) as [|Hge]; [done|].
    assert (v / 2 ^ (w - 1) = 1) as Hq.
    { symmetry. apply (Z.div_unique _ _ _ (v - 2 ^ (w - 1))); lia. }
    assert (Z.testbit v (w - 1) = true); [|congruence].
    apply Z.testbit_true; [lia|]. by rewrite Hq.
Qed.

Lemma clz_loop_spec w : 0 < w -> forall (fuel : nat) value count,
  Z.of_nat fuel <= w -> 2 ^ (w - Z.of_nat fuel) <= value < 2 ^ w ->
  exists c, Numeric.clz_loop w fuel value count = Ok (count + c) /\
            0 <= c < w /\ 2 ^ (w - 1 - c) <= value < 2 ^ (w - c).
Proof.
  intros Hw. induction fuel as [|fuel IH]; intros value count Hf Hv.
  - simpl in Hv. rewrite Z.sub_0_r in Hv. lia.
  - assert (0 < 2 ^ (w - 1)) as Hp by (apply Z.pow_pos_nonneg; lia).
    assert (2 ^ w = 2 * 2 ^ (w - 1)) as Hp2.
    { replace w with (Z.succ (w - 1)) at 1 by lia. apply Z.pow_succ_r. lia. }
    assert (0 < 2 ^ (w - Z.of_nat (S fuel))) by (apply Z.pow_pos_nonneg; lia).
    cbn [Numeric.clz_loop]. rewrite top_bit_clear by lia.
    destruct (Z.ltb_spec value (2 ^ (w - 1))) as [Hlt|Hge].
    + assert (wrap w (Z.shiftl value 1) = 2 * value) as ->.
      { rewrite Z.shiftl_mul_pow2 by lia. change (2 ^ 1) with 2.
        rewrite wrap_small; lia. }
      destruct (IH (2 * value) (count + 1)) as (c & Hc & Hr & Hb); [lia| |].
      { replace (w - Z.of_nat fuel) with (Z.succ (w - Z.of_nat (S fuel))) by lia.
        rewrite Z.pow_succ_r by lia. lia. }
      assert (c < w - 1).
      { destruct (Z_lt_dec c (w - 1)) as [|Hn]; [done|].
        replace c with (w - 1) in Hb by lia.
        replace (w - 1 - (w - 1)) with 0 in Hb by lia.
        replace (w - (w - 1)) with 1 in Hb by lia. simpl in Hb. lia. }
      exists (c + 1). split; [rewrite Hc; f_equal; lia|]. split; [lia|].
      replace (w - 1 - c) with (Z.succ (w - 1 - (c + 1))) in Hb by lia.
      replace (w - c) with (Z.succ (w - (c + 1))) in Hb by lia.
      rewrite !Z.pow_succ_r in Hb by lia. lia.
    + exists 0. rewrite !Z.add_0_r, !Z.sub_0_r. repeat split; lia.
Qed.

Lemma ctz_loop_spec : forall (fuel : nat) value count,
  0 < value < 2 ^ Z.of_nat fuel ->
  exists c, Numeric.ctz_loop fuel value count = Ok (count + c) /\
            0 <= c < Z.of_nat fuel /\ value mod 2 ^ c = 0 /\ Z.odd (value / 2 ^ c) = true.
Proof.
  induction fuel as [|fuel IH]; intros value count Hv; [simpl in Hv; lia|].
  cbn [Numeric.ctz_loop].
  change 1 with (Z.ones 1) at 1. rewrite Z.land_ones by lia. change (2 ^ 1) with 2.
  rewrite Z.shiftr_div_pow2 by lia. change (2 ^ 1) with 2.
  pose proof (Z.div_mod value 2 ltac:(lia)) as Hdm.
  pose proof (Z.mod_pos_bound value 2 ltac:(lia)) as Hm.
  destruct (Z.eqb_spec (value mod 2) 0) as [Heven|Hodd].
  - destruct (IH (value / 2) (count + 1)) as (c & Hc & Hr & Hz & Ho).
    { rewrite Nat2Z.inj_succ, Z.pow_succ_r in Hv by lia. lia. }
    exists (c + 1). split; [rewrite Hc; f_equal; lia|]. split; [lia|].
    replace (c + 1) with (Z.succ c) by lia. rewrite Z.pow_succ_r by lia.
    assert (0 < 2 ^ c) by (apply Z.pow_pos_nonneg; lia).
    split.
    + rewrite Z.rem_mul_r by lia. rewrite Heven, Hz. lia.
    + by rewrite <- Z.div_div by lia.
  - exists 0. rewrite Z.add_0_r. split; [done|]. split; [lia|].
    simpl. rewrite Z.mod_1_r, Z.div_1_r. split; [done|].
    rewrite <- Z.bit0_odd. pose proof (Z.bit0_mod value).
    destruct (Z.testbit value 0); simpl in *; [done|lia].
Qed.

Lemma set_bits_zero n : set_bits n 0 = 0.
Proof.
  unfold set_bits. induction (seq 0 n) as [|i l IH]; [done|].
  simpl. by rewrite Z.bits_0, IH.
Qed.

Lemma set_bits_succ n v :
  set_bits (S n) v = Z.b2z (Z.testbit v 0) + set_bits n (v / 2).
Proof.
  unfold set_bits. cbn [seq map foldr]. f_equal.
  rewrite <- seq_shift, map_map. apply (f_equal (foldr Z.add 0)).
  apply map_ext. intros i. cbv beta.
  by rewrite Nat2Z.inj_succ, Z.div2_bits by lia.
Qed.

Lemma popcnt_loop_spec : forall (n fuel : nat) value count,
  (n < fuel)%nat -> 0 <= value < 2 ^ Z.of_nat n ->
  Numeric.popcnt_loop fuel value count = Ok (count + set_bits n value).
Proof.
  induction n as [|n IH]; intros fuel value count Hf Hv;
    (destruct fuel as [|fuel]; [lia|]); cbn [Numeric.popcnt_loop].
  - simpl in Hv. assert (value = 0) as -> by lia. simpl. by rewrite Z.add_0_r.
  - destruct (Z.eqb_spec value 0) as [->|Hne]; simpl negb; cbv iota.
    + by rewrite set_bits_zero, Z.add_0_r.
    + rewrite Z.shiftr_div_pow2 by lia. change (2 ^ 1) with 2.
      rewrite IH; [|lia|].
      * rewrite set_bits_succ. f_equal.
        change 1 with (Z.ones 1) at 1. rewrite Z.land_ones by lia. change (2 ^ 1) with 2.
        rewrite Z.bit0_mod. lia.
      * rewrite Nat2Z.inj_succ, Z.pow_succ_r in Hv by lia.
        pose proof (Z.div_mod value 2 ltac:(lia)).
        pose proof (Z.mod_pos_bound value 2 ltac:(lia)). lia.
Qed.

(** A case with one operand: it is popped, then the body decides. *)
Lemma unary_spec pop tag view (make : Z -> TypedValue) f (s : Stack.t) va :
  typed_pop_spec pop tag view -> type va = tag ->
  Numeric.unary pop (fun r => Stack.push (make r)) f (s ++ [va]) =
    match f (view (value va)) with
    | Ok r => (Ok tt, s ++ [make r])
    | Throw e => (Throw e, s)
    | Exhausted b => (Exhausted b, s)
    end.
Proof.
  intros [_ Hsnoc] Ha. unfold Numeric.unary, bind, lift_outcome.
  rewrite Hsnoc, Ha, Z.eqb_refl. by destruct (f _).
Qed.

(** X14: the bit-counting cases.  On the unsigned reading [v] of the
    operand, [clz] and [ctz] return the width for 0; otherwise [clz]
    returns the number [c] of zero bits above the highest set bit
    ([2^(w-1-c) <= v < 2^(w-c)]) and [ctz] the position [c] of the lowest
    set bit ([2^c] divides [v] with an odd quotient); [popcnt] returns the
    number of set bits.  Their loops always end.  The six instructions
    replace the operand by that count. *)
Theorem X14_bit_counts (w a : Z) :
  0 < w ->
  let v := wrap w a in
  (v = 0 -> Numeric.clz w a = Ok w /\ Numeric.ctz w a = Ok w) /\
  (v <> 0 ->
   (exists c, Numeric.clz w a = Ok c /\ 0 <= c < w /\ 2 ^ (w - 1 - c) <= v < 2 ^ (w - c)) /\
   (exists c, Numeric.ctz w a = Ok c /\ 0 <= c < w /\
              v mod 2 ^ c = 0 /\ Z.odd (v / 2 ^ c) = true)) /\
  Numeric.popcnt w a = Ok (set_bits (Z.to_nat w) v) /\
  (forall (s : Stack.t) (count : Z -> Z -> outcome Z) instr32 instr64,
     (count, instr32, instr64) = (Numeric.clz, Numeric.I32_CLZ, Numeric.I64_CLZ) \/
     (count, instr32, instr64) = (Numeric.ctz, Numeric.I32_CTZ, Numeric.I64_CTZ) \/
     (count, instr32, instr64) = (Numeric.popcnt, Numeric.I32_POPCNT, Numeric.I64_POPCNT) ->
     forall c32 c64, count 32 a = Ok c32 -> count 64 a = Ok c64 ->
     instr32 (s ++ [makeI32 a]) = (Ok tt, s ++ [makeI32 c32]) /\
     instr64 (s ++ [makeI64 a]) = (Ok tt, s ++ [makeI64 c64])).
Proof.
  intros Hw v.
  pose proof (wrap_range w a Hw) as Hv. fold v in Hv.
  split; [|split; [|split]].
  - intros H0. unfold Numeric.clz, Numeric.ctz. fold v. by rewrite H0.
  - intros Hne. unfold Numeric.clz, Numeric.ctz. fold v.
    destruct (Z.eqb_spec v 0); [done|]. split.
    + destruct (clz_loop_spec w Hw (Z.to_nat w) v 0) as (c & Hc & Hr); [lia| |].
      { rewrite Z2Nat.id, Z.sub_diag by lia. simpl. lia. }
      exists c. by rewrite Hc.
    + destruct (ctz_loop_spec (Z.to_nat w) v 0) as (c & Hc & Hr).
      { rewrite Z2Nat.id by lia. lia. }
      exists c. rewrite Hc. rewrite Z2Nat.id in Hr by lia. done.
  - unfold Numeric.popcnt. fold v. rewrite (popcnt_loop_spec (Z.to_nat w)); [done|lia|].
    rewrite Z2Nat.id by lia. done.
  - intros s count instr32 instr64 Hcase c32 c64 H32 H64.
    assert (forall x, wrap 32 (Value_i32 (value (makeI32 x))) = wrap 32 x) as E32.
    { intros x. unfold Value_i32. simpl. by rewrite wrap_signed, wrap_wrap. }
    assert (forall x, wrap 64 (Value_i64 (value (makeI64 x))) = wrap 64 x) as E64.
    { intros x. unfold Value_i64. simpl. by rewrite wrap_signed, wrap_wrap. }
    destruct Hcase as [[= -> -> ->] | [[= -> -> ->] | [= -> -> ->]]].
    + unfold Numeric.I32_CLZ, Numeric.I64_CLZ, Stack.pushI32, Stack.pushI64.
      rewrite (unary_spec _ _ _ makeI32 _ s (makeI32 a) popI32_spec eq_refl).
      rewrite (unary_spec _ _ _ makeI64 _ s (makeI64 a) popI64_spec eq_refl).
      unfold Numeric.clz in *. rewrite E32, E64, H32, H64. done.
    + unfold Numeric.I32_CTZ, Numeric.I64_CTZ, Stack.pushI32, Stack.pushI64.
      rewrite (unary_spec _ _ _ makeI32 _ s (makeI32 a) popI32_spec eq_refl).
      rewrite (unary_spec _ _ _ makeI64 _ s (makeI64 a) popI64_spec eq_refl).
      unfold Numeric.ctz in *. rewrite E32, E64, H32, H64. done.
    + unfold Numeric.I32_POPCNT, Numeric.I64_POPCNT, Stack.pushI32, Stack.pushI64.
      rewrite (unary_spec _ _ _ makeI32 _ s (makeI32 a) popI32_spec eq_refl).
      rewrite (unary_spec _ _ _ makeI64 _ s (makeI64 a) popI64_spec eq_refl).
      unfold Numeric.popcnt in *. rewrite E32, E64, H32, H64. done.
Qed.

Lemma X14_witness :
  Numeric.popcnt 32 40 = Ok (set_bits (Z.to_nat 32) (wrap 32 40)) /\
  set_bits (Z.to_nat 32) (wrap 32 40) = 2 /\
  Numeric.clz 32 40 = Ok 26 /\ Numeric.ctz 32 40 = Ok 3.
Proof.
  split; [|by vm_compute].
  exact (proj1 (proj2 (proj2 (X14_bit_counts 32 40 ltac:(lia))))).
Defined.

(** ** The cursor of the decoder *)




















(** ** The header of a module *)

Lemma verifyMagicAndVersion_on_eight b0 b1 b2 b3 b4 b5 b6 b7 rest :
  let buffer := b0 :: b1 :: b2 :: b3 :: b4 :: b5 :: b6 :: b7 :: rest in
  Parse.verifyMagicAndVersion (Decoder.mkDecoder buffer 0) =
    if negb (Memory.le_value [b0; b1; b2; b3] =? Parse.WASM_MAGIC)
    then (Throw (DecoderError None "Invalid magic number"), Decoder.mkDecoder buffer 4)
    else if negb (Memory.le_value [b4; b5; b6; b7] =? Parse.WASM_VERSION)
    then (Throw (DecoderError None "Unsupported version"), Decoder.mkDecoder buffer 8)
    else (Ok tt, Decoder.mkDecoder buffer 8).
Proof.
  intros buffer. subst buffer.
  unfold Parse.verifyMagicAndVersion, Parse.readU32, Parse.read_le, Decoder.ensureBytes,
    bind, get, put, ret, throw.
  cbn [Decoder.buffer_ Decoder.position_ length Nat.ltb Nat.leb Nat.add take drop].
  destruct (negb (_ =? Parse.WASM_MAGIC)); [reflexivity|].
  cbn [Decoder.buffer_ Decoder.position_ length Nat.ltb Nat.leb Nat.add take drop].
  by destruct (negb (_ =? Parse.WASM_VERSION)).
Qed.

(** X16: the header check.  At the start of a buffer of bytes,
    [verifyMagicAndVersion] returns, with the cursor behind the eight
    bytes, when the buffer begins with [00 61 73 6D 01 00 00 00]; it
    throws the DecoderError "File too small to be a valid WASM module" on
    fewer than eight bytes, "Invalid magic number" (cursor behind the
    first four bytes) when these are not [00 61 73 6D], and "Unsupported
    version" (cursor behind eight) when the next four are not
    [01 00 00 00]. *)
Theorem X16_header_check (d : Decoder.t) :
  Decoder.position_ d = 0%nat ->
  Forall (fun b => 0 <= b < 256) (Decoder.buffer_ d) ->
  (take 8 (Decoder.buffer_ d) = wasm_header ->
   Parse.verifyMagicAndVersion d = (Ok tt, Decoder.mkDecoder (Decoder.buffer_ d) 8)) /\
  ((length (Decoder.buffer_ d) < 8)%nat ->
   Parse.verifyMagicAndVersion d =
     (Throw (DecoderError None "File too small to be a valid WASM module"), d)) /\
  ((8 <= length (Decoder.buffer_ d))%nat ->
   take 4 (Decoder.buffer_ d) <> take 4 wasm_header ->
   Parse.verifyMagicAndVersion d =
     (Throw (DecoderError None "Invalid magic number"),
      Decoder.mkDecoder (Decoder.buffer_ d) 4)) /\
  ((8 <= length (Decoder.buffer_ d))%nat ->
   take 4 (Decoder.buffer_ d) = take 4 wasm_header ->
   take 8 (Decoder.buffer_ d) <> wasm_header ->
   Parse.verifyMagicAndVersion d =
     (Throw (DecoderError None "Unsupported version"),
      Decoder.mkDecoder (Decoder.buffer_ d) 8)).
Proof.
  destruct d as [buffer position]. simpl. intros -> Hbytes.
  split; [|split; [|split]].
  - intros Hhead.
    destruct buffer as [|b0 [|b1 [|b2 [|b3 [|b4 [|b5 [|b6 [|b7 rest]]]]]]]]; try discriminate.
    injection Hhead as -> -> -> -> -> -> -> ->.
    by rewrite verifyMagicAndVersion_on_eight.
  - intros Hlen. unfold Parse.verifyMagicAndVersion, bind, get, throw. simpl.
    by destruct (Nat.ltb_spec (length buffer) 8); [|lia].
  - intros Hlen Hmagic.
    destruct buffer as [|b0 [|b1 [|b2 [|b3 [|b4 [|b5 [|b6 [|b7 rest]]]]]]]];
      try (simpl in Hlen; lia).
    rewrite verifyMagicAndVersion_on_eight.
    do 4 (apply Forall_cons in Hbytes as [? Hbytes]).
    destruct (Z.eqb_spec (Memory.le_value [b0; b1; b2; b3]) Parse.WASM_MAGIC) as [E|_]; [|done].
    exfalso. apply Hmagic. unfold Parse.WASM_MAGIC in E. simpl in E.
    assert (b0 = 0 /\ b1 = 97 /\ b2 = 115 /\ b3 = 109) as (-> & -> & -> & ->) by lia.
    reflexivity.
  - intros Hlen Hmagic Hversion.
    destruct buffer as [|b0 [|b1 [|b2 [|b3 [|b4 [|b5 [|b6 [|b7 rest]]]]]]]];
      try (simpl in Hlen; lia).
    rewrite verifyMagicAndVersion_on_eight.
    injection Hmagic as -> -> -> ->.
    do 8 (apply Forall_cons in Hbytes as [? Hbytes]).
    change (negb (Memory.le_value [0; 97; 115; 109] =? Parse.WASM_MAGIC)) with false.
    cbv iota.
    destruct (Z.eqb_spec (Memory.le_value [b4; b5; b6; b7]) Parse.WASM_VERSION) as [E|_];
      [|done].
    exfalso. apply Hversion. unfold Parse.WASM_VERSION in E. simpl in E.
    assert (b4 = 1 /\ b5 = 0 /\ b6 = 0 /\ b7 = 0) as (-> & -> & -> & ->) by lia.
    reflexivity.
Qed.

Lemma X16_witness :
  Parse.verifyMagicAndVersion
    (Decoder.mkDecoder [0x00; 0x61; 0x73; 0x6D; 0x01; 0x00; 0x00; 0x00; 0x01; 0x04] 0) =
  (Ok tt, Decoder.mkDecoder [0x00; 0x61; 0x73; 0x6D; 0x01; 0x00; 0x00; 0x00; 0x01; 0x04] 8).
Proof.
  apply (proj1 (X16_header_check
                  (Decoder.mkDecoder
                     [0x00; 0x61; 0x73; 0x6D; 0x01; 0x00; 0x00; 0x00; 0x01; 0x04] 0)
                  eq_refl ltac:(repeat constructor; lia))).
  reflexivity.
Defined.

(** ** Sums, differences, products and rotations *)






(** ** Memory instructions *)

Lemma bytes_at_split pre post buffer pos :
  bytes_at (pre ++ post) buffer pos ->
  bytes_at pre buffer pos /\ bytes_at post buffer (pos + length pre).
Proof.
  unfold bytes_at. rewrite length_app. intros H.
  assert (length (pre ++ post) <= length (drop pos buffer))%nat as Hlen.
  { rewrite <- H at 1. rewrite length_take. lia. }
  rewrite length_app in Hlen.
  rewrite <- (take_drop (length pre) (drop pos buffer)) in H.
  rewrite take_app_ge in H by (rewrite length_take; lia).
  rewrite length_take, Nat.min_l in H by lia.
  replace (length pre + length post - length pre)%nat with (length post) in H by lia.
  apply app_inj_1 in H as [H1 H2]; [|rewrite length_take; lia].
  split; [done|]. by rewrite <- drop_drop.
Qed.

Lemma readMemArg_decodes st align offset :
  0 <= align < 2 ^ 32 -> 0 <= offset < 2 ^ 32 ->
  let imm := leb128_unsigned 4 align ++ leb128_unsigned 4 offset in
  bytes_at imm (code_ st) (pc_ st) -> (pc_ st + length imm <= code_size_ st)%nat ->
  readMemArg st = (Ok (align, offset), set_pc_ (pc_ st + length imm) st).
Proof.
  intros Ha Ho imm Hat Hsize. unfold imm in *. rewrite length_app in *.
  apply bytes_at_split in Hat as [Hat1 Hat2].
  unfold readMemArg. unfold bind at 1.
  rewrite (readVarUint32_decodes align) by (done || lia).
  unfold bind at 1.
  rewrite (readVarUint32_decodes offset)
    by first [done | cbn [pc_ code_ code_size_ set_pc_]; first [done | lia]].
  unfold ret, set_pc_. cbn [pc_ code_ code_size_ module_ stack_ call_stack_ memory_
                             globals_ locals_ labels_].
  by rewrite Nat.add_assoc.
Qed.

Lemma effectiveAddress_spec base offset :
  0 <= base < 2 ^ 32 -> 0 <= offset < 2 ^ 32 ->
  effectiveAddress base offset =
    if UINT32_MAX <? base + offset then Throw (Trap "Memory address overflow")
    else Ok (base + offset).
Proof.
  unfold UINT32_MAX. intros Hb Ho. unfold effectiveAddress, UINT32_MAX.
  assert (wrap 64 (base + offset) = base + offset) as ->.
  { apply wrap_small. change (2 ^ 64) with (2 ^ 32 * 2 ^ 32). nia. }
  destruct (Z.gtb_spec (base + offset) (2 ^ 32 - 1));
    destruct (Z.ltb_spec (2 ^ 32 - 1) (base + offset)); try lia; [reflexivity|].
  f_equal. apply wrap_small. lia.
Qed.

Lemma on_memory_unchanged {A} (c : M Memory.t A) st m r :
  memory_ st = Some m -> c m = (r, m) -> on_memory c st = (r, st).
Proof.
  intros Hm Hc. unfold on_memory. rewrite Hm, Hc. unfold set_memory_.
  rewrite <- Hm. by destruct st.
Qed.

Lemma on_memory_loadI32 st m address :
  memory_ st = Some m -> 0 <= address <= UINT32_MAX ->
  on_memory (Memory.loadI32 address) st =
    if (length (Memory.data_ m) <? Z.to_nat address + 4)%nat
    then (Throw (MemoryError "Memory access out of bounds"), st)
    else (Ok (signed 32 (Memory.le_value (take 4 (drop (Z.to_nat address) (Memory.data_ m))))),
          st).
Proof.
  intros Hm Ha. unfold on_memory. rewrite Hm. unfold Memory.loadI32, bind.
  rewrite load_spec by (done || lia).
  destruct (length (Memory.data_ m) <? Z.to_nat address + 4)%nat;
    unfold ret, set_memory_; rewrite <- Hm; by destruct st.
Qed.

(** X18: the memory instructions.  Without a memory every memory
    instruction throws the InterpreterError "No memory instantiated".
    The effective address is the sum of base and offset, taken in 64
    bits: it throws the Trap "Memory address overflow" exactly when the
    sum exceeds [UINT32_MAX].  [i32.load] reads its two immediates, pops
    the base address and pushes the four bytes at the effective address
    as an i32; [i32.store] pops the value, then the base address, and
    stores the value there with [Memory::storeI32]; an access beyond the
    bytes of the memory throws the MemoryError of the memory after the
    operands are popped. *)
Theorem X18_memory_instructions (st : Interpreter) :
  (memory_ st = None ->
   forall opcode,
     executeMemory opcode st = (Throw (InterpreterError "No memory instantiated"), st)) /\
  (forall base offset, 0 <= base < 2 ^ 32 -> 0 <= offset < 2 ^ 32 ->
     effectiveAddress base offset =
       if UINT32_MAX <? base + offset then Throw (Trap "Memory address overflow")
       else Ok (base + offset)) /\
  (forall m align offset base,
     memory_ st = Some m ->
     0 <= align < 2 ^ 32 -> 0 <= offset < 2 ^ 32 -> 0 <= base < 2 ^ 32 ->
     let imm := leb128_unsigned 4 align ++ leb128_unsigned 4 offset in
     bytes_at imm (code_ st) (pc_ st) -> (pc_ st + length imm <= code_size_ st)%nat ->
     let st1 := set_pc_ (pc_ st + length imm) st in
     (forall s, stack_ st = s ++ [makeI32 base] ->
        executeMemory Opcode.I32_LOAD st =
          if UINT32_MAX <? base + offset
          then (Throw (Trap "Memory address overflow"), set_stack_ s st1)
          else if (length (Memory.data_ m) <? Z.to_nat (base + offset) + 4)%nat
          then (Throw (MemoryError "Memory access out of bounds"), set_stack_ s st1)
          else (Ok tt,
                set_stack_
                  (s ++ [makeI32 (Memory.le_value
                                    (take 4 (drop (Z.to_nat (base + offset))
                                               (Memory.data_ m))))]) st1)) /\
     (forall s v, stack_ st = s ++ [makeI32 base; makeI32 v] ->
        executeMemory Opcode.I32_STORE st =
          if UINT32_MAX <? base + offset
          then (Throw (Trap "Memory address overflow"), set_stack_ s st1)
          else
            let '(r, m') := Memory.storeI32 (base + offset) (signed 32 v) m in
            (r, set_memory_ (Some m') (set_stack_ s st1)))).
Proof.
  split; [|split; [apply effectiveAddress_spec|]].
  - intros Hm opcode. unfold executeMemory, bind, get, throw. by rewrite Hm.
  - intros m align offset base Hm Halign Hoffset Hbase imm Hat Hsize st1.
    pose proof (readMemArg_decodes st align offset Halign Hoffset Hat Hsize) as Hmemarg.
    fold imm in Hmemarg. fold st1 in Hmemarg.
    assert (Value_i32 (value (makeI32 base)) = signed 32 base) as Hpop.
    { unfold Value_i32. simpl. apply signed_wrap. }
    assert (wrap 32 (signed 32 base) = base) as Hbase'.
    { rewrite wrap_signed by lia. by apply wrap_small. }
    split.
    + intros s Hs.
      unfold executeMemory. unfold bind at 1, get. rewrite Hm.
      change (Opcode.I32_LOAD =? Opcode.MEMORY_SIZE) with false.
      change (Opcode.I32_LOAD =? Opcode.MEMORY_GROW) with false. cbv iota.
      unfold bind at 1. rewrite Hmemarg. cbn [snd].
      change (Opcode.I32_LOAD =? Opcode.I32_LOAD) with true. cbv iota.
      unfold load_case. unfold bind at 1.
      rewrite (on_stack_typed_pop _ _ _ st1 s (makeI32 base) popI32_spec Hs eq_refl).
      rewrite Hpop, Hbase'. unfold bind at 1, lift_outcome.
      rewrite effectiveAddress_spec by done.
      destruct (Z.ltb_spec UINT32_MAX (base + offset)) as [|Hfit]; [reflexivity|].
      unfold bind at 1.
      rewrite (on_memory_loadI32 _ m) by (done || (unfold UINT32_MAX in *; lia)).
      destruct (length (Memory.data_ m) <? Z.to_nat (base + offset) + 4)%nat; [done|].
      unfold on_stack, Stack.pushI32, Stack.push, modify. simpl.
      by rewrite makeI32_signed.
    + intros s v Hs.
      unfold executeMemory. unfold bind at 1, get. rewrite Hm.
      change (Opcode.I32_STORE =? Opcode.MEMORY_SIZE) with false.
      change (Opcode.I32_STORE =? Opcode.MEMORY_GROW) with false. cbv iota.
      unfold bind at 1. rewrite Hmemarg. cbn [snd].
      repeat match goal with
             | |- context [Opcode.I32_STORE =? ?c] =>
                 let r := eval vm_compute in (Opcode.I32_STORE =? c) in
                 change (Opcode.I32_STORE =? c) with r; cbv iota
             end.
      unfold store_case. unfold bind at 1.
      change (s ++ [makeI32 base; makeI32 v]) with (s ++ [makeI32 base] ++ [makeI32 v]) in Hs.
      rewrite app_assoc in Hs.
      rewrite (on_stack_typed_pop _ _ _ st1 _ (makeI32 v) popI32_spec Hs eq_refl).
      unfold bind at 1.
      rewrite (on_stack_typed_pop _ _ _ (set_stack_ (s ++ [makeI32 base]) st1) s (makeI32 base)
                 popI32_spec eq_refl eq_refl).
      rewrite Hpop, Hbase'. unfold bind at 1, lift_outcome.
      rewrite effectiveAddress_spec by done.
      destruct (Z.ltb_spec UINT32_MAX (base + offset)) as [|Hfit]; [reflexivity|].
      unfold on_memory. cbn [memory_ set_stack_]. change (memory_ st1) with (memory_ st).
      rewrite Hm.
      unfold id, Value_i32. cbn [value makeI32]. rewrite signed_wrap.
      reflexivity.
Qed.

Lemma X18_witness :
  executeMemory Opcode.I32_LOAD
    (mkInterpreter (mkModule [] [] [] [] [] []) [makeI32 2] []
       (Some (Memory.mkMemory [1; 2; 3; 4; 5; 6; 7; 8] (Limits_min_only 0) 0)) [] []
       [0x28; 0x02; 0x01] 3 1 []) =
  (Ok tt,
   mkInterpreter (mkModule [] [] [] [] [] []) [makeI32 0x07060504] []
     (Some (Memory.mkMemory [1; 2; 3; 4; 5; 6; 7; 8] (Limits_min_only 0) 0)) [] []
     [0x28; 0x02; 0x01] 3 3 []).
Proof.
  pose proof (proj1 (proj2 (proj2 (X18_memory_instructions
                (mkInterpreter (mkModule [] [] [] [] [] []) [makeI32 2] []
                   (Some (Memory.mkMemory [1; 2; 3; 4; 5; 6; 7; 8] (Limits_min_only 0) 0))
                   [] [] [0x28; 0x02; 0x01] 3 1 [])))
              (Memory.mkMemory [1; 2; 3; 4; 5; 6; 7; 8] (Limits_min_only 0) 0) 2 1 2
              eq_refl ltac:(lia) ltac:(lia) ltac:(lia) eq_refl ltac:(simpl; lia))
              [] eq_refl) as H.
  exact H.
Defined.

(** ** Calling a function by index *)

Lemma push_args_spec args : forall st,
  push_args args st = (Ok tt, set_stack_ (stack_ st ++ args) st).
Proof.
  induction args as [|arg args IH]; intros st.
  - simpl. unfold ret. rewrite app_nil_r. by destruct st.
  - cbn [push_args]. unfold bind at 1, on_stack, Stack.push, modify.
    rewrite IH. cbn [stack_ set_stack_]. by rewrite <- app_assoc.
Qed.

Lemma drop_insert_here {A} (l : list A) j v :
  (j < length l)%nat -> drop j (<[j := v]> l) = v :: drop (S j) l.
Proof.
  revert j. induction l as [|x l IH]; intros j Hj; [simpl in Hj; lia|].
  destruct j as [|j]; [by rewrite drop_0|]. simpl in *. apply IH. lia.
Qed.

Lemma pop_results_spec : forall (n : nat) (vs results : list TypedValue) (s : Stack.t) st,
  length vs = n -> (n <= length results)%nat -> stack_ st = s ++ vs ->
  pop_results n results st = (Ok (vs ++ drop n results), set_stack_ s st).
Proof.
  induction n as [|j IH]; intros vs results s st Hvs Hres Hs.
  - destruct vs; [|discriminate]. rewrite app_nil_r in Hs. simpl. unfold ret.
    rewrite <- Hs. by destruct st.
  - destruct vs as [|v vs _] using rev_ind; [discriminate|].
    rewrite length_app in Hvs. simpl in Hvs.
    cbn [pop_results]. unfold bind at 1, on_stack.
    rewrite Hs, app_assoc, Stack_pop_snoc.
    rewrite (IH vs _ s); [| lia | rewrite length_insert; lia | reflexivity ].
    rewrite drop_insert_here by lia. by rewrite <- app_assoc.
Qed.

(** X19: [callFunction] passes arguments and results through the operand
    stack.  An index that is not below the number of functions is refused
    with the InterpreterError "Function index out of bounds" before
    anything is pushed.  Otherwise the arguments are pushed in order, the
    first lowest, and [execute] runs on that stack; when it returns, as
    many values as the function's type has results are popped and
    returned in stack order, the top one last, and the values below them
    stay.  With fewer values on the stack the pop throws the StackError
    "Stack underflow". *)
Theorem X19_callFunction_passes_arguments_and_results
    (execute : Z -> M Interpreter unit) (st : Interpreter) (func_index : Z)
    (args : list TypedValue) :
  (getTotalFunctionCount (module_ st) <= func_index ->
   callFunction execute func_index args st =
     (Throw (InterpreterError "Function index out of bounds"), st)) /\
  (func_index < getTotalFunctionCount (module_ st) ->
   forall st' func_type,
     execute func_index (set_stack_ (stack_ st ++ args) st) = (Ok tt, st') ->
     getFunctionType (module_ st') func_index = Some func_type ->
     (forall s rs,
        stack_ st' = s ++ rs -> length rs = length (results func_type) ->
        callFunction execute func_index args st = (Ok rs, set_stack_ s st')) /\
     ((length (stack_ st') < length (results func_type))%nat ->
      fst (callFunction execute func_index args st) =
        Throw (StackError "Stack underflow"))).
Proof.
  split.
  - intros Hge. unfold callFunction, validateFunctionCall, bind, get, throw.
    by destruct (Z.leb_spec (getTotalFunctionCount (module_ st)) func_index); [|lia].
  - intros Hlt st' func_type Hexec Htype.
    assert (callFunction execute func_index args st =
            pop_results (length (results func_type))
              (replicate (length (results func_type)) TypedValue_default) st') as Hcall.
    { unfold callFunction, validateFunctionCall. unfold bind at 1. unfold bind at 1, get.
      destruct (Z.leb_spec (getTotalFunctionCount (module_ st)) func_index); [lia|].
      unfold ret. unfold bind at 1. rewrite push_args_spec.
      unfold bind at 1. rewrite Hexec. unfold bind at 1. rewrite Htype.
      destruct (results func_type) as [|r rs] eqn:Hr; [|reflexivity].
      reflexivity. }
    split.
    + intros s rs Hs Hlen. rewrite Hcall.
      rewrite (pop_results_spec _ rs _ s) by (done || rewrite length_replicate; lia).
      rewrite drop_ge by (rewrite length_replicate; lia). by rewrite app_nil_r.
    + intros Hshort. rewrite Hcall. clear Hcall Hexec Htype Hlt.
      generalize (replicate (length (results func_type)) TypedValue_default).
      generalize dependent st'. generalize (length (results func_type)).
      intros n st'. remember (stack_ st') as stk eqn:Hstk.
      revert n st' Hstk.
      induction stk as [|v stk IH] using rev_ind; intros n st' Hstk Hshort results.
      * destruct n as [|n]; [simpl in Hshort; lia|].
        cbn [pop_results]. unfold bind, on_stack. rewrite <- Hstk. reflexivity.
      * destruct n as [|n]; [simpl in Hshort; lia|].
        rewrite length_app in Hshort. simpl in Hshort.
        cbn [pop_results]. unfold bind at 1, on_stack. rewrite <- Hstk, Stack_pop_snoc.
        apply IH; [reflexivity|lia].
Qed.

Lemma X19_witness :
  callFunction (fun _ => ret tt) 0 [makeI32 7; makeI32 9]
    (mkInterpreter
       (mkModule [mkFuncType [I32; I32] [I32]] [mkFunction 0 [] [0x0B]] [0] [] [] [])
       [makeI32 1] [] None [] [] [] 0 0 []) =
  (Ok [makeI32 9],
   mkInterpreter
     (mkModule [mkFuncType [I32; I32] [I32]] [mkFunction 0 [] [0x0B]] [0] [] [] [])
     [makeI32 1; makeI32 7] [] None [] [] [] 0 0 []).
Proof.
  exact (proj1 (proj2 (X19_callFunction_passes_arguments_and_results
                         (fun _ => ret tt)
                         (mkInterpreter
                            (mkModule [mkFuncType [I32; I32] [I32]] [mkFunction 0 [] [0x0B]]
                                      [0] [] [] [])
                            [makeI32 1] [] None [] [] [] 0 0 [])
                         0 [makeI32 7; makeI32 9])
                      ltac:(vm_compute; reflexivity) _ (mkFuncType [I32; I32] [I32])
                      eq_refl eq_refl)
               [makeI32 1; makeI32 7] [makeI32 9] eq_refl eq_refl).
Defined.

(** ** Initialisation expressions *)

Lemma readInitExpression_loop_reads : forall (rest acc : list Z) (fuel : nat) d,
  bytes_at (rest ++ [Parse.OP_END]) (Decoder.buffer_ d) (Decoder.position_ d) ->
  Forall (fun b => b <> Parse.OP_END) rest ->
  (length acc + length rest <= 1024)%nat -> (length rest < fuel)%nat ->
  Parse.readInitExpression_loop fuel acc d =
    (Ok (acc ++ rest ++ [Parse.OP_END]),
     Decoder.mkDecoder (Decoder.buffer_ d) (Decoder.position_ d + length rest + 1)).
Proof.
  induction rest as [|b rest IH]; intros acc fuel d Hat Hno Hlen Hfuel;
    (destruct fuel as [|fuel]; [simpl in Hfuel; lia|]); cbn [Parse.readInitExpression_loop];
    rewrite bind_Decoder_readByte.
  - apply bytes_at_cons in Hat as [Hb _]. rewrite Hb, Z.eqb_refl.
    unfold ret. simpl. do 2 f_equal. lia.
  - apply bytes_at_cons in Hat as [Hb Hat]. rewrite Hb.
    apply Forall_cons in Hno as [Hne Hno].
    destruct (Z.eqb_spec b Parse.OP_END); [done|].
    simpl in Hlen, Hfuel.
    destruct (Nat.ltb_spec 1024 (length (acc ++ [b]))) as [Hbig|_].
    { rewrite length_app in Hbig. simpl in Hbig. lia. }
    rewrite (IH (acc ++ [b]) fuel); [| exact Hat | exact Hno | rewrite length_app; simpl; lia | lia ].
    simpl. rewrite <- app_assoc. simpl. do 2 f_equal. lia.
Qed.

Lemma readInitExpression_loop_too_large : forall (n : nat) (acc : list Z) (fuel : nat) d,
  (forall i, (i < n)%nat ->
     exists b, Decoder.buffer_ d !! (Decoder.position_ d + i)%nat = Some b /\
               b <> Parse.OP_END) ->
  (length acc + n = 1025)%nat -> (0 < n)%nat -> (n <= fuel)%nat ->
  Parse.readInitExpression_loop fuel acc d =
    (Throw (DecoderError (Some (Decoder.position_ d + n)%nat)
              "Init expression too large (> 1024 bytes)"),
     Decoder.mkDecoder (Decoder.buffer_ d) (Decoder.position_ d + n)).
Proof.
  induction n as [|n IH]; intros acc fuel d Hbytes Hlen Hn Hfuel; [lia|].
  destruct fuel as [|fuel]; [lia|]. cbn [Parse.readInitExpression_loop].
  rewrite bind_Decoder_readByte.
  destruct (Hbytes 0%nat ltac:(lia)) as (b & Hb & Hne). rewrite Nat.add_0_r in Hb. rewrite Hb.
  destruct (Z.eqb_spec b Parse.OP_END); [done|].
  destruct (Nat.ltb_spec 1024 (length (acc ++ [b]))) as [Hbig|Hsmall];
    rewrite length_app in *; simpl in *.
  - assert (n = 0)%nat as -> by lia.
    unfold bind, Decoder.formatError, get, ret, throw. simpl.
    by rewrite Nat.add_1_r.
  - rewrite (IH (acc ++ [b]) fuel); [| | rewrite length_app; simpl; lia | lia | lia ].
    + simpl. by rewrite !Nat.add_succ_r.
    + intros i Hi. destruct (Hbytes (S i) ltac:(lia)) as (b' & Hb' & Hne').
      exists b'. split; [|done]. simpl. by rewrite <- Nat.add_succ_r.
Qed.

(** X20: [readInitExpression] returns the bytes from the cursor up to and
    including the first END byte (0x0B) and leaves the cursor behind it,
    provided at most 1024 bytes come before that END; after 1025 bytes
    without an END it throws the DecoderError "Init expression too large
    (> 1024 bytes)", formatted with the cursor behind those bytes. *)
Theorem X20_readInitExpression (d : Decoder.t) :
  (forall expr,
     bytes_at (expr ++ [Parse.OP_END]) (Decoder.buffer_ d) (Decoder.position_ d) ->
     Forall (fun b => b <> Parse.OP_END) expr -> (length expr <= 1024)%nat ->
     Parse.readInitExpression d =
       (Ok (expr ++ [Parse.OP_END]),
        Decoder.mkDecoder (Decoder.buffer_ d) (Decoder.position_ d + length expr + 1))) /\
  ((forall i, (i < 1025)%nat ->
      exists b, Decoder.buffer_ d !! (Decoder.position_ d + i)%nat = Some b /\
                b <> Parse.OP_END) ->
   Parse.readInitExpression d =
     (Throw (DecoderError (Some (Decoder.position_ d + 1025)%nat)
               "Init expression too large (> 1024 bytes)"),
      Decoder.mkDecoder (Decoder.buffer_ d) (Decoder.position_ d + 1025))).
Proof.
  split.
  - intros expr Hat Hno Hlen. unfold Parse.readInitExpression, bind, get.
    rewrite (readInitExpression_loop_reads expr []); [done|done|done|simpl; lia|].
    apply bytes_at_length in Hat. rewrite length_app in Hat. simpl in Hat.
    unfold Decoder.turns. lia.
  - intros Hbytes. unfold Parse.readInitExpression, bind, get.
    apply (readInitExpression_loop_too_large 1025 []); [done|simpl; lia|lia|].
    destruct (Hbytes 1024%nat ltac:(lia)) as (b & Hb & _).
    apply lookup_lt_Some in Hb. unfold Decoder.turns. lia.
Qed.

Lemma X20_witness :
  Parse.readInitExpression (Decoder.mkDecoder [0x00; 0x41; 0x2A; 0x0B; 0x00] 1) =
    (Ok ([0x41; 0x2A] ++ [Parse.OP_END]),
     Decoder.mkDecoder [0x00; 0x41; 0x2A; 0x0B; 0x00] (1 + length [0x41; 0x2A] + 1)).
Proof.
  apply (proj1 (X20_readInitExpression (Decoder.mkDecoder [0x00; 0x41; 0x2A; 0x0B; 0x00] 1))
           [0x41; 0x2A] eq_refl).
  - repeat constructor; discriminate.
  - simpl. lia.
Defined.
